(** * Slicing-tree floorplanning: the shape-curve algebra, the NPE validator
      and the tree builder of SNode.h and the driver, embedded in Rocq.

    Conventions of the embedding.
    - A C++ [float] is the real number it holds, and floats are compared
      as real numbers.  The sum, product, quotient and square root are not
      the real ones: they are the operations of a float arithmetic
      [FloatOps], of which nothing but the commutativity of the sum is
      assumed, so that what is proved holds whatever the operations round
      to.  [binary32] is the arithmetic of IEEE 754 single precision: the
      exact result rounded to the nearest number of 24 bits, ties to even,
      with gradual underflow; the theorems at concrete inputs use it.  An
      infinity compares as a number beyond every finite float and is
      covered in this way by what is proved for every arithmetic; NaN,
      which compares to nothing, is outside the model.
    - An [int] is a [Z] wrapped to 32 bits after every arithmetic step.
    - A [std::string] is a [string], read through its list of characters.
    - A [std::list<SNode>] is a [list SNode]; the address of its [i]-th
      element is a pointer [OpPtr i] (list [operators]) or [CellPtr i]
      (list [cells]); [NULL] is [None].  A [std::list] never moves its
      elements, so these addresses are stable under [push_back].
    - A [std::list<Dimensions>::iterator] stored in a point is the position
      of the element it designates in the child's list; an iterator that
      was never assigned is [None].
    - Functions that can throw or dereference [NULL] return an [outcome]:
      the state at the end (or at the throw) and the value.  Recursion
      along pointers and the walk up the parents take a bound [fuel];
      running out of it is an outcome of its own.

    Contents: the model of the code; the vocabulary of the properties;
    [addToDimensions] and the invariant of a curve; the candidate loops and
    the scan of [calcMinArea]; [isValidNPE]; valid expressions as trees;
    [generateTree] as a builder of subtrees; [calcMinArea] and [cost] on the
    trees built; leaf curves; [main]; binary32 and the one-operand
    expression; the theorems at concrete inputs. *)

From Stdlib Require Import Reals Lra Lia ZArith Ascii String List Permutation.
From stdpp Require Import base list.
Import ListNotations.

#[local] Open Scope R_scope.

(* ================================================================== *)
(** ** Numbers *)

Definition float : Type := R.

Definition fleb (x y : float) : bool := if Rle_dec x y then true else false.
Definition fgeb (x y : float) : bool := if Rge_dec x y then true else false.
Definition fltb (x y : float) : bool := if Rlt_dec x y then true else false.
Definition feqb (x y : float) : bool := if Req_dec_T x y then true else false.

(** The arithmetic of floats: the four operations the program uses, each
    giving the float the machine computes from its operands. *)
Class FloatOps : Type := mkFloatOps {
  fadd : float -> float -> float;
  fmul : float -> float -> float;
  fdiv : float -> float -> float;
  fsqrt : float -> float;
  fadd_comm : forall x y, fadd x y = fadd y x
}.

(** The integer nearest to [x], the even one of the two when [x] lies half
    way between them. *)
Definition round_even (x : R) : Z :=
  let f := Int_part x in
  if Rlt_dec (x - IZR f) (1 / 2) then f
  else if Rlt_dec (1 / 2) (x - IZR f) then (f + 1)%Z
  else if Z.even f then f else (f + 1)%Z.

(** The exponent [e] with [2^(e-1) <= |x| < 2^e]. *)
Definition magnitude (x : R) : Z := up (ln (Rabs x) / ln 2).

(** Rounding to binary32, to nearest and ties to even: 24 bits of
    precision, the last bit not below [2^-149].  A result of magnitude
    [2^128] or more is an infinity in the program; here the exponent is not
    bounded above. *)
Definition round32 (x : R) : float :=
  if Req_dec_T x 0 then 0
  else
    let e := Z.max (magnitude x - 24) (-149) in
    IZR (round_even (x * powerRZ 2 (- e))) * powerRZ 2 e.

Definition binary32 : FloatOps :=
  mkFloatOps (fun x y => round32 (x + y))
             (fun x y => round32 (x * y))
             (fun x y => round32 (x / y))
             (fun x => round32 (sqrt x))
             (fun x y => f_equal round32 (Rplus_comm x y)).

(** Two's complement wrap-around of a 32-bit [int]. *)
Definition int_wrap (z : Z) : Z := ((z + 2 ^ 31) mod 2 ^ 32 - 2 ^ 31)%Z.
Definition int_add (x y : Z) : Z := int_wrap (x + y).
Definition int_sub (x y : Z) : Z := int_wrap (x - y).

(* ================================================================== *)
(** ** Outcomes of stateful, fallible code *)

Inductive outcome (S A : Type) : Type :=
| Returns (s : S) (a : A)          (* normal return, final state *)
| Throws (s : S) (msg : string)    (* C++ throw of a string literal *)
| Undefined                        (* NULL or end() dereferenced *)
| OutOfFuel.                       (* the model's recursion bound was hit *)
Arguments Returns {S A} s a.
Arguments Throws {S A} s msg.
Arguments Undefined {S A}.
Arguments OutOfFuel {S A}.

(* ================================================================== *)
(** ** struct Dimensions *)

Record Dimensions : Type := mkDimensions {
  height : float;
  width : float;
  rSelected : option nat;
  lSelected : option nat
}.

(** [operator==] on [Dimensions]. *)
Definition Dimensions_eqb (lhs rhs : Dimensions) : bool :=
  feqb (height lhs) (height rhs) && feqb (width lhs) (width rhs).

(* ================================================================== *)
(** ** class SNode *)

Inductive ptr : Type :=
| CellPtr (i : nat)
| OpPtr (i : nat).

Definition ptr_eqb (p q : ptr) : bool :=
  match p, q with
  | CellPtr i, CellPtr j => Nat.eqb i j
  | OpPtr i, OpPtr j => Nat.eqb i j
  | _, _ => false
  end.

Record SNode : Type := mkSNode {
  isOperator : bool;
  fixed : bool;
  name : ascii;
  aspectRatio : float;
  area : float;
  sizes : list Dimensions;
  selected : option Dimensions;
  right : option ptr;
  left : option ptr;
  parent : option ptr
}.

Definition set_sizes (v : list Dimensions) (n : SNode) : SNode :=
  mkSNode (isOperator n) (fixed n) (name n) (aspectRatio n) (area n) v
          (selected n) (right n) (left n) (parent n).
Definition set_right (v : option ptr) (n : SNode) : SNode :=
  mkSNode (isOperator n) (fixed n) (name n) (aspectRatio n) (area n) (sizes n)
          (selected n) v (left n) (parent n).
Definition set_left (v : option ptr) (n : SNode) : SNode :=
  mkSNode (isOperator n) (fixed n) (name n) (aspectRatio n) (area n) (sizes n)
          (selected n) (right n) v (parent n).
Definition set_parent (v : option ptr) (n : SNode) : SNode :=
  mkSNode (isOperator n) (fixed n) (name n) (aspectRatio n) (area n) (sizes n)
          (selected n) (right n) (left n) v.
Definition set_best (a : float) (sel : Dimensions) (ar : float) (n : SNode) : SNode :=
  mkSNode (isOperator n) (fixed n) (name n) ar a (sizes n)
          (Some sel) (right n) (left n) (parent n).

Section Model.
Context {ops : FloatOps}.

(** [SNode::calcWandH]. *)
Definition calcWandH (this : SNode) : SNode :=
  let h := fsqrt (fmul (aspectRatio this) (area this)) in
  let size := mkDimensions h (fdiv (area this) h) None None in
  let this1 := set_sizes (sizes this ++ [size]) this in
  if negb (fixed this1) then
    let temp := height size in
    let size' := mkDimensions (width size) temp None None in
    set_sizes (sizes this1 ++ [size']) this1
  else this1.

(** [SNode::SNode(char, float, float, bool)]. *)
Definition SNode_cell (name : ascii) (area aspectRatio : float) (fixed : bool) : SNode :=
  calcWandH (mkSNode false fixed name aspectRatio area [] None None None None).

(** [SNode::SNode(char, float, float)]. *)
Definition SNode_free (name : ascii) (area aspectRatio : float) : SNode :=
  calcWandH (mkSNode false false name aspectRatio area [] None None None None).

(** [SNode::SNode(char)]. *)
Definition SNode_op (name : ascii) : SNode :=
  mkSNode true true name 0 0 [] None None None None.

(* ================================================================== *)
(** ** SNode::addToDimensions *)

(** The [while] loop: [kept] are the elements already passed over and not
    erased, [rest] the elements from [item] to the end. *)
Fixpoint addToDimensions_loop (nDimension : Dimensions)
    (kept rest : list Dimensions) : list Dimensions * bool :=
  match rest with
  | [] => (kept ++ [nDimension], true)
  | item :: rest' =>
      if Dimensions_eqb nDimension item then (kept ++ rest, false)
      else if fleb (height item) (height nDimension)
              && fleb (width item) (width nDimension) then (kept ++ rest, false)
      else if fgeb (height item) (height nDimension)
              && fgeb (width item) (width nDimension)
           then addToDimensions_loop nDimension kept rest'
      else addToDimensions_loop nDimension (kept ++ [item]) rest'
  end.

(** Returns the new [sizes] and the boolean result. *)
Definition addToDimensions (sizes : list Dimensions) (nDimension : Dimensions)
  : list Dimensions * bool :=
  addToDimensions_loop nDimension [] sizes.

(* ================================================================== *)
(** ** SNode::calcMinArea, the body for one operator node *)

(** State of the candidate loops: the node's [sizes], and the sequence of
    arguments of the calls of [addToDimensions] made so far. *)
Record merge_state : Type := mkMergeState {
  ms_sizes : list Dimensions;
  ms_offered : list Dimensions
}.

Definition offer (nSize : Dimensions) (s : merge_state) : merge_state :=
  mkMergeState (fst (addToDimensions (ms_sizes s) nSize)) (ms_offered s ++ [nSize]).

Definition candidateV (i : nat) (di : Dimensions) (j : nat) (dj : Dimensions) : Dimensions :=
  mkDimensions (if fgeb (height di) (height dj) then height di else height dj)
               (fadd (width di) (width dj)) (Some i) (Some j).

Definition candidateH (i : nat) (di : Dimensions) (j : nat) (dj : Dimensions) : Dimensions :=
  mkDimensions (fadd (height di) (height dj))
               (if fgeb (width di) (width dj) then width di else width dj)
               (Some i) (Some j).

(** The inner [for] loop over [left->sizes], from position [j]. *)
Fixpoint inner_loop (cand : nat -> Dimensions -> nat -> Dimensions -> Dimensions)
    (i : nat) (di : Dimensions) (j : nat) (lrest : list Dimensions)
    (s : merge_state) : merge_state :=
  match lrest with
  | [] => s
  | dj :: lrest' => inner_loop cand i di (S j) lrest' (offer (cand i di j dj) s)
  end.

(** The outer [for] loop over [right->sizes], from position [i]. *)
Fixpoint outer_loop (cand : nat -> Dimensions -> nat -> Dimensions -> Dimensions)
    (i : nat) (rrest : list Dimensions) (lsizes : list Dimensions)
    (s : merge_state) : merge_state :=
  match rrest with
  | [] => s
  | di :: rrest' => outer_loop cand (S i) rrest' lsizes (inner_loop cand i di 0 lsizes s)
  end.

(** Lines 141-170: both branches of [if (name == 'V')], run on an empty
    [sizes]. *)
Definition merge_loops (name : ascii) (rsizes lsizes : list Dimensions) : merge_state :=
  if Ascii.eqb name "V"
  then outer_loop candidateV 0 rsizes lsizes (mkMergeState [] [])
  else outer_loop candidateH 0 rsizes lsizes (mkMergeState [] []).

Definition merged_sizes (name : ascii) (rsizes lsizes : list Dimensions) : list Dimensions :=
  ms_sizes (merge_loops name rsizes lsizes).

(** Lines 175-183: the scan for the best area; [pos] is the position of
    [current], the result is the position of [best], [best] and [bestArea]. *)
Fixpoint scan_best (pos : nat) (rest : list Dimensions)
    (bestPos : nat) (best : Dimensions) (bestArea : float) : nat * Dimensions * float :=
  match rest with
  | [] => (bestPos, best, bestArea)
  | current :: rest' =>
      let cArea := fmul (height current) (width current) in
      if fltb cArea bestArea
      then scan_best (S pos) rest' pos current cArea
      else scan_best (S pos) rest' bestPos best bestArea
  end.

(** Lines 172-186 on a node whose [sizes] are already merged. *)
Definition select_best (this : SNode) : option SNode :=
  match sizes this with
  | [] => None
  | b :: _ =>
      let '(_, best, bestArea) :=
        scan_best 0 (sizes this) 0 b (fmul (height b) (width b)) in
      Some (set_best bestArea best (fdiv (height best) (width best)) this)
  end.

(** Position of the point copied into [selected]. *)
Definition best_position (sizes : list Dimensions) : option nat :=
  match sizes with
  | [] => None
  | b :: _ => Some (fst (fst (scan_best 0 sizes 0 b (fmul (height b) (width b)))))
  end.

(** Lines 139-188 for an operator node, given the children's [sizes]. *)
Definition calcMinArea_node (this : SNode) (rsizes lsizes : list Dimensions)
  : option (SNode * float) :=
  let this1 := set_sizes (merged_sizes (name this) rsizes lsizes) this in
  match select_best this1 with
  | None => None
  | Some this2 => Some (this2, area this2)
  end.

(* ================================================================== *)
(** ** The store: the two lists of nodes *)

Record store : Type := mkStore {
  cells : list SNode;
  operators : list SNode
}.

Definition deref (st : store) (p : ptr) : option SNode :=
  match p with
  | CellPtr i => cells st !! i
  | OpPtr i => operators st !! i
  end.

Definition update (f : SNode -> SNode) (p : ptr) (st : store) : store :=
  match p with
  | CellPtr i => mkStore (alter f i (cells st)) (operators st)
  | OpPtr i => mkStore (cells st) (alter f i (operators st))
  end.

Definition push_operator (n : SNode) (st : store) : store :=
  mkStore (cells st) (operators st ++ [n]).

(** Lines 131-138, for one child: [if (child->isOperator) child->calcMinArea();]
    then the rest [k] of the body; [rec] is [calcMinArea] itself. *)
Definition eval_child (rec : store -> ptr -> outcome store float)
    (st : store) (child : option ptr) (k : store -> outcome store float)
  : outcome store float :=
  match child with
  | None => Undefined
  | Some c =>
    match deref st c with
    | None => Undefined
    | Some cn =>
      if isOperator cn then
        match rec st c with
        | Returns st' _ => k st'
        | other => other
        end
      else k st
    end
  end.

(** [SNode::calcMinArea] on the node at [this]. *)
Fixpoint calcMinArea (fuel : nat) (st : store) (this : ptr) : outcome store float :=
  match fuel with
  | O => OutOfFuel
  | S fuel' =>
    match deref st this with
    | None => Undefined
    | Some n =>
      if isOperator n then
        let st0 := update (set_sizes []) this st in   (* sizes.clear() *)
        eval_child (calcMinArea fuel') st0 (right n) (fun st1 =>
        match deref st1 this with
        | None => Undefined
        | Some n1 =>
          eval_child (calcMinArea fuel') st1 (left n1) (fun st2 =>
          match deref st2 this with
          | None => Undefined
          | Some n2 =>
            match right n2, left n2 with
            | Some r, Some l =>
              match deref st2 r, deref st2 l with
              | Some rn, Some ln =>
                match calcMinArea_node n2 (sizes rn) (sizes ln) with
                | None => Undefined
                | Some (n3, a) => Returns (update (fun _ => n3) this st2) a
                end
              | _, _ => Undefined
              end
            | _, _ => Undefined
            end
          end)
        end)
      else Returns st (area n)
    end
  end.

(** [operator<<] on the node at [rhs]; the state is the text written. *)
Fixpoint print (fuel : nat) (st : store) (rhs : ptr) (out : list ascii)
  : outcome (list ascii) unit :=
  match fuel with
  | O => OutOfFuel
  | S fuel' =>
    match deref st rhs with
    | None => Undefined
    | Some n =>
      if isOperator n then
        match left n, right n with
        | Some l, Some r =>
          match print fuel' st l out with
          | Returns out1 _ =>
            match print fuel' st r out1 with
            | Returns out2 _ => Returns (out2 ++ [name n]) tt
            | other => other
            end
          | other => other
          end
        | _, _ => Undefined
        end
      else Returns (out ++ [name n]) tt
    end
  end.

(* ================================================================== *)
(** ** isValidNPE *)

Definition is_operator_char (c : ascii) : bool :=
  Ascii.eqb c "V" || Ascii.eqb c "H".

(** The [for] loop; [rest] is [npe] from position [i] on. *)
Fixpoint isValidNPE_loop (rest : list ascii) (operands operators : Z) : bool :=
  match rest with
  | [] => (operators =? int_sub operands 1)%Z
  | c :: rest' =>
      let ballot (operands' operators' : Z) :=
        if (operands' <=? operators')%Z then false
        else isValidNPE_loop rest' operands' operators' in
      if is_operator_char c then
        if match rest' with
           | c' :: _ => Ascii.eqb c c'
           | [] => false
           end
        then false
        else ballot operands (int_add operators 1)
      else
        if existsb (Ascii.eqb c) rest' then false
        else ballot (int_add operands 1) operators
  end.

Definition isValidNPE (npe : string) : bool :=
  isValidNPE_loop (list_ascii_of_string npe) 0 0.

(* ================================================================== *)
(** ** generateTree *)

(** The search loop of lines 195-202: the last cell with the name wins. *)
Fixpoint find_cell_loop (rest : list SNode) (i : nat) (c : ascii)
    (child : option ptr) : option ptr :=
  match rest with
  | [] => child
  | x :: rest' =>
      find_cell_loop rest' (S i) c
        (if Ascii.eqb (name x) c then Some (CellPtr i) else child)
  end.

Definition find_cell (cells : list SNode) (c : ascii) : option ptr :=
  find_cell_loop cells 0 c None.

(** The [while] loop of lines 209-212. *)
Fixpoint climb (fuel : nat) (st : store) (current : ptr) : outcome store ptr :=
  match fuel with
  | O => OutOfFuel
  | S fuel' =>
    match deref st current with
    | None => Undefined
    | Some n =>
      if negb (ptr_eqb current (OpPtr 0)) && bool_decide (left n <> None) then
        match parent n with
        | None => Undefined
        | Some p => climb fuel' st p
        end
      else Returns st current
    end
  end.

(** The [while] loop of lines 175-225 over the remaining characters, read
    from the back of the string. *)
Fixpoint generateTree_loop (chars : list ascii) (st : store) (current : ptr)
  : outcome store unit :=
  match chars with
  | [] => Returns st tt
  | c :: chars' =>
    if is_operator_char c then
      let back := OpPtr (length (operators st)) in
      let st1 := push_operator (SNode_op c) st in
      match deref st1 current with
      | None => Undefined
      | Some cur =>
        let st2 :=
          if bool_decide (right cur <> None)
          then update (set_parent (Some current)) back
                 (update (set_left (Some back)) current st1)
          else update (set_parent (Some current)) back
                 (update (set_right (Some back)) current st1) in
        generateTree_loop chars' st2 back
      end
    else
      match find_cell (cells st) c with
      | Some child =>
        match deref st current with
        | None => Undefined
        | Some cur =>
          if bool_decide (right cur <> None) then
            let st1 := update (set_left (Some child)) current st in
            match climb (length (operators st1)) st1 current with
            | Returns _ current' => generateTree_loop chars' st1 current'
            | Throws s m => Throws s m
            | Undefined => Undefined
            | OutOfFuel => OutOfFuel
            end
          else generateTree_loop chars' (update (set_right (Some child)) current st) current
        end
      | None => Throws st "Cell data not valid!"
      end
  end.

(** [generateTree]; the state holds [cells] and [operators], the value is
    the pointer returned. *)
Definition generateTree (npe : string) (cells operators : list SNode)
  : outcome store ptr :=
  let st := mkStore cells [] in                     (* operators.clear() *)
  if negb (isValidNPE npe) then Throws st "Invalid NPE!"
  else
    match rev (list_ascii_of_string npe) with
    | [] => Undefined
    | c :: chars =>
      let st1 := push_operator (SNode_op c) st in   (* the root, from *rbegin() *)
      match generateTree_loop chars st1 (OpPtr 0) with
      | Returns st2 _ => Returns st2 (OpPtr 0)      (* &operators.front() *)
      | Throws s m => Throws s m
      | Undefined => Undefined
      | OutOfFuel => OutOfFuel
      end
    end.

(** [cost]. *)
Definition cost (fuel : nat) (npe : string) (cells : list SNode) : outcome store float :=
  match generateTree npe cells [] with
  | Returns st root => calcMinArea fuel st root
  | Throws s m => Throws s m
  | Undefined => Undefined
  | OutOfFuel => OutOfFuel
  end.

(* ================================================================== *)
(** ** Vocabulary of the shape-curve properties *)

(** [p] weakly dominates [q]. *)
Definition dominates (p q : Dimensions) : Prop :=
  width p <= width q /\ height p <= height q.

Definition dominatesb (p q : Dimensions) : bool :=
  fleb (width p) (width q) && fleb (height p) (height q).

(** Equality of points, as [operator==] sees it. *)
Definition same_point (p q : Dimensions) : Prop :=
  height p = height q /\ width p = width q.

(** The invariant of a curve: no element of the list weakly dominates an
    element at another position. *)
Definition no_domination (l : list Dimensions) : Prop :=
  forall i j p q, i <> j -> l !! i = Some p -> l !! j = Some q -> ~ dominates p q.

Definition incomparable (p q : Dimensions) : Prop :=
  ~ dominates p q /\ ~ dominates q p.

(** The candidate is refused. *)
Definition refused (sizes : list Dimensions) (n : Dimensions) : Prop :=
  exists p, p ∈ sizes /\ (same_point p n \/ dominates p n).

(** The (width, height) pairs of a curve. *)
Definition has_point (l : list Dimensions) (w h : float) : Prop :=
  exists p, p ∈ l /\ width p = w /\ height p = h.

(** Offering a sequence of candidates, in order, to [addToDimensions]. *)
Definition offer_all (cands : list Dimensions) (sizes : list Dimensions) : list Dimensions :=
  fold_left (fun s c => fst (addToDimensions s c)) cands sizes.

(** The candidates of one pass of the inner loop, and of the outer loop. *)
Definition row (cand : nat -> Dimensions -> nat -> Dimensions -> Dimensions)
    (i : nat) (di : Dimensions) (j0 : nat) (ls : list Dimensions) : list Dimensions :=
  imap (fun k dj => cand i di (j0 + k)%nat dj) ls.

Definition rows (cand : nat -> Dimensions -> nat -> Dimensions -> Dimensions)
    (i0 : nat) (rs ls : list Dimensions) : list (list Dimensions) :=
  imap (fun k di => row cand (i0 + k)%nat di 0 ls) rs.

(* ================================================================== *)
(** ** Vocabulary of the validity of an expression *)

Definition count_operands (s : list ascii) : nat :=
  length (List.filter (fun c => negb (is_operator_char c)) s).

Definition count_operators (s : list ascii) : nat :=
  length (List.filter is_operator_char s).

(** Every character that is not an operator occurs exactly once. *)
Definition operands_unique (s : list ascii) : Prop :=
  forall c, is_operator_char c = false -> c ∈ s -> count_occ ascii_dec s c = 1%nat.

(** No operator is followed by the same operator. *)
Definition no_repeated_operator (s : list ascii) : Prop :=
  forall i c, is_operator_char c = true -> s !! i = Some c -> s !! (S i) <> Some c.

(** After every character, more operands than operators have been read;
    [a] and [b] are the numbers of operands and operators read before [s]. *)
Definition balloting_from (a b : nat) (s : list ascii) : Prop :=
  forall k, (0 < k <= length s)%nat ->
    (b + count_operators (take k s) < a + count_operands (take k s))%nat.

Definition balloting (s : list ascii) : Prop := balloting_from 0 0 s.

(** One operator less than operands. *)
Definition count_from (a b : nat) (s : list ascii) : Prop :=
  (Z.of_nat (b + count_operators s) = Z.of_nat (a + count_operands s) - 1)%Z.

Definition operators_one_less (s : list ascii) : Prop := count_from 0 0 s.

Definition valid_NPE (s : list ascii) : Prop :=
  operands_unique s /\ no_repeated_operator s /\ balloting s /\ operators_one_less s.

(* ================================================================== *)
(** ** Slicing trees as values *)

(** A leaf holds the operand character and the cell it points to; an
    operator node holds its character, its [left] subtree and its [right]
    subtree, in this order. *)
Inductive tree : Type :=
| Leaf (c : ascii) (cell : ptr)
| Node (op : ascii) (l r : tree).

(** The text [operator<<] writes for a tree: left, right, operator. *)
Fixpoint postfix (t : tree) : list ascii :=
  match t with
  | Leaf c _ => [c]
  | Node op l r => postfix l ++ postfix r ++ [op]
  end.

(** The tree that [calcMinArea] and [operator<<] walk from a pointer. *)
Fixpoint to_tree (fuel : nat) (st : store) (p : ptr) : option tree :=
  match fuel with
  | O => None
  | S fuel' =>
    match deref st p with
    | None => None
    | Some n =>
      if isOperator n then
        match left n, right n with
        | Some l, Some r =>
          match to_tree fuel' st l, to_tree fuel' st r with
          | Some tl, Some tr => Some (Node (name n) tl tr)
          | _, _ => None
          end
        | _, _ => None
        end
      else Some (Leaf (name n) p)
    end
  end.

(** Stack-based construction from a postfix string.  An operand pushes the
    leaf of the cell found for it; an operator pops two trees and pushes the
    operator node over them.  With [recent_is_left] the tree popped first
    (pushed last) becomes the left child and the other one the right child;
    without it they are the other way round. *)
Fixpoint build_stack (recent_is_left : bool) (lookup : ascii -> option ptr)
    (npe : list ascii) (stack : list tree) : option (list tree) :=
  match npe with
  | [] => Some stack
  | c :: npe' =>
      if is_operator_char c then
        match stack with
        | recent :: earlier :: stack' =>
            build_stack recent_is_left lookup npe'
              ((if recent_is_left then Node c recent earlier
                else Node c earlier recent) :: stack')
        | _ => None
        end
      else
        match lookup c with
        | Some p => build_stack recent_is_left lookup npe' (Leaf c p :: stack)
        | None => None
        end
  end.

Definition build_postfix (recent_is_left : bool) (npe : string) (cells : list SNode)
  : option tree :=
  if isValidNPE npe then
    match build_stack recent_is_left (find_cell cells) (list_ascii_of_string npe) [] with
    | Some [t] => Some t
    | _ => None
    end
  else None.

(** The construction in the words of the specification, section 4.4: "pop
    two nodes from the stack - the most recently pushed becomes the left
    child, the one pushed before it becomes the right child"; it fails on an
    invalid expression, on an operand without a cell, and when the stack
    does not end with exactly one node. *)
Definition build_spec (npe : string) (cells : list SNode) : option tree :=
  build_postfix true npe cells.

(** The same construction with the children exchanged: the tree pushed
    first becomes the left child, the most recently pushed the right one. *)
Definition build_earlier_left (npe : string) (cells : list SNode) : option tree :=
  build_postfix false npe cells.

(** The tree with the two children of every node exchanged. *)
Fixpoint mirror (t : tree) : tree :=
  match t with
  | Leaf c p => Leaf c p
  | Node op l r => Node op (mirror r) (mirror l)
  end.

(** The cells were made by the constructors of operands. *)
Definition cells_are_operands (cells : list SNode) : Prop :=
  Forall (fun n => isOperator n = false) cells.

(** Every operand of the expression names a cell. *)
Definition name_complete (cells : list SNode) (npe : string) : Prop :=
  forall c, c ∈ list_ascii_of_string npe -> is_operator_char c = false ->
    exists n, n ∈ cells /\ name n = c.

(* ================================================================== *)
(** ** Definitions used in the proofs about generateTree *)

(** The characters of a tree in the order [generateTree] reads them. *)
Fixpoint prefix_rev (t : tree) : list ascii :=
  match t with
  | Leaf c _ => [c]
  | Node op l r => op :: prefix_rev r ++ prefix_rev l
  end.

Fixpoint tree_height (t : tree) : nat :=
  match t with
  | Leaf _ _ => 1
  | Node _ l r => S (Nat.max (tree_height l) (tree_height r))
  end.

(** Operators at the nodes, operands at the leaves. *)
Fixpoint wf_tree (t : tree) : Prop :=
  match t with
  | Leaf c _ => is_operator_char c = false
  | Node op l r => is_operator_char op = true /\ wf_tree l /\ wf_tree r
  end.

(** The leaves point to the cells the search finds. *)
Fixpoint all_found (lookup : ascii -> option ptr) (t : tree) : Prop :=
  match t with
  | Leaf c p => lookup c = Some p
  | Node _ l r => all_found lookup l /\ all_found lookup r
  end.

(** A search that never fails: an operand without a cell gets a pointer
    that is not used. *)
Definition find_cell_or_any (cells : list SNode) (c : ascii) : option ptr :=
  Some (default (CellPtr 0) (find_cell cells c)).

(** The store holds the complete tree [t] at [p], its operator nodes at
    positions [lo] or later. *)
Fixpoint rep (lo : nat) (st : store) (p : ptr) (t : tree) : Prop :=
  match t with
  | Leaf c q =>
      p = q /\ exists i n, p = CellPtr i /\ cells st !! i = Some n /\
        isOperator n = false /\ name n = c
  | Node op l r =>
      exists k n pl pr, p = OpPtr k /\ (lo <= k)%nat /\ operators st !! k = Some n /\
        isOperator n = true /\ name n = op /\
        left n = Some pl /\ right n = Some pr /\
        rep lo st pl l /\ rep lo st pr r
  end.

(** Every operator node but the first has its parent before it. *)
Definition wf_parents (st : store) : Prop :=
  forall k n, operators st !! k = Some n -> k <> 0%nat ->
    exists j, parent n = Some (OpPtr j) /\ (j < k)%nat.

(** What the loop does after it has filled the left slot of [current]. *)
Definition after_left (chars : list ascii) (st : store) (current : ptr)
  : outcome store unit :=
  match climb (length (operators st)) st current with
  | Returns _ current' => generateTree_loop chars st current'
  | Throws s m => Throws s m
  | Undefined => Undefined
  | OutOfFuel => OutOfFuel
  end.

(** The text of a stack of trees, bottom first. *)
Definition stack_text (stack : list tree) : list ascii :=
  concat (map postfix (rev stack)).


(** The store after the subtree [t] was built at [p] and stored by
    [setter] into the node at position [k]. *)
Definition built (setter : option ptr -> SNode -> SNode) (st : store) (k : nat)
    (p : ptr) (t : tree) (st' : store) : Prop :=
  cells st' = cells st /\
  (exists new, operators st' = alter (setter (Some p)) k (operators st) ++ new) /\
  rep (length (operators st)) st' p t /\
  wf_parents st'.

(** Some leaf has an operand for which the search finds no cell. *)
Fixpoint some_missing (lookup : ascii -> option ptr) (t : tree) : Prop :=
  match t with
  | Leaf c _ => lookup c = None
  | Node _ l r => some_missing lookup l \/ some_missing lookup r
  end.

(** Every leaf points to the cell found for its operand, if one is found. *)
Fixpoint resolved (lookup : ascii -> option ptr) (t : tree) : Prop :=
  match t with
  | Leaf c p => lookup c = Some p \/ lookup c = None
  | Node _ l r => resolved lookup l /\ resolved lookup r
  end.

(* ================================================================== *)
(** ** Definitions used in the proofs about calcMinArea on a tree *)

(** The two stores hold the same cells and the same links. *)
Definition same_shape (st st' : store) : Prop :=
  cells st' = cells st /\
  forall k n, operators st !! k = Some n ->
    exists n', operators st' !! k = Some n' /\
      isOperator n' = isOperator n /\ name n' = name n /\
      left n' = left n /\ right n' = right n.

Definition cells_have_sizes (cells : list SNode) : Prop :=
  Forall (fun n => sizes n <> []) cells.

(* ================================================================== *)
(** ** Vocabulary of the further properties *)

(** The (width, height) pair that a node named [name] makes of a point [r]
    of its right child and a point [l] of its left child. *)
Definition combine (name : ascii) (r l : Dimensions) : float * float :=
  if Ascii.eqb name "V"
  then (fadd (width r) (width l), Rmax (height r) (height l))
  else (Rmax (width r) (width l), fadd (height r) (height l)).

(** The curve of a tree as a function of the cells: the list of a cell at
    a leaf, the merge of the children's curves at a node. *)
Fixpoint curve_of_tree (cs : list SNode) (t : tree) : list Dimensions :=
  match t with
  | Leaf _ (CellPtr i) =>
      match cs !! i with
      | Some n => sizes n
      | None => []
      end
  | Leaf _ (OpPtr _) => []
  | Node op l r => merged_sizes op (curve_of_tree cs r) (curve_of_tree cs l)
  end.

(** The area the scan of [calcMinArea] finds on a list. *)
Definition min_area (l : list Dimensions) : float :=
  match l with
  | [] => 0
  | b :: _ => snd (scan_best 0 l 0 b (fmul (height b) (width b)))
  end.

(** The value of [calcMinArea] on a tree, as a function of the cells. *)
Definition tree_cost (cs : list SNode) (t : tree) : float :=
  match t with
  | Leaf _ (CellPtr i) =>
      match cs !! i with
      | Some n => area n
      | None => 0
      end
  | Leaf _ (OpPtr _) => 0
  | Node _ _ _ => min_area (curve_of_tree cs t)
  end.

(** The operand characters of a tree, in the order of its text. *)
Fixpoint leaf_names (t : tree) : list ascii :=
  match t with
  | Leaf c _ => [c]
  | Node _ l r => leaf_names l ++ leaf_names r
  end.

(** No node has a right child with its own operator. *)
Fixpoint normalized (t : tree) : Prop :=
  match t with
  | Leaf _ _ => True
  | Node op l r =>
      normalized l /\ normalized r /\
      match r with
      | Node op' _ _ => op' <> op
      | Leaf _ _ => True
      end
  end.

(** The operator nodes of a fresh tree: no curve, no area yet. *)
Definition fresh_operator (n : SNode) : Prop :=
  isOperator n = true /\ sizes n = [] /\ area n = 0 /\ selected n = None.

(** The parents recorded in [operators] are operator nodes. *)
Definition parents_are_operators (st : store) : Prop :=
  forall k n q, operators st !! k = Some n -> parent n = Some q -> exists j, q = OpPtr j.

(** The names of the nodes [generateTree] makes for the characters it
    reads, last character of the expression first: one for the first
    character read, whatever it is, and one for every operator after it. *)
Definition operator_names (chars : list ascii) : list ascii :=
  match chars with
  | [] => []
  | c :: rest => c :: List.filter is_operator_char rest
  end.

(** A node that held the curve of its tree holds it afterwards. *)
Definition keeps_curve (cs : list SNode) (lo : nat) (st st' : store) : Prop :=
  forall q n n' t, deref st q = Some n -> rep lo st q t ->
    sizes n = curve_of_tree cs t -> deref st' q = Some n' ->
    sizes n' = curve_of_tree cs t.

(* ================================================================== *)
(** ** main *)

Definition initialVerticalNPE : string := "12V3V4V5V6V7V8V9VaVbVcVdVeVfVgViVjVkVlV".
Definition initialHorizontalNPE : string := "12H3H4H5H6H7H8H9HaHbHcHdHeHfHgHiHjHkHlH".
Definition initialOtherNPE : string := "213546H7VHVa8V9HcVHgHibdHkVHfeHVlHVjHVH".

(** The three calls of [cost] in [main], on the cells that [getCells] has
    read; the value holds the three costs in the order they are written.
    [cost] gets the cells by reference, so each call works on the cells the
    call before it left. *)
Definition main_costs (fuel : nat) (cs : list SNode) : outcome store (float * float * float) :=
  match cost fuel initialVerticalNPE cs with
  | Returns st1 a1 =>
    match cost fuel initialHorizontalNPE (cells st1) with
    | Returns st2 a2 =>
      match cost fuel initialOtherNPE (cells st2) with
      | Returns st3 a3 => Returns st3 (a1, a2, a3)
      | Throws s m => Throws s m
      | Undefined => Undefined
      | OutOfFuel => OutOfFuel
      end
    | Throws s m => Throws s m
    | Undefined => Undefined
    | OutOfFuel => OutOfFuel
    end
  | Throws s m => Throws s m
  | Undefined => Undefined
  | OutOfFuel => OutOfFuel
  end.

(** Cells as [getCells] pushes them: each one made by the constructor of
    three arguments. *)
Definition read_cells (cs : list SNode) : Prop :=
  Forall (fun n => exists nm a ar, n = SNode_free nm a ar) cs.

(** The operands of the three expressions of [main]. *)
Definition main_operands : list ascii := list_ascii_of_string "123456789abcdefgijkl".

Definition names_all (cs : list SNode) (operands : list ascii) : Prop :=
  forall c, c ∈ operands -> exists n, n ∈ cs /\ name n = c.

(** The invariant of a curve read as a set of (width, height) pairs: no
    point weakly dominates another, distinct point. *)
Definition antichain (l : list Dimensions) : Prop :=
  forall p q, p ∈ l -> q ∈ l -> dominates p q -> same_point p q.

(** Every node of the tree [t] held at [p] holds the curve of its
    subtree. *)
Fixpoint stored (cs : list SNode) (st : store) (p : ptr) (t : tree) : Prop :=
  exists n, deref st p = Some n /\ sizes n = curve_of_tree cs t /\
    match t with
    | Leaf _ _ => True
    | Node _ l r =>
        exists pl pr, left n = Some pl /\ right n = Some pr /\
          stored cs st pl l /\ stored cs st pr r
    end.

End Model.

(* ================================================================== *)
(** ** Comparisons *)

Lemma fleb_true x y : fleb x y = true <-> x <= y.
Proof. unfold fleb. destruct (Rle_dec x y); split; intros; try done; lra. Qed.

Lemma fleb_false x y : fleb x y = false <-> y < x.
Proof. unfold fleb. destruct (Rle_dec x y); split; intros; try done; lra. Qed.

Lemma fgeb_true x y : fgeb x y = true <-> y <= x.
Proof. unfold fgeb. destruct (Rge_dec x y); split; intros; try done; lra. Qed.

Lemma fgeb_false x y : fgeb x y = false <-> x < y.
Proof. unfold fgeb. destruct (Rge_dec x y); split; intros; try done; lra. Qed.

Lemma fltb_true x y : fltb x y = true <-> x < y.
Proof. unfold fltb. destruct (Rlt_dec x y); split; intros; try done; lra. Qed.

Lemma fltb_false x y : fltb x y = false <-> y <= x.
Proof. unfold fltb. destruct (Rlt_dec x y); split; intros; try done; lra. Qed.

Lemma feqb_true x y : feqb x y = true <-> x = y.
Proof. unfold feqb. destruct (Req_dec_T x y); split; intros; done. Qed.

Lemma fgeb_max x y : (if fgeb x y then x else y) = Rmax x y.
Proof.
  destruct (fgeb x y) eqn:E.
  - apply fgeb_true in E. symmetry. apply Rmax_left. lra.
  - apply fgeb_false in E. symmetry. apply Rmax_right. lra.
Qed.

Lemma dominatesb_true p q : dominatesb p q = true <-> dominates p q.
Proof.
  unfold dominatesb, dominates.
  rewrite andb_true_iff, !fleb_true. tauto.
Qed.

Lemma dominatesb_false p q : dominatesb p q = false <-> ~ dominates p q.
Proof.
  rewrite <- dominatesb_true. destruct (dominatesb p q); split; intros; done.
Qed.

Lemma Dimensions_eqb_true p q : Dimensions_eqb p q = true <-> same_point p q.
Proof.
  unfold Dimensions_eqb, same_point. rewrite andb_true_iff, !feqb_true. tauto.
Qed.

Lemma dominates_refl p : dominates p p.
Proof. unfold dominates. lra. Qed.

Lemma dominates_trans p q r : dominates p q -> dominates q r -> dominates p r.
Proof. unfold dominates. lra. Qed.

Lemma dominates_antisym p q : dominates p q -> dominates q p -> same_point p q.
Proof. unfold dominates, same_point. lra. Qed.

Lemma same_point_dominates p q : same_point p q -> dominates p q.
Proof. unfold dominates, same_point. lra. Qed.

Lemma same_point_sym p q : same_point p q -> same_point q p.
Proof. unfold same_point. intuition congruence. Qed.

Lemma refused_iff sizes n : refused sizes n <-> exists p, p ∈ sizes /\ dominates p n.
Proof.
  split; intros (p & Hp & H); exists p; split; auto.
  destruct H; auto using same_point_dominates.
Qed.

(* ================================================================== *)
(** ** The invariant, structurally *)

Lemma no_domination_nil : no_domination [].
Proof. intros i j p q _ H. rewrite lookup_nil in H. done. Qed.

Lemma no_domination_cons a l :
  no_domination (a :: l) <-> Forall (incomparable a) l /\ no_domination l.
Proof.
  split.
  - intros H. split.
    + apply Forall_lookup. intros k q Hk. split.
      * apply (H 0%nat (S k)); auto.
      * apply (H (S k) 0%nat); auto.
    + intros i j p q Hij Hi Hj. apply (H (S i) (S j)); auto.
  - intros [Ha Hl] i j p q Hij Hi Hj.
    rewrite Forall_lookup in Ha.
    destruct i as [|i], j as [|j]; simpl in *; simplify_eq.
    + apply (Ha _ _ Hj).
    + apply (Ha _ _ Hi).
    + apply (Hl i j); auto.
Qed.

Lemma no_domination_snoc l a :
  no_domination (l ++ [a]) <-> Forall (incomparable a) l /\ no_domination l.
Proof.
  induction l as [|b l IH]; simpl.
  - rewrite no_domination_cons. split; intros; split; auto using no_domination_nil.
  - rewrite !no_domination_cons, IH, Forall_app, !Forall_cons, Forall_nil.
    unfold incomparable. tauto.
Qed.

Lemma Forall_list_filter {A} (P : A -> Prop) (f : A -> bool) l :
  Forall P l -> Forall P (List.filter f l).
Proof.
  induction 1 as [|a l Ha Hl IH]; simpl; auto.
  destruct (f a); auto.
Qed.

Lemma no_domination_filter (f : Dimensions -> bool) l :
  no_domination l -> no_domination (List.filter f l).
Proof.
  induction l as [|a l IH]; simpl; auto.
  rewrite no_domination_cons. intros [Ha Hl].
  destruct (f a); auto.
  apply no_domination_cons. split; auto using Forall_list_filter.
Qed.

Lemma no_domination_elem l p q :
  no_domination l -> p ∈ l -> q ∈ l -> dominates p q -> p = q.
Proof.
  intros H Hp Hq Hd.
  apply list_elem_of_lookup in Hp as [i Hi].
  apply list_elem_of_lookup in Hq as [j Hj].
  destruct (decide (i = j)) as [->|Hij]; [congruence|].
  exfalso. eapply H; eauto.
Qed.


(* ================================================================== *)
(** ** addToDimensions *)

Lemma fgeb_fleb x y : fgeb x y = fleb y x.
Proof.
  destruct (fleb y x) eqn:E.
  - apply fgeb_true, fleb_true, E.
  - apply fgeb_false, fleb_false, E.
Qed.

Lemma refuse_test item n :
  fleb (height item) (height n) && fleb (width item) (width n) = dominatesb item n.
Proof. unfold dominatesb. apply andb_comm. Qed.

Lemma erase_test item n :
  fgeb (height item) (height n) && fgeb (width item) (width n) = dominatesb n item.
Proof. unfold dominatesb. rewrite !fgeb_fleb. apply andb_comm. Qed.

Lemma addToDimensions_loop_eq n kept item rest :
  addToDimensions_loop n kept (item :: rest) =
    if Dimensions_eqb n item then (kept ++ item :: rest, false)
    else if dominatesb item n then (kept ++ item :: rest, false)
    else if dominatesb n item then addToDimensions_loop n kept rest
    else addToDimensions_loop n (kept ++ [item]) rest.
Proof. simpl. rewrite refuse_test, erase_test. reflexivity. Qed.

(** A refusal happens at an element that is still in the list, and under
    the invariant nothing was erased before it. *)
Lemma addToDimensions_loop_refuse rest : forall kept n,
  no_domination rest ->
  (exists p, p ∈ rest /\ dominates p n) ->
  addToDimensions_loop n kept rest = (kept ++ rest, false).
Proof.
  induction rest as [|item rest IH]; intros kept n Hinv (p & Hp & Hd).
  - inversion Hp.
  - rewrite addToDimensions_loop_eq.
    destruct (Dimensions_eqb n item) eqn:E1; [reflexivity|].
    destruct (dominatesb item n) eqn:E2; [reflexivity|].
    apply dominatesb_false in E2.
    assert (Hp' : p ∈ rest).
    { apply elem_of_cons in Hp as [->|]; [contradiction|assumption]. }
    apply no_domination_cons in Hinv as [Hitem Hrest].
    destruct (dominatesb n item) eqn:E3.
    + apply dominatesb_true in E3.
      rewrite Forall_forall in Hitem. destruct (Hitem p Hp') as [_ Hn].
      exfalso. apply Hn. eapply dominates_trans; eauto.
    + rewrite IH by eauto. rewrite <- app_assoc. reflexivity.
Qed.

Lemma addToDimensions_loop_accept rest : forall kept n,
  (forall p, p ∈ rest -> ~ dominates p n) ->
  addToDimensions_loop n kept rest =
    (kept ++ List.filter (fun p => negb (dominatesb n p)) rest ++ [n], true).
Proof.
  induction rest as [|item rest IH]; intros kept n Hno.
  - reflexivity.
  - rewrite addToDimensions_loop_eq.
    assert (Hitem : ~ dominates item n) by (apply Hno; left).
    destruct (Dimensions_eqb n item) eqn:E1.
    { apply Dimensions_eqb_true, same_point_sym, same_point_dominates in E1. contradiction. }
    apply dominatesb_false in Hitem. rewrite Hitem.
    assert (Hrest : forall p, p ∈ rest -> ~ dominates p n)
      by (intros; apply Hno; right; assumption).
    simpl. destruct (dominatesb n item); simpl.
    + apply IH, Hrest.
    + rewrite IH by assumption. rewrite <- app_assoc. reflexivity.
Qed.

(** Whatever the list, it is not empty after a call. *)
Lemma addToDimensions_loop_nonempty rest : forall kept n,
  fst (addToDimensions_loop n kept rest) <> [].
Proof.
  induction rest as [|item rest IH]; intros kept n.
  - simpl. destruct kept; discriminate.
  - rewrite addToDimensions_loop_eq.
    destruct (Dimensions_eqb n item); [simpl; destruct kept; discriminate|].
    destruct (dominatesb item n); [simpl; destruct kept; discriminate|].
    destruct (dominatesb n item); apply IH.
Qed.

Lemma refused_dec sizes n : refused sizes n \/ ~ refused sizes n.
Proof.
  rewrite refused_iff.
  induction sizes as [|a l IH].
  - right. intros (p & Hp & _). inversion Hp.
  - destruct (dominatesb a n) eqn:E.
    + left. exists a. split; [left|]. apply dominatesb_true, E.
    + apply dominatesb_false in E. destruct IH as [(p & Hp & Hd)|IH].
      * left. exists p. split; [right|]; assumption.
      * right. intros (p & Hp & Hd). apply elem_of_cons in Hp as [->|Hp]; eauto.
Qed.

Lemma addToDimensions_refused sizes n :
  no_domination sizes -> refused sizes n -> addToDimensions sizes n = (sizes, false).
Proof.
  intros Hinv Href. apply refused_iff in Href.
  unfold addToDimensions. rewrite addToDimensions_loop_refuse; auto.
Qed.

Lemma addToDimensions_accepted sizes n :
  ~ refused sizes n ->
  addToDimensions sizes n =
    (List.filter (fun p => negb (dominatesb n p)) sizes ++ [n], true).
Proof.
  intros Href. unfold addToDimensions.
  rewrite addToDimensions_loop_accept; auto.
  intros p Hp Hd. apply Href, refused_iff. eauto.
Qed.

Lemma addToDimensions_invariant sizes n :
  no_domination sizes -> no_domination (fst (addToDimensions sizes n)).
Proof.
  intros Hinv. destruct (refused_dec sizes n) as [Href|Href].
  - rewrite addToDimensions_refused; auto.
  - rewrite addToDimensions_accepted by assumption. simpl.
    apply no_domination_snoc. split; [|apply no_domination_filter, Hinv].
    apply Forall_forall. intros p Hp.
    apply list_elem_of_In, filter_In in Hp as [Hp Hf].
    apply negb_true_iff, dominatesb_false in Hf.
    split; [assumption|].
    intros Hd. apply Href, refused_iff. exists p. split; [apply list_elem_of_In|]; assumption.
Qed.

(** C1. On a curve without domination, [addToDimensions] returns false and
    leaves the list as it is when some element equals the candidate or
    weakly dominates it; otherwise it returns true and the new list is the
    old one without the elements the candidate weakly dominates, the order
    of the others kept, followed by the candidate.  In both cases the new
    list is again without domination. *)
Theorem addToDimensions_spec (sizes : list Dimensions) (n : Dimensions) :
  no_domination sizes ->
  (refused sizes n -> addToDimensions sizes n = (sizes, false)) /\
  (~ refused sizes n ->
     addToDimensions sizes n =
       (List.filter (fun p => negb (dominatesb n p)) sizes ++ [n], true)) /\
  no_domination (fst (addToDimensions sizes n)).
Proof.
  intros Hinv. repeat split.
  - apply addToDimensions_refused, Hinv.
  - apply addToDimensions_accepted.
  - apply addToDimensions_invariant, Hinv.
Qed.


(* ================================================================== *)
(** ** The candidate loops of calcMinArea *)

Section Loops.
Variable cand : nat -> Dimensions -> nat -> Dimensions -> Dimensions.

Lemma row_cons i di j dj ls :
  row cand i di j (dj :: ls) = cand i di j dj :: row cand i di (S j) ls.
Proof.
  unfold row. simpl. rewrite Nat.add_0_r. f_equal.
  apply imap_ext. intros k x _. simpl. f_equal. lia.
Qed.

Lemma rows_cons i di rs ls :
  rows cand i (di :: rs) ls = row cand i di 0 ls :: rows cand (S i) rs ls.
Proof.
  unfold rows. simpl. rewrite Nat.add_0_r. f_equal.
  apply imap_ext. intros k x _. simpl. f_equal. lia.
Qed.

Lemma offer_all_app cs1 cs2 s :
  offer_all (cs1 ++ cs2) s = offer_all cs2 (offer_all cs1 s).
Proof. apply fold_left_app. Qed.

Lemma inner_loop_eq ls : forall i di j s,
  inner_loop cand i di j ls s =
    mkMergeState (offer_all (row cand i di j ls) (ms_sizes s))
                 (ms_offered s ++ row cand i di j ls).
Proof.
  induction ls as [|dj ls IH]; intros i di j s.
  - simpl. rewrite app_nil_r. destruct s; reflexivity.
  - rewrite row_cons. cbn [inner_loop]. rewrite IH. unfold offer.
    cbn [ms_sizes ms_offered]. rewrite <- app_assoc. reflexivity.
Qed.

Lemma outer_loop_eq rs : forall i ls s,
  outer_loop cand i rs ls s =
    mkMergeState (offer_all (concat (rows cand i rs ls)) (ms_sizes s))
                 (ms_offered s ++ concat (rows cand i rs ls)).
Proof.
  induction rs as [|di rs IH]; intros i ls s.
  - simpl. rewrite app_nil_r. destruct s; reflexivity.
  - rewrite rows_cons. cbn [outer_loop concat]. rewrite IH, inner_loop_eq.
    cbn [ms_sizes ms_offered]. rewrite offer_all_app, <- app_assoc. reflexivity.
Qed.

Lemma row_length i di j ls : length (row cand i di j ls) = length ls.
Proof. apply length_imap. Qed.

Lemma row_lookup i di j0 ls j dj :
  ls !! j = Some dj -> row cand i di j0 ls !! j = Some (cand i di (j0 + j)%nat dj).
Proof. intros H. unfold row. rewrite list_lookup_imap, H. reflexivity. Qed.

Lemma rows_concat_length rs : forall i ls,
  length (concat (rows cand i rs ls)) = (length rs * length ls)%nat.
Proof.
  induction rs as [|di rs IH]; intros i ls; [reflexivity|].
  rewrite rows_cons. simpl. rewrite length_app, row_length, IH. reflexivity.
Qed.

Lemma rows_concat_lookup rs : forall i0 ls i j di dj,
  rs !! i = Some di -> ls !! j = Some dj ->
  concat (rows cand i0 rs ls) !! (i * length ls + j)%nat = Some (cand (i0 + i)%nat di j dj).
Proof.
  induction rs as [|d rs IH]; intros i0 ls i j di dj Hi Hj; [done|].
  rewrite rows_cons. simpl. destruct i as [|i]; simpl in *.
  - simplify_eq. rewrite lookup_app_l.
    + rewrite Nat.add_0_r. apply (row_lookup i0 di 0 ls j dj Hj).
    + rewrite row_length. apply lookup_lt_Some in Hj. lia.
  - rewrite lookup_app_r; rewrite row_length; [|lia].
    replace (length ls + i * length ls + j - length ls)%nat
      with (i * length ls + j)%nat by lia.
    rewrite (IH (S i0) ls i j di dj Hi Hj). do 2 f_equal. lia.
Qed.
End Loops.

Section Candidates.
Context {ops : FloatOps}.

Lemma merge_loops_eq name rsizes lsizes :
  merge_loops name rsizes lsizes =
    let cs := concat (rows (if Ascii.eqb name "V" then candidateV else candidateH)
                           0 rsizes lsizes) in
    mkMergeState (offer_all cs []) cs.
Proof.
  unfold merge_loops. destruct (Ascii.eqb name "V"); rewrite outer_loop_eq; reflexivity.
Qed.

Lemma merged_sizes_offer_all name rsizes lsizes :
  merged_sizes name rsizes lsizes =
    offer_all (ms_offered (merge_loops name rsizes lsizes)) [].
Proof. unfold merged_sizes. rewrite merge_loops_eq. reflexivity. Qed.

Lemma offered_length name rsizes lsizes :
  length (ms_offered (merge_loops name rsizes lsizes)) = (length rsizes * length lsizes)%nat.
Proof. rewrite merge_loops_eq. simpl. apply rows_concat_length. Qed.

Lemma offered_lookup name rsizes lsizes i j r l :
  rsizes !! i = Some r -> lsizes !! j = Some l ->
  ms_offered (merge_loops name rsizes lsizes) !! (i * length lsizes + j)%nat =
    Some ((if Ascii.eqb name "V" then candidateV else candidateH) i r j l).
Proof.
  intros Hi Hj. rewrite merge_loops_eq. simpl.
  apply (rows_concat_lookup _ rsizes 0%nat lsizes i j r l Hi Hj).
Qed.

Lemma offered_inv name rsizes lsizes k c :
  ms_offered (merge_loops name rsizes lsizes) !! k = Some c ->
  exists i j r l,
    k = (i * length lsizes + j)%nat /\ rsizes !! i = Some r /\ lsizes !! j = Some l /\
    c = (if Ascii.eqb name "V" then candidateV else candidateH) i r j l.
Proof.
  intros Hk. pose proof (lookup_lt_Some _ _ _ Hk) as Hlt.
  rewrite offered_length in Hlt.
  assert (Hl : (0 < length lsizes)%nat) by nia.
  set (i := (k / length lsizes)%nat). set (j := (k mod length lsizes)%nat).
  assert (Hkij : k = (i * length lsizes + j)%nat).
  { unfold i, j. rewrite Nat.mul_comm. apply Nat.div_mod_eq. }
  assert (Hj : (j < length lsizes)%nat) by (apply Nat.mod_upper_bound; lia).
  assert (Hi : (i < length rsizes)%nat) by nia.
  destruct (lookup_lt_is_Some_2 _ _ Hi) as [r Hr].
  destruct (lookup_lt_is_Some_2 _ _ Hj) as [l Hl'].
  exists i, j, r, l. repeat split; auto.
  pose proof (offered_lookup name _ _ _ _ _ _ Hr Hl') as H.
  rewrite <- Hkij in H. congruence.
Qed.

(** The calls of [addToDimensions] made by the candidate loops on two
    lists: one per pair of a position [i] in the right list and a position
    [j] in the left list, the pair [(i, j)] at rank [i * |left| + j]. *)
Lemma merge_loops_candidates (name : ascii) (rsizes lsizes : list Dimensions) :
  let offered := ms_offered (merge_loops name rsizes lsizes) in
  length offered = (length rsizes * length lsizes)%nat /\
  (forall i j r l, rsizes !! i = Some r -> lsizes !! j = Some l ->
     exists c, offered !! (i * length lsizes + j)%nat = Some c /\
       rSelected c = Some i /\ lSelected c = Some j /\
       (name = "V"%char ->
          width c = fadd (width r) (width l) /\ height c = Rmax (height r) (height l)) /\
       (name <> "V"%char ->
          width c = Rmax (width r) (width l) /\ height c = fadd (height r) (height l))) /\
  (forall k c, offered !! k = Some c ->
     exists i j r l, k = (i * length lsizes + j)%nat /\
       rsizes !! i = Some r /\ lsizes !! j = Some l /\
       rSelected c = Some i /\ lSelected c = Some j) /\
  NoDup (map (fun c => (rSelected c, lSelected c)) offered) /\
  merged_sizes name rsizes lsizes = offer_all offered [].
Proof.
  intros offered. split; [apply offered_length|]. split; [|split; [|split]].
  - intros i j r l Hi Hj. eexists. split; [apply offered_lookup; eassumption|].
    destruct (Ascii.eqb_spec name "V") as [->|Hne]; simpl; rewrite ?fgeb_max;
      repeat split; try reflexivity; intros; congruence.
  - intros k c Hk. apply offered_inv in Hk as (i & j & r & l & -> & Hr & Hl & ->).
    exists i, j, r, l. destruct (Ascii.eqb name "V"); auto.
  - apply NoDup_alt. intros k1 k2 x H1 H2.
    rewrite list_lookup_fmap in H1, H2.
    destruct (offered !! k1) as [c1|] eqn:E1; [|done].
    destruct (offered !! k2) as [c2|] eqn:E2; [|done].
    simpl in *. simplify_eq.
    apply offered_inv in E1 as (i1 & j1 & r1 & l1 & -> & _ & _ & ->).
    apply offered_inv in E2 as (i2 & j2 & r2 & l2 & -> & _ & _ & ->).
    destruct (Ascii.eqb name "V"); simpl in *; congruence.
  - apply merged_sizes_offer_all.
Qed.

End Candidates.


(* ================================================================== *)
(** ** Curves built by offering candidates *)

Section Curves.
Context {ops : FloatOps}.

Lemma offer_all_snoc cs c s :
  offer_all (cs ++ [c]) s = fst (addToDimensions (offer_all cs s) c).
Proof. rewrite offer_all_app. reflexivity. Qed.

Lemma addToDimensions_nonempty sizes n : fst (addToDimensions sizes n) <> [].
Proof. apply addToDimensions_loop_nonempty. Qed.



Lemma offer_all_nonempty cs s : cs <> [] -> offer_all cs s <> [].
Proof.
  intros Hcs. destruct (exists_last Hcs) as (cs' & c & ->).
  rewrite offer_all_snoc. apply addToDimensions_nonempty.
Qed.

Lemma merged_nonempty name rsizes lsizes :
  rsizes <> [] -> lsizes <> [] -> merged_sizes name rsizes lsizes <> [].
Proof.
  intros Hr Hl. rewrite merged_sizes_offer_all. apply offer_all_nonempty.
  intros E. apply (f_equal length) in E. rewrite offered_length in E.
  destruct rsizes, lsizes; simpl in *; done.
Qed.


(** What a sequence of offers leaves: an antichain, made of offered points,
    that covers every offered point. *)
Lemma offer_all_props cands : forall s0,
  no_domination s0 ->
  no_domination (offer_all cands s0) /\
  (forall p, p ∈ offer_all cands s0 -> p ∈ s0 \/ p ∈ cands) /\
  (forall c, c ∈ s0 \/ c ∈ cands -> exists p, p ∈ offer_all cands s0 /\ dominates p c).
Proof.
  induction cands as [|c cands IH]; intros s0 Hinv.
  - simpl. split; [assumption|]. split; [auto|].
    intros c [Hc|Hc]; [|inversion Hc]. exists c. split; auto using dominates_refl.
  - cbn [offer_all fold_left]. fold (offer_all cands (fst (addToDimensions s0 c))).
    set (s1 := fst (addToDimensions s0 c)).
    assert (Hinv1 : no_domination s1) by apply addToDimensions_invariant, Hinv.
    assert (Hsub : forall p, p ∈ s1 -> p ∈ s0 \/ p = c).
    { intros p. unfold s1. destruct (refused_dec s0 c) as [Href|Href].
      - rewrite addToDimensions_refused by assumption. auto.
      - rewrite addToDimensions_accepted by assumption. simpl.
        rewrite elem_of_app, list_elem_of_singleton.
        intros [Hp|Hp]; auto.
        apply list_elem_of_In, filter_In in Hp as [Hp _]. left. apply list_elem_of_In, Hp. }
    assert (Hcov : forall x, x ∈ s0 \/ x = c -> exists p, p ∈ s1 /\ dominates p x).
    { intros x Hx. unfold s1. destruct (refused_dec s0 c) as [Href|Href].
      - rewrite addToDimensions_refused by assumption. simpl.
        destruct Hx as [Hx|Hx]; [exists x; auto using dominates_refl|subst x].
        apply refused_iff in Href. exact Href.
      - rewrite addToDimensions_accepted by assumption. simpl.
        destruct Hx as [Hx|Hx]; [|subst x].
        + destruct (dominatesb c x) eqn:E.
          * exists c. split; [apply elem_of_app; right; left|apply dominatesb_true, E].
          * exists x. split; [|apply dominates_refl].
            apply elem_of_app. left. apply list_elem_of_In, filter_In.
            split; [apply list_elem_of_In, Hx|rewrite E; reflexivity].
        + exists c. split; [apply elem_of_app; right; left|apply dominates_refl]. }
    destruct (IH s1 Hinv1) as (H1 & H2 & H3). split; [assumption|]. split.
    + intros p Hp. destruct (H2 p Hp) as [Hp1|Hp1].
      * destruct (Hsub p Hp1) as [Hp0|Hp0]; [auto|subst p; right; left].
      * right. right. assumption.
    + intros x [Hx|Hx].
      * destruct (Hcov x (or_introl Hx)) as (y & Hy & Hyx).
        destruct (H3 y (or_introl Hy)) as (p & Hp & Hpy).
        exists p. split; eauto using dominates_trans.
      * apply elem_of_cons in Hx as [->|Hx].
        -- destruct (Hcov c (or_intror eq_refl)) as (y & Hy & Hyx).
           destruct (H3 y (or_introl Hy)) as (p & Hp & Hpy).
           exists p. split; eauto using dominates_trans.
        -- apply H3. right. assumption.
Qed.

(** The (width, height) pairs left are those of the minimal offered points. *)
Lemma offer_all_minimal cands w h :
  has_point (offer_all cands []) w h <->
  exists c, c ∈ cands /\ width c = w /\ height c = h /\
    forall c', c' ∈ cands -> dominates c' c -> same_point c' c.
Proof.
  destruct (offer_all_props cands [] no_domination_nil) as (Hinv & Hsub & Hcov).
  split.
  - intros (p & Hp & Hw & Hh). exists p.
    destruct (Hsub p Hp) as [Hp0|Hpc]; [inversion Hp0|].
    do 3 (split; [assumption|]).
    intros c' Hc' Hd.
    destruct (Hcov c' (or_intror Hc')) as (p' & Hp' & Hd').
    assert (p' = p) as ->.
    { eapply no_domination_elem; eauto using dominates_trans. }
    apply dominates_antisym; assumption.
  - intros (c & Hc & Hw & Hh & Hmin).
    destruct (Hcov c (or_intror Hc)) as (p & Hp & Hd).
    destruct (Hsub p Hp) as [Hp0|Hpc]; [inversion Hp0|].
    destruct (Hmin p Hpc Hd) as [E1 E2].
    exists p. split; [assumption|]. split; congruence.
Qed.

Lemma merged_sizes_no_domination name rsizes lsizes :
  no_domination (merged_sizes name rsizes lsizes).
Proof.
  rewrite merged_sizes_offer_all.
  apply (offer_all_props _ [] no_domination_nil).
Qed.

(** C9. Offering the candidates of an operator node in any other order
    leaves the same set of (width, height) pairs as the order of the loops.
    The invariant of the children's curves is not needed. *)
Theorem merged_sizes_order_independent (name : ascii) (rsizes lsizes : list Dimensions)
    (cands : list Dimensions) :
  Permutation (ms_offered (merge_loops name rsizes lsizes)) cands ->
  forall w h,
    has_point (offer_all cands []) w h <-> has_point (merged_sizes name rsizes lsizes) w h.
Proof.
  intros Hperm w h.
  rewrite merged_sizes_offer_all, !offer_all_minimal.
  assert (Hin : forall c, c ∈ cands <-> c ∈ ms_offered (merge_loops name rsizes lsizes)).
  { intros c. rewrite !list_elem_of_In. split; apply Permutation_in; auto using Permutation_sym. }
  split; intros (c & Hc & Hw & Hh & Hmin); exists c; (split; [apply Hin, Hc|]);
    do 2 (split; [assumption|]); intros c' Hc'; apply Hmin, Hin, Hc'.
Qed.

(* ================================================================== *)
(** ** The scan for the best area *)

Lemma scan_best_spec (l : list Dimensions) : forall rest pos bestPos best bestArea,
  drop pos l = rest ->
  l !! bestPos = Some best ->
  bestArea = fmul (height best) (width best) ->
  (forall k q, (k < pos)%nat -> l !! k = Some q -> bestArea <= fmul (height q) (width q)) ->
  (forall k q, (k < bestPos)%nat -> l !! k = Some q -> bestArea < fmul (height q) (width q)) ->
  forall bp b a, scan_best pos rest bestPos best bestArea = (bp, b, a) ->
  l !! bp = Some b /\ a = fmul (height b) (width b) /\
  (forall q, q ∈ l -> a <= fmul (height q) (width q)) /\
  (forall k q, (k < bp)%nat -> l !! k = Some q -> a < fmul (height q) (width q)).
Proof.
  induction rest as [|c rest IH]; intros pos bestPos best bestArea Hdrop Hbest Ha Hle Hlt bp b a.
  - simpl. intros [= <- <- <-]. do 2 (split; [assumption|]). split; [|assumption].
    intros q Hq. apply list_elem_of_lookup in Hq as [k Hk].
    apply (Hle k q); [|assumption].
    apply lookup_lt_Some in Hk.
    apply (f_equal length) in Hdrop. rewrite length_drop in Hdrop. simpl in Hdrop. lia.
  - assert (Hc : l !! pos = Some c).
    { rewrite <- (Nat.add_0_r pos), <- lookup_drop, Hdrop. reflexivity. }
    assert (Hdrop' : drop (S pos) l = rest).
    { rewrite <- Nat.add_1_l, Nat.add_comm, <- drop_drop, Hdrop. reflexivity. }
    cbn [scan_best]. destruct (fltb (fmul (height c) (width c)) bestArea) eqn:E.
    + apply fltb_true in E. apply IH; auto.
      * intros k q Hk Hq. destruct (decide (k = pos)) as [->|Hne].
        -- rewrite Hc in Hq. injection Hq as <-. lra.
        -- assert (bestArea <= fmul (height q) (width q)) by (apply (Hle k q); [lia|assumption]). lra.
      * intros k q Hk Hq.
        assert (bestArea <= fmul (height q) (width q)) by (apply (Hle k q); [lia|assumption]). lra.
    + apply fltb_false in E. apply IH; auto.
      intros k q Hk Hq. destruct (decide (k = pos)) as [->|Hne].
      * rewrite Hc in Hq. injection Hq as <-. lra.
      * apply (Hle k q); [lia|assumption].
Qed.

(** The scan on a node whose list is not empty. *)
Lemma select_best_spec (this : SNode) :
  sizes this <> [] ->
  exists k best,
    select_best this =
      Some (set_best (fmul (height best) (width best)) best (fdiv (height best) (width best)) this) /\
    best_position (sizes this) = Some k /\
    sizes this !! k = Some best /\
    (forall q, q ∈ sizes this -> fmul (height best) (width best) <= fmul (height q) (width q)) /\
    (forall k' q, (k' < k)%nat -> sizes this !! k' = Some q ->
       fmul (height best) (width best) < fmul (height q) (width q)).
Proof.
  intros Hne. unfold select_best, best_position.
  destruct (sizes this) as [|b0 l] eqn:Em; [done|].
  destruct (scan_best 0 (b0 :: l) 0 b0 (fmul (height b0) (width b0))) as [[bp b] a] eqn:Es.
  destruct (scan_best_spec (b0 :: l) (b0 :: l) 0 0 b0 (fmul (height b0) (width b0)))
    with (bp := bp) (b := b) (a := a) as (H1 & H2 & H3 & H4); auto; try (intros; lia).
  subst a. exists bp, b. simpl. auto.
Qed.

(** The body of [calcMinArea] for one operator node, on the lists of its
    children. *)
Lemma calcMinArea_node_selects (this : SNode) (rsizes lsizes : list Dimensions) :
  merged_sizes (name this) rsizes lsizes <> [] ->
  exists k best this',
    calcMinArea_node this rsizes lsizes = Some (this', area this') /\
    best_position (merged_sizes (name this) rsizes lsizes) = Some k /\
    merged_sizes (name this) rsizes lsizes !! k = Some best /\
    (forall q, q ∈ merged_sizes (name this) rsizes lsizes ->
       fmul (height best) (width best) <= fmul (height q) (width q)) /\
    (forall k' q, (k' < k)%nat -> merged_sizes (name this) rsizes lsizes !! k' = Some q ->
       fmul (height best) (width best) < fmul (height q) (width q)) /\
    sizes this' = merged_sizes (name this) rsizes lsizes /\
    selected this' = Some best /\
    area this' = fmul (height best) (width best) /\
    aspectRatio this' = fdiv (height best) (width best).
Proof.
  intros Hne. unfold calcMinArea_node.
  set (this1 := set_sizes (merged_sizes (name this) rsizes lsizes) this).
  destruct (select_best_spec this1 Hne) as (k & best & E & Hk & Hbest & Hmin & Hfirst).
  change (sizes this1) with (merged_sizes (name this) rsizes lsizes) in Hk, Hbest, Hmin, Hfirst.
  rewrite E. exists k, best. eexists. split; [reflexivity|]. simpl.
  split; [exact Hk|]. split; [exact Hbest|].
  split; [|split; [|split; [|split; [|split]]]].
  - intros q Hq. specialize (Hmin q Hq). lra.
  - intros k' q Hk' Hq. specialize (Hfirst k' q Hk' Hq). lra.
  - reflexivity.
  - reflexivity.
  - lra.
  - reflexivity.
Qed.

End Curves.


(* ================================================================== *)
(** ** isValidNPE *)

Lemma int_wrap_small z : (- 2 ^ 31 <= z < 2 ^ 31)%Z -> int_wrap z = z.
Proof.
  intros H. unfold int_wrap.
  rewrite Z.mod_small; lia.
Qed.

Lemma operands_unique_cons c s :
  operands_unique (c :: s) <->
  (is_operator_char c = false -> c ∉ s) /\ operands_unique s.
Proof.
  unfold operands_unique. split.
  - intros H. split.
    + intros Hc Hin. specialize (H c Hc (list_elem_of_here _ _)).
      simpl in H. destruct (ascii_dec c c); [|done].
      apply list_elem_of_In, (count_occ_In ascii_dec) in Hin. lia.
    + intros d Hd Hin. specialize (H d Hd (list_elem_of_further _ _ _ Hin)).
      simpl in H. destruct (ascii_dec c d) as [->|]; [|assumption].
      apply list_elem_of_In, (count_occ_In ascii_dec) in Hin. lia.
  - intros [Hc Hs] d Hd Hin. simpl. destruct (ascii_dec c d) as [->|Hne].
    + f_equal. apply count_occ_not_In. rewrite <- list_elem_of_In. auto.
    + apply Hs; auto. apply elem_of_cons in Hin as [->|]; [done|assumption].
Qed.

Lemma no_repeated_operator_cons c s :
  no_repeated_operator (c :: s) <->
  (is_operator_char c = true -> head s <> Some c) /\ no_repeated_operator s.
Proof.
  unfold no_repeated_operator. split.
  - intros H. split.
    + intros Hc. specialize (H 0%nat c Hc eq_refl). simpl in H.
      destruct s; simpl in *; auto.
    + intros i d Hd Hi. apply (H (S i) d Hd Hi).
  - intros [Hc Hs] i d Hd Hi. destruct i as [|i]; simpl in *.
    + simplify_eq. specialize (Hc Hd). destruct s; simpl in *; auto.
    + apply Hs; auto.
Qed.

Lemma count_operands_cons c s :
  count_operands (c :: s) =
    ((if is_operator_char c then 0 else 1) + count_operands s)%nat.
Proof. unfold count_operands. simpl. destruct (is_operator_char c); reflexivity. Qed.

Lemma count_operators_cons c s :
  count_operators (c :: s) =
    ((if is_operator_char c then 1 else 0) + count_operators s)%nat.
Proof. unfold count_operators. simpl. destruct (is_operator_char c); reflexivity. Qed.

Lemma count_operands_operators s :
  (count_operands s + count_operators s = length s)%nat.
Proof.
  induction s as [|c s IH]; [reflexivity|].
  rewrite count_operands_cons, count_operators_cons. simpl.
  destruct (is_operator_char c); lia.
Qed.

Lemma count_operands_app s t :
  count_operands (s ++ t) = (count_operands s + count_operands t)%nat.
Proof. unfold count_operands. rewrite List.filter_app, length_app. reflexivity. Qed.

Lemma count_operators_app s t :
  count_operators (s ++ t) = (count_operators s + count_operators t)%nat.
Proof. unfold count_operators. rewrite List.filter_app, length_app. reflexivity. Qed.

Lemma balloting_from_cons a b c s :
  balloting_from a b (c :: s) <->
  let a' := ((if is_operator_char c then 0 else 1) + a)%nat in
  let b' := ((if is_operator_char c then 1 else 0) + b)%nat in
  (b' < a')%nat /\ balloting_from a' b' s.
Proof.
  unfold balloting_from. simpl. split.
  - intros H. split.
    + assert (Hk : (0 < 1 <= S (length s))%nat) by lia.
      specialize (H 1%nat Hk). simpl in H. rewrite take_0 in H.
      rewrite count_operands_cons, count_operators_cons in H.
      change (count_operators []) with 0%nat in H.
      change (count_operands []) with 0%nat in H.
      destruct (is_operator_char c); simpl in *; lia.
    + intros k Hk. assert (Hk' : (0 < S k <= S (length s))%nat) by lia.
      specialize (H (S k) Hk'). simpl in H.
      rewrite count_operands_cons, count_operators_cons in H. lia.
  - intros [H1 H2] k Hk. destruct k as [|k]; [lia|]. simpl.
    rewrite count_operands_cons, count_operators_cons.
    destruct k as [|k].
    + rewrite take_0. change (count_operators []) with 0%nat.
      change (count_operands []) with 0%nat.
      destruct (is_operator_char c); simpl in *; lia.
    + assert (Hk' : (0 < S k <= length s)%nat) by lia.
      specialize (H2 (S k) Hk'). lia.
Qed.

Lemma count_from_cons a b c s :
  count_from a b (c :: s) <->
  count_from ((if is_operator_char c then 0 else 1) + a)
             ((if is_operator_char c then 1 else 0) + b) s.
Proof.
  unfold count_from. rewrite count_operands_cons, count_operators_cons.
  destruct (is_operator_char c); simpl; lia.
Qed.

Lemma existsb_eqb_elem c s : existsb (Ascii.eqb c) s = true <-> c ∈ s.
Proof.
  rewrite existsb_exists, list_elem_of_In. split.
  - intros (x & Hx & E). apply Ascii.eqb_eq in E. subst. assumption.
  - intros H. exists c. split; [assumption|apply Ascii.eqb_refl].
Qed.

Lemma head_eqb c s :
  match s with c' :: _ => Ascii.eqb c c' | [] => false end = true <-> head s = Some c.
Proof.
  destruct s as [|c' s]; simpl; [split; discriminate|].
  rewrite Ascii.eqb_eq. split; congruence.
Qed.

Lemma isValidNPE_loop_spec rest : forall a b : nat,
  (Z.of_nat (a + b + length rest) < 2 ^ 31)%Z ->
  isValidNPE_loop rest (Z.of_nat a) (Z.of_nat b) = true <->
  operands_unique rest /\ no_repeated_operator rest /\
  balloting_from a b rest /\ count_from a b rest.
Proof.
  induction rest as [|c rest IH]; intros a b Hlen.
  - simpl. unfold int_sub. rewrite int_wrap_small by lia.
    rewrite Z.eqb_eq. unfold count_from.
    change (count_operators []) with 0%nat. change (count_operands []) with 0%nat.
    split.
    + intros H.
      split; [intros d _ Hd; inversion Hd|].
      split; [intros i d _ Hd; rewrite lookup_nil in Hd; done|].
      split; [intros k Hk; simpl in Hk; lia|lia].
    + intros (_ & _ & _ & H). lia.
  - rewrite operands_unique_cons, no_repeated_operator_cons,
      balloting_from_cons, count_from_cons.
    cbn [isValidNPE_loop]. simpl length in Hlen.
    destruct (is_operator_char c) eqn:Ec.
    + destruct (match rest with c' :: _ => Ascii.eqb c c' | [] => false end) eqn:Eh.
      { apply head_eqb in Eh. split; [discriminate|]. intros (_ & [H _] & _). tauto. }
      assert (Hh : head rest <> Some c).
      { intros E. apply head_eqb in E. congruence. }
      unfold int_add. rewrite int_wrap_small by lia.
      replace (Z.of_nat b + 1)%Z with (Z.of_nat (1 + b)) by lia.
      simpl. destruct (Z.leb_spec (Z.of_nat a) (Z.of_nat (S b))) as [Hle|Hgt].
      { split; [discriminate|]. intros (_ & _ & [H _] & _). lia. }
      rewrite (IH a (S b)) by lia.
      split.
      * intros (H1 & H2 & H3 & H4).
        split; [split; [intros; done|assumption]|].
        split; [split; [intros; done|assumption]|].
        split; [split; [lia|assumption]|assumption].
      * intros ([_ H1] & [_ H2] & [_ H3] & H4). auto.
    + destruct (existsb (Ascii.eqb c) rest) eqn:Ee.
      { apply existsb_eqb_elem in Ee. split; [discriminate|]. intros ([H _] & _). tauto. }
      assert (Hn : c ∉ rest).
      { intros E. apply existsb_eqb_elem in E. congruence. }
      unfold int_add. rewrite int_wrap_small by lia.
      replace (Z.of_nat a + 1)%Z with (Z.of_nat (1 + a)) by lia.
      simpl. destruct (Z.leb_spec (Z.of_nat (S a)) (Z.of_nat b)) as [Hle|Hgt].
      { split; [discriminate|]. intros (_ & _ & [H _] & _). lia. }
      rewrite (IH (S a) b) by lia.
      split.
      * intros (H1 & H2 & H3 & H4).
        split; [split; [intros; done|assumption]|].
        split; [split; [intros; done|assumption]|].
        split; [split; [lia|assumption]|assumption].
      * intros ([_ H1] & [_ H2] & [_ H3] & H4). auto.
Qed.

Lemma length_list_ascii_of_string (s : string) :
  length (list_ascii_of_string s) = String.length s.
Proof. induction s as [|c s IH]; simpl; [reflexivity|f_equal; exact IH]. Qed.

Lemma isValidNPE_iff (npe : string) :
  (Z.of_nat (String.length npe) < 2 ^ 31)%Z ->
  isValidNPE npe = true <-> valid_NPE (list_ascii_of_string npe).
Proof.
  intros Hlen. unfold isValidNPE, valid_NPE.
  pose proof (length_list_ascii_of_string npe) as E.
  apply (isValidNPE_loop_spec _ 0%nat 0%nat). simpl. lia.
Qed.

(** C4. On a string of fewer than 2^31 characters (the range of the
    [int] counters), [isValidNPE] returns true exactly when every character
    other than V and H occurs once, no operator is followed by the same
    operator, after each character of the string more operands than
    operators have been read, and the operators are one less than the
    operands.  It accepts 12V3V and refuses 1V2V. *)
Theorem isValidNPE_spec (npe : string) :
  (Z.of_nat (String.length npe) < 2 ^ 31)%Z ->
  (isValidNPE npe = true <->
     operands_unique (list_ascii_of_string npe) /\
     no_repeated_operator (list_ascii_of_string npe) /\
     balloting (list_ascii_of_string npe) /\
     operators_one_less (list_ascii_of_string npe)) /\
  isValidNPE "12V3V" = true /\
  isValidNPE "1V2V" = false.
Proof.
  intros Hlen. split; [apply isValidNPE_iff, Hlen|]. split; reflexivity.
Qed.


(* ================================================================== *)
(** ** The search for a cell *)

Lemma find_cell_loop_spec rest : forall i c child,
  (Forall (fun n => name n <> c) rest /\ find_cell_loop rest i c child = child) \/
  (exists j n, find_cell_loop rest i c child = Some (CellPtr (i + j)) /\
     rest !! j = Some n /\ name n = c).
Proof.
  induction rest as [|x rest IH]; intros i c child.
  - left. split; [constructor|reflexivity].
  - cbn [find_cell_loop].
    destruct (IH (S i) c (if Ascii.eqb (name x) c then Some (CellPtr i) else child))
      as [[Hall E]|(j & n & E & Hj & Hn)].
    + destruct (Ascii.eqb_spec (name x) c) as [Hx|Hx].
      * right. exists 0%nat, x. rewrite Nat.add_0_r. auto.
      * left. split; [constructor; assumption|assumption].
    + right. exists (S j), n. rewrite E. split; [f_equal; f_equal; lia|auto].
Qed.

Lemma find_cell_Some cells c p :
  find_cell cells c = Some p ->
  exists i n, p = CellPtr i /\ cells !! i = Some n /\ name n = c.
Proof.
  unfold find_cell. intros H.
  destruct (find_cell_loop_spec cells 0 c None) as [[_ E]|(j & n & E & Hj & Hn)].
  - congruence.
  - exists j, n. rewrite H in E. injection E as ->. auto.
Qed.

Lemma find_cell_complete cells c :
  (exists n, n ∈ cells /\ name n = c) -> exists p, find_cell cells c = Some p.
Proof.
  intros (n & Hn & Hc). unfold find_cell.
  destruct (find_cell_loop_spec cells 0 c None) as [[Hall E]|(j & m & E & _)].
  - rewrite Forall_forall in Hall. destruct (Hall n Hn Hc).
  - eauto.
Qed.

Lemma find_cell_None cells c :
  find_cell cells c = None -> ~ exists n, n ∈ cells /\ name n = c.
Proof.
  intros H Hex. apply find_cell_complete in Hex as [p Hp]. congruence.
Qed.

(* ================================================================== *)
(** ** A valid expression is the postfix text of one tree *)

Lemma prefix_rev_postfix t : prefix_rev t = rev (postfix t).
Proof.
  induction t as [c p|op l IHl r IHr]; simpl; [reflexivity|].
  rewrite !rev_app_distr. simpl. rewrite IHl, IHr. reflexivity.
Qed.

Lemma balloting_from_shift a b s :
  balloting_from (S a) (S b) s <-> balloting_from a b s.
Proof.
  unfold balloting_from. split; intros H k Hk; specialize (H k Hk); lia.
Qed.

Lemma count_from_shift a b s : count_from (S a) (S b) s <-> count_from a b s.
Proof. unfold count_from. lia. Qed.

Lemma stack_text_cons t stack : stack_text (t :: stack) = stack_text stack ++ postfix t.
Proof.
  unfold stack_text. simpl. rewrite map_app, concat_app. simpl.
  rewrite app_nil_r. reflexivity.
Qed.

Lemma build_stack_valid lookup s : forall stack,
  (forall c, c ∈ s -> is_operator_char c = false -> lookup c <> None) ->
  balloting_from (length stack) 0 s ->
  Forall wf_tree stack -> Forall (all_found lookup) stack ->
  exists stack',
    build_stack false lookup s stack = Some stack' /\
    (length stack' + count_operators s = length stack + count_operands s)%nat /\
    stack_text stack' = stack_text stack ++ s /\
    Forall wf_tree stack' /\ Forall (all_found lookup) stack'.
Proof.
  induction s as [|c s IH]; intros stack Hfound Hbal Hwf Hall.
  - exists stack. simpl. rewrite app_nil_r. auto.
  - apply balloting_from_cons in Hbal. cbn [build_stack].
    rewrite count_operands_cons, count_operators_cons.
    assert (Hfound' : forall d, d ∈ s -> is_operator_char d = false -> lookup d <> None).
    { intros d Hd. apply Hfound. right. assumption. }
    destruct (is_operator_char c) eqn:Ec; simpl in Hbal; destruct Hbal as [Hlt Hbal].
    + destruct stack as [|recent [|earlier stack]]; simpl in Hlt; try lia.
      simpl in Hbal. apply (proj1 (balloting_from_shift _ _ _)) in Hbal.
      inversion Hwf as [|? ? Hw1 Hwf1]; subst. inversion Hwf1 as [|? ? Hw2 Hwf2]; subst.
      inversion Hall as [|? ? Ha1 Hall1]; subst. inversion Hall1 as [|? ? Ha2 Hall2]; subst.
      assert (Hwf0 : Forall wf_tree (Node c earlier recent :: stack)).
      { constructor; [simpl; auto|assumption]. }
      assert (Hall0 : Forall (all_found lookup) (Node c earlier recent :: stack)).
      { constructor; [simpl; auto|assumption]. }
      destruct (IH (Node c earlier recent :: stack) Hfound' Hbal Hwf0 Hall0)
        as (stack' & E & Hlen & Htext & Hwf' & Hall').
      exists stack'. split; [assumption|]. split; [simpl in *; lia|].
      split; [|auto]. rewrite Htext, !stack_text_cons. simpl.
      rewrite <- !app_assoc. reflexivity.
    + destruct (lookup c) as [p|] eqn:El.
      2:{ exfalso. apply (Hfound c); [left|assumption|assumption]. }
      assert (Hwf0 : Forall wf_tree (Leaf c p :: stack)).
      { constructor; [exact Ec|assumption]. }
      assert (Hall0 : Forall (all_found lookup) (Leaf c p :: stack)).
      { constructor; [exact El|assumption]. }
      destruct (IH (Leaf c p :: stack) Hfound' Hbal Hwf0 Hall0)
        as (stack' & E & Hlen & Htext & Hwf' & Hall').
      exists stack'. split; [assumption|]. split; [simpl in *; lia|].
      split; [|auto]. rewrite Htext, stack_text_cons. simpl.
      rewrite <- app_assoc. reflexivity.
Qed.

Lemma valid_NPE_tree lookup s :
  valid_NPE s ->
  (forall c, c ∈ s -> is_operator_char c = false -> lookup c <> None) ->
  exists t, build_stack false lookup s [] = Some [t] /\
    postfix t = s /\ wf_tree t /\ all_found lookup t.
Proof.
  intros (_ & _ & Hbal & Hcount) Hfound.
  destruct (build_stack_valid lookup s [] Hfound Hbal (List.Forall_nil _) (List.Forall_nil _))
    as (stack' & E & Hlen & Htext & Hwf & Hall).
  unfold operators_one_less, count_from in Hcount. simpl in Hlen, Hcount.
  destruct stack' as [|t [|t' stack']]; simpl in Hlen; try lia.
  exists t. split; [assumption|].
  rewrite stack_text_cons in Htext. simpl in Htext.
  inversion Hwf; inversion Hall; subst. auto.
Qed.

Lemma build_stack_mirror lookup s : forall stack,
  build_stack true lookup s (map mirror stack) =
    option_map (map mirror) (build_stack false lookup s stack).
Proof.
  induction s as [|c s IH]; intros stack; [reflexivity|].
  cbn [build_stack]. destruct (is_operator_char c).
  - destruct stack as [|recent [|earlier stack]]; try reflexivity.
    apply (IH (Node c earlier recent :: stack)).
  - destruct (lookup c) as [p|]; [|reflexivity]. apply (IH (Leaf c p :: stack)).
Qed.

Lemma build_spec_mirror npe cs :
  build_spec npe cs = option_map mirror (build_earlier_left npe cs).
Proof.
  unfold build_spec, build_earlier_left, build_postfix.
  destruct (isValidNPE npe); [|reflexivity].
  change (@nil tree) with (map mirror []) at 1.
  rewrite (build_stack_mirror (find_cell cs) (list_ascii_of_string npe) []).
  destruct (build_stack false (find_cell cs) (list_ascii_of_string npe) [])
    as [[|t [|t' stack]]|]; reflexivity.
Qed.


(* ================================================================== *)
(** ** The walk up the parents *)

Lemma climb_stop fuel st k n :
  operators st !! k = Some n -> k = 0%nat \/ left n = None ->
  climb (S fuel) st (OpPtr k) = Returns st (OpPtr k).
Proof.
  intros Hk H. simpl. rewrite Hk.
  destruct H as [->|Hl]; [reflexivity|].
  rewrite Hl. rewrite bool_decide_eq_false_2 by (intros H; apply H; reflexivity).
  rewrite andb_false_r. reflexivity.
Qed.

Lemma climb_step fuel st k n q :
  operators st !! k = Some n -> k <> 0%nat -> left n <> None -> parent n = Some q ->
  climb (S fuel) st (OpPtr k) = climb fuel st q.
Proof.
  intros Hk H0 Hl Hp. simpl. rewrite Hk.
  rewrite bool_decide_eq_true_2 by assumption.
  destruct k; [done|]. simpl. rewrite Hp. reflexivity.
Qed.

Lemma climb_fuel st : wf_parents st -> forall f1 f2 k,
  (k < f1)%nat -> (k < f2)%nat -> climb f1 st (OpPtr k) = climb f2 st (OpPtr k).
Proof.
  intros Hwf. induction f1 as [|f1 IH]; intros f2 k H1 H2; [lia|].
  destruct f2 as [|f2]; [lia|].
  simpl. destruct (operators st !! k) as [n|] eqn:Hk; [|reflexivity].
  destruct (Nat.eqb_spec k 0) as [->|Hk0]; [reflexivity|].
  destruct (bool_decide (left n <> None)); [|reflexivity]. simpl.
  destruct (Hwf k n Hk Hk0) as (j & -> & Hj).
  apply IH; lia.
Qed.

(* ================================================================== *)
(** ** Trees in the store *)

Lemma rep_frame lo st st' p t :
  rep lo st p t -> cells st' = cells st ->
  (forall j n, (lo <= j)%nat -> operators st !! j = Some n -> operators st' !! j = Some n) ->
  rep lo st' p t.
Proof.
  intros H Hc Hops. revert p H.
  induction t as [c q|op l IHl r IHr]; intros p H; simpl in *.
  - rewrite Hc. exact H.
  - destruct H as (k & n & pl & pr & -> & Hlo & Hk & Hop & Hname & Hl & Hr & Hrl & Hrr).
    exists k, n, pl, pr. repeat (split; [solve [auto]|]). auto.
Qed.

Lemma rep_weaken lo lo' st p t :
  (lo' <= lo)%nat -> rep lo st p t -> rep lo' st p t.
Proof.
  intros Hle. revert p.
  induction t as [c q|op l IHl r IHr]; intros p H; simpl in *; [exact H|].
  destruct H as (k & n & pl & pr & -> & Hlo & Hk & Hop & Hname & Hl & Hr & Hrl & Hrr).
  exists k, n, pl, pr. repeat (split; [solve [auto|lia]|]). auto.
Qed.

Lemma rep_to_tree lo st t : forall p fuel,
  rep lo st p t -> (tree_height t <= fuel)%nat -> to_tree fuel st p = Some t.
Proof.
  induction t as [c q|op l IHl r IHr]; intros p fuel H Hf; simpl in *.
  - destruct fuel; [lia|]. destruct H as (-> & i & n & -> & Hi & Hop & Hn).
    simpl. rewrite Hi, Hop, Hn. reflexivity.
  - destruct fuel; [lia|].
    destruct H as (k & n & pl & pr & -> & Hlo & Hk & Hop & Hname & Hl & Hr & Hrl & Hrr).
    simpl. rewrite Hk, Hop, Hl, Hr.
    rewrite (IHl pl fuel Hrl), (IHr pr fuel Hrr) by lia. rewrite Hname. reflexivity.
Qed.

Lemma rep_print lo st t : forall p fuel out,
  rep lo st p t -> (tree_height t <= fuel)%nat ->
  print fuel st p out = Returns (out ++ postfix t) tt.
Proof.
  induction t as [c q|op l IHl r IHr]; intros p fuel out H Hf; simpl in *.
  - destruct fuel; [lia|]. destruct H as (-> & i & n & -> & Hi & Hop & Hn).
    simpl. rewrite Hi, Hop, Hn. reflexivity.
  - destruct fuel; [lia|].
    destruct H as (k & n & pl & pr & -> & Hlo & Hk & Hop & Hname & Hl & Hr & Hrl & Hrr).
    simpl. rewrite Hk, Hop, Hl, Hr.
    rewrite (IHl pl fuel out Hrl) by lia.
    rewrite (IHr pr fuel (out ++ postfix l) Hrr) by lia.
    rewrite Hname, <- !app_assoc. reflexivity.
Qed.

Lemma all_found_dec lookup t : all_found lookup t \/ ~ all_found lookup t.
Proof.
  induction t as [c q|op l IHl r IHr]; simpl.
  - destruct (lookup c) as [[i|i]|]; destruct q as [j|j];
      try (right; congruence);
      destruct (decide (i = j)) as [->|Hne]; auto; right; congruence.
  - tauto.
Qed.

Lemma all_found_operands lookup t c :
  wf_tree t -> all_found lookup t -> c ∈ postfix t -> is_operator_char c = false ->
  lookup c <> None.
Proof.
  induction t as [d q|op l IHl r IHr]; simpl.
  - intros _ H Hc _. apply list_elem_of_singleton in Hc as ->. congruence.
  - intros (Hop & Hwl & Hwr) [Hl Hr] Hc Hnop.
    rewrite !elem_of_app, list_elem_of_singleton in Hc.
    destruct Hc as [Hc|[Hc| ->]]; auto. congruence.
Qed.


(* ================================================================== *)
(** ** One step of the loop of generateTree *)

Lemma loop_operator setter c chars st k n :
  is_operator_char c = true -> operators st !! k = Some n ->
  setter = (if bool_decide (right n <> None) then set_left else set_right) ->
  generateTree_loop (c :: chars) st (OpPtr k) =
    generateTree_loop chars
      (mkStore (cells st)
         (alter (setter (Some (OpPtr (length (operators st))))) k (operators st)
            ++ [set_parent (Some (OpPtr k)) (SNode_op c)]))
      (OpPtr (length (operators st))).
Proof.
  intros Hc Hk ->. cbn [generateTree_loop]. rewrite Hc.
  assert (Hlt : (k < length (operators st))%nat) by (eapply lookup_lt_Some; eauto).
  assert (E : deref (push_operator (SNode_op c) st) (OpPtr k) = Some n).
  { simpl. rewrite lookup_app_l by assumption. assumption. }
  rewrite E.
  assert (Hupd : forall f : option ptr -> SNode -> SNode,
    update (set_parent (Some (OpPtr k))) (OpPtr (length (operators st)))
      (update (f (Some (OpPtr (length (operators st))))) (OpPtr k)
         (push_operator (SNode_op c) st)) =
    mkStore (cells st)
      (alter (f (Some (OpPtr (length (operators st))))) k (operators st)
         ++ [set_parent (Some (OpPtr k)) (SNode_op c)])).
  { intros f. unfold update, push_operator. simpl. f_equal.
    rewrite alter_app_l by assumption.
    rewrite alter_app_r_alt by (rewrite length_alter; lia).
    rewrite length_alter, Nat.sub_diag. reflexivity. }
  destruct (bool_decide (right n <> None)); rewrite Hupd; reflexivity.
Qed.

Lemma loop_operand_right c chars st k n p :
  is_operator_char c = false -> find_cell (cells st) c = Some p ->
  operators st !! k = Some n -> right n = None ->
  generateTree_loop (c :: chars) st (OpPtr k) =
    generateTree_loop chars
      (mkStore (cells st) (alter (set_right (Some p)) k (operators st))) (OpPtr k).
Proof.
  intros Hc Hf Hk Hr. cbn [generateTree_loop]. rewrite Hc, Hf. simpl deref.
  rewrite Hk, Hr. rewrite bool_decide_eq_false_2 by (intros H; apply H; reflexivity).
  reflexivity.
Qed.

Lemma loop_operand_left c chars st k n p :
  is_operator_char c = false -> find_cell (cells st) c = Some p ->
  operators st !! k = Some n -> right n <> None ->
  generateTree_loop (c :: chars) st (OpPtr k) =
    after_left chars
      (mkStore (cells st) (alter (set_left (Some p)) k (operators st))) (OpPtr k).
Proof.
  intros Hc Hf Hk Hr. cbn [generateTree_loop]. rewrite Hc, Hf. simpl deref.
  rewrite Hk. rewrite bool_decide_eq_true_2 by assumption.
  reflexivity.
Qed.

Lemma loop_operand_missing c chars st current :
  is_operator_char c = false -> find_cell (cells st) c = None ->
  generateTree_loop (c :: chars) st current = Throws st "Cell data not valid!".
Proof. intros Hc Hf. cbn [generateTree_loop]. rewrite Hc, Hf. reflexivity. Qed.

(* ================================================================== *)
(** ** Stores that grow *)

Lemma wf_parents_alter (f : SNode -> SNode) cs ops k :
  (forall x, parent (f x) = parent x) ->
  wf_parents (mkStore cs ops) -> wf_parents (mkStore cs (alter f k ops)).
Proof.
  intros Hf Hwf j n Hj Hj0. simpl in *.
  destruct (decide (k = j)) as [->|Hne].
  - rewrite list_lookup_alter_eq in Hj.
    destruct (ops !! j) as [x|] eqn:Ex; [|done]. simpl in Hj. injection Hj as <-.
    rewrite Hf. apply (Hwf j x Ex Hj0).
  - rewrite list_lookup_alter_ne in Hj by assumption. apply (Hwf j n Hj Hj0).
Qed.

Lemma wf_parents_push cs ops n k :
  (k < length ops)%nat -> parent n = Some (OpPtr k) ->
  wf_parents (mkStore cs ops) -> wf_parents (mkStore cs (ops ++ [n])).
Proof.
  intros Hk Hp Hwf j x Hj Hj0. simpl in *.
  destruct (decide (j < length ops)%nat) as [Hlt|Hge].
  - rewrite lookup_app_l in Hj by assumption. apply (Hwf j x Hj Hj0).
  - rewrite lookup_app_r in Hj by lia.
    destruct (j - length ops)%nat as [|d] eqn:Ed; simpl in Hj; [|done].
    injection Hj as <-. exists k. split; [assumption|lia].
Qed.

Lemma built_lookup setter st k p t st' n :
  built setter st k p t st' -> operators st !! k = Some n ->
  operators st' !! k = Some (setter (Some p) n).
Proof.
  intros (_ & (new & E) & _) Hk. rewrite E.
  rewrite lookup_app_l by (rewrite length_alter; eapply lookup_lt_Some; eauto).
  rewrite list_lookup_alter_eq, Hk. reflexivity.
Qed.

Lemma built_lookup_ne setter st k p t st' j x :
  built setter st k p t st' -> j <> k -> operators st !! j = Some x ->
  operators st' !! j = Some x.
Proof.
  intros (_ & (new & E) & _) Hne Hj. rewrite E.
  rewrite lookup_app_l by (rewrite length_alter; eapply lookup_lt_Some; eauto).
  rewrite list_lookup_alter_ne by auto. assumption.
Qed.

Lemma built_length setter st k p t st' :
  built setter st k p t st' -> (length (operators st) <= length (operators st'))%nat.
Proof.
  intros (_ & (new & E) & _). rewrite E, length_app, length_alter. lia.
Qed.

(** An operator node and its two subtrees, once both are built. *)
Lemma node_built setter st k n op l r st2 st3 pR pL :
  (forall v x, parent (setter v x) = parent x) ->
  is_operator_char op = true ->
  wf_parents st -> operators st !! k = Some n ->
  let m := length (operators st) in
  let nm := set_parent (Some (OpPtr k)) (SNode_op op) in
  let st1 := mkStore (cells st)
               (alter (setter (Some (OpPtr m))) k (operators st) ++ [nm]) in
  built set_right st1 m pR r st2 -> built set_left st2 m pL l st3 ->
  built setter st k (OpPtr m) (Node op l r) st3 /\
  operators st3 !! m = Some (set_left (Some pL) (set_right (Some pR) nm)) /\
  operators st3 !! k = Some (setter (Some (OpPtr m)) n) /\
  (m < length (operators st3))%nat.
Proof.
  intros Hset Hop Hwf Hk m nm st1 HR HL.
  assert (Hkm : (k < m)%nat) by (eapply lookup_lt_Some; eauto).
  assert (H1m : operators st1 !! m = Some nm).
  { simpl. rewrite lookup_app_r; rewrite length_alter; [|fold m; lia].
    fold m. rewrite Nat.sub_diag. reflexivity. }
  assert (H1k : operators st1 !! k = Some (setter (Some (OpPtr m)) n)).
  { simpl. rewrite lookup_app_l by (rewrite length_alter; exact Hkm).
    rewrite list_lookup_alter_eq, Hk. reflexivity. }
  pose proof (built_lookup _ _ _ _ _ _ _ HR H1m) as H2m.
  pose proof (built_lookup _ _ _ _ _ _ _ HL H2m) as H3m.
  assert (H2k : operators st2 !! k = Some (setter (Some (OpPtr m)) n)).
  { eapply built_lookup_ne; eauto. lia. }
  assert (H3k : operators st3 !! k = Some (setter (Some (OpPtr m)) n)).
  { eapply built_lookup_ne; eauto. lia. }
  assert (Hlen3 : (m < length (operators st3))%nat) by (eapply lookup_lt_Some; eauto).
  split; [|auto].
  destruct HR as (HcR & (newR & ER) & HrR & HwR).
  destruct HL as (HcL & (newL & EL) & HrL & HwL).
  assert (Hl1 : length (operators st1) = S m).
  { simpl. rewrite length_app, length_alter. simpl. fold m. lia. }
  split; [rewrite HcL, HcR; reflexivity|]. split; [|split; [|assumption]].
  - exists (set_left (Some pL) (set_right (Some pR) nm) :: newR ++ newL).
    rewrite EL, ER. simpl operators.
    set (A := alter (setter (Some (OpPtr m))) k (operators st)).
    assert (HA : length A = m) by apply length_alter.
    rewrite (alter_app_r_alt (set_right (Some pR)) A [nm] m) by lia.
    rewrite HA, Nat.sub_diag. simpl.
    rewrite <- (app_assoc A).
    rewrite (alter_app_r_alt (set_left (Some pL)) A _ m) by lia.
    rewrite HA, Nat.sub_diag. simpl.
    rewrite <- !app_assoc. reflexivity.
  - simpl. exists m, (set_left (Some pL) (set_right (Some pR) nm)), pL, pR.
    split; [reflexivity|]. split; [fold m; lia|]. split; [exact H3m|].
    split; [reflexivity|]. split; [reflexivity|]. split; [reflexivity|].
    split; [reflexivity|]. fold m. split.
    + eapply rep_weaken; [|exact HrL].
      rewrite ER, length_app, length_alter, Hl1. lia.
    + apply (rep_weaken (S m)); [lia|].
      rewrite Hl1 in HrR. eapply rep_frame; [exact HrR|exact HcL|].
      intros j x Hj Hx. rewrite EL.
      rewrite lookup_app_l by (rewrite length_alter; eapply lookup_lt_Some; eauto).
      rewrite list_lookup_alter_ne by lia. assumption.
Qed.


(* ================================================================== *)
(** ** The loop of generateTree builds one subtree after the other *)

Lemma resolved_cases lookup t :
  resolved lookup t -> all_found lookup t \/ some_missing lookup t.
Proof.
  induction t as [c q|op l IHl r IHr]; simpl; [tauto|].
  intros [Hl Hr]. destruct (IHl Hl), (IHr Hr); tauto.
Qed.

Lemma leaf_rep st c q lo :
  cells_are_operands (cells st) -> find_cell (cells st) c = Some q ->
  forall st', cells st' = cells st -> rep lo st' q (Leaf c q).
Proof.
  intros Hops Hf st' Hc. simpl. split; [reflexivity|].
  apply find_cell_Some in Hf as (i & n & -> & Hi & Hn).
  exists i, n. rewrite Hc. repeat split; auto.
  unfold cells_are_operands in Hops. rewrite Forall_lookup in Hops. eauto.
Qed.

Lemma subtree_built t : wf_tree t -> forall st k n rest,
  cells_are_operands (cells st) -> wf_parents st ->
  operators st !! k = Some n -> left n = None ->
  (all_found (find_cell (cells st)) t ->
     (right n = None ->
        exists st' p,
          generateTree_loop (prefix_rev t ++ rest) st (OpPtr k) =
            generateTree_loop rest st' (OpPtr k) /\
          built set_right st k p t st') /\
     (right n <> None ->
        exists st' p,
          generateTree_loop (prefix_rev t ++ rest) st (OpPtr k) =
            after_left rest st' (OpPtr k) /\
          built set_left st k p t st')) /\
  (resolved (find_cell (cells st)) t -> some_missing (find_cell (cells st)) t ->
     exists s, generateTree_loop (prefix_rev t ++ rest) st (OpPtr k) =
                 Throws s "Cell data not valid!").
Proof.
  induction t as [c q|op l IHl r IHr]; intros Hwft st k n rest Hcops Hwf Hk Hleft.
  - (* a leaf *)
    simpl in Hwft. simpl prefix_rev. simpl app. split.
    + intros Hf. simpl in Hf.
      assert (Hwf' : forall f : option ptr -> SNode -> SNode,
                (forall v x, parent (f v x) = parent x) ->
                wf_parents (mkStore (cells st) (alter (f (Some q)) k (operators st)))).
      { intros f Hpar. apply wf_parents_alter; [intros; apply Hpar|]. destruct st; exact Hwf. }
      split; intros Hr.
      * eexists. exists q. split; [eapply loop_operand_right; eauto|].
        split; [reflexivity|]. split; [exists []; simpl; rewrite app_nil_r; reflexivity|].
        split; [eapply leaf_rep; eauto|]. apply Hwf'. reflexivity.
      * eexists. exists q. split; [eapply loop_operand_left; eauto|].
        split; [reflexivity|]. split; [exists []; simpl; rewrite app_nil_r; reflexivity|].
        split; [eapply leaf_rep; eauto|]. apply Hwf'. reflexivity.
    + intros _ Hmiss. simpl in Hmiss. exists st. apply loop_operand_missing; assumption.
  - (* an operator node *)
    simpl in Hwft. destruct Hwft as (Hop & Hwl & Hwr).
    simpl prefix_rev. rewrite <- app_comm_cons, <- app_assoc.
    set (m := length (operators st)).
    set (nm := set_parent (Some (OpPtr k)) (SNode_op op)).
    assert (Hkm : (k < m)%nat) by (eapply lookup_lt_Some; eauto).
    (* the state after the operator character, for either slot *)
    assert (Hstep : forall setter,
      setter = (if bool_decide (right n <> None) then set_left else set_right) ->
      (forall v x, parent (setter v x) = parent x) ->
      let st1 := mkStore (cells st)
                   (alter (setter (Some (OpPtr m))) k (operators st) ++ [nm]) in
      generateTree_loop (op :: prefix_rev r ++ prefix_rev l ++ rest) st (OpPtr k) =
        generateTree_loop (prefix_rev r ++ prefix_rev l ++ rest) st1 (OpPtr m) /\
      wf_parents st1 /\ operators st1 !! m = Some nm).
    { intros setter Hs Hpar st1. split; [|split].
      - apply loop_operator with (n := n); assumption.
      - apply wf_parents_push with (k := k); [rewrite length_alter; exact Hkm|reflexivity|].
        apply wf_parents_alter; [intros; apply Hpar|]. destruct st; exact Hwf.
      - simpl. rewrite lookup_app_r; rewrite length_alter; [|fold m; lia].
        fold m. rewrite Nat.sub_diag. reflexivity. }
    (* both subtrees found: the two slots *)
    assert (Hsucc : forall setter,
      setter = (if bool_decide (right n <> None) then set_left else set_right) ->
      (forall v x, parent (setter v x) = parent x) ->
      all_found (find_cell (cells st)) l -> all_found (find_cell (cells st)) r ->
      exists st3 pL pR,
        generateTree_loop (op :: prefix_rev r ++ prefix_rev l ++ rest) st (OpPtr k) =
          after_left rest st3 (OpPtr m) /\
        built setter st k (OpPtr m) (Node op l r) st3 /\
        operators st3 !! m = Some (set_left (Some pL) (set_right (Some pR) nm)) /\
        operators st3 !! k = Some (setter (Some (OpPtr m)) n) /\
        (m < length (operators st3))%nat).
    { intros setter Hs Hpar Hfl Hfr.
      destruct (Hstep setter Hs Hpar) as (E1 & Hwf1 & H1m).
      set (st1 := mkStore (cells st)
                    (alter (setter (Some (OpPtr m))) k (operators st) ++ [nm])) in *.
      destruct (IHr Hwr st1 m nm (prefix_rev l ++ rest) Hcops Hwf1 H1m eq_refl)
        as [HsuccR _].
      destruct (HsuccR Hfr) as [HA _].
      destruct (HA eq_refl) as (st2 & pR & E2 & HbR).
      pose proof (built_lookup _ _ _ _ _ _ _ HbR H1m) as H2m.
      assert (Hc2 : cells st2 = cells st) by (destruct HbR as (-> & _); reflexivity).
      assert (Hwf2 : wf_parents st2) by (destruct HbR as (_ & _ & _ & H); exact H).
      assert (Hcops2 : cells_are_operands (cells st2)) by (rewrite Hc2; exact Hcops).
      destruct (IHl Hwl st2 m _ rest Hcops2 Hwf2 H2m eq_refl) as [HsuccL _].
      rewrite Hc2 in HsuccL. destruct (HsuccL Hfl) as [_ HB].
      destruct HB as (st3 & pL & E3 & HbL); [discriminate|].
      exists st3, pL, pR. split; [rewrite E1, E2, E3; reflexivity|].
      apply (node_built setter st k n op l r st2 st3 pR pL); auto. }
    split.
    + intros [Hfl Hfr]. split; intros Hr.
      * (* the node goes to the right slot: the walk stops at [k] *)
        destruct (Hsucc set_right) as (st3 & pL & pR & E & Hb & H3m & H3k & Hlen); auto.
        { rewrite bool_decide_eq_false_2; [reflexivity|]. intros H. apply H, Hr. }
        exists st3, (OpPtr m). split; [|exact Hb].
        rewrite E. unfold after_left.
        destruct (length (operators st3)) as [|f] eqn:Ef; [lia|].
        rewrite (climb_step f st3 m _ (OpPtr k) H3m) by (simpl; (lia || congruence)).
        destruct f as [|f]; [lia|].
        rewrite (climb_stop f st3 k _ H3k) by (right; exact Hleft).
        reflexivity.
      * (* the node goes to the left slot: the walk goes on from [k] *)
        destruct (Hsucc set_left) as (st3 & pL & pR & E & Hb & H3m & H3k & Hlen); auto.
        { rewrite bool_decide_eq_true_2; [reflexivity|exact Hr]. }
        exists st3, (OpPtr m). split; [|exact Hb].
        rewrite E. unfold after_left.
        destruct (length (operators st3)) as [|f] eqn:Ef; [lia|].
        rewrite (climb_step f st3 m _ (OpPtr k) H3m) by (simpl; (lia || congruence)).
        rewrite (climb_fuel st3 (proj2 (proj2 (proj2 Hb))) f (S f) k) by lia.
        reflexivity.
    + (* some operand has no cell *)
      intros [Hresl Hresr] Hmiss.
      set (setter := if bool_decide (right n <> None) then set_left else set_right).
      assert (Hpar : forall v x, parent (setter v x) = parent x).
      { intros v x. unfold setter. destruct (bool_decide (right n <> None)); reflexivity. }
      destruct (Hstep setter eq_refl Hpar) as (E1 & Hwf1 & H1m).
      set (st1 := mkStore (cells st)
                    (alter (setter (Some (OpPtr m))) k (operators st) ++ [nm])) in *.
      destruct (IHr Hwr st1 m nm (prefix_rev l ++ rest) Hcops Hwf1 H1m eq_refl)
        as [HsuccR HfailR].
      destruct (resolved_cases _ _ Hresr) as [Hfr|Hmr].
      * destruct Hmiss as [Hml|Hmr]; [|destruct (HfailR Hresr Hmr) as [s Es];
          exists s; rewrite E1; exact Es].
        destruct (HsuccR Hfr) as [HA _].
        destruct (HA eq_refl) as (st2 & pR & E2 & HbR).
        pose proof (built_lookup _ _ _ _ _ _ _ HbR H1m) as H2m.
        assert (Hc2 : cells st2 = cells st) by (destruct HbR as (-> & _); reflexivity).
        assert (Hwf2 : wf_parents st2) by (destruct HbR as (_ & _ & _ & H); exact H).
        assert (Hcops2 : cells_are_operands (cells st2)) by (rewrite Hc2; exact Hcops).
        destruct (IHl Hwl st2 m _ rest Hcops2 Hwf2 H2m eq_refl) as [_ HfailL].
        rewrite Hc2 in HfailL. destruct (HfailL Hresl Hml) as [s Es].
        exists s. rewrite E1, E2. exact Es.
      * destruct (HfailR Hresr Hmr) as [s Es]. exists s. rewrite E1. exact Es.
Qed.


(* ================================================================== *)
(** ** generateTree on a valid expression *)

Lemma rev_list_ascii_postfix npe t :
  list_ascii_of_string npe = postfix t -> rev (list_ascii_of_string npe) = prefix_rev t.
Proof. intros ->. symmetry. apply prefix_rev_postfix. Qed.

Lemma generateTree_invalid npe cells operators0 :
  isValidNPE npe = false ->
  generateTree npe cells operators0 = Throws (mkStore cells []) "Invalid NPE!".
Proof. intros H. unfold generateTree. rewrite H. reflexivity. Qed.

Lemma generateTree_node npe cs operators0 op l r :
  isValidNPE npe = true ->
  list_ascii_of_string npe = postfix (Node op l r) ->
  wf_tree (Node op l r) -> cells_are_operands cs ->
  (all_found (find_cell cs) (Node op l r) ->
     exists st, generateTree npe cs operators0 = Returns st (OpPtr 0) /\
       cells st = cs /\ rep 0 st (OpPtr 0) (Node op l r)) /\
  (resolved (find_cell cs) (Node op l r) ->
   some_missing (find_cell cs) (Node op l r) ->
     exists s, generateTree npe cs operators0 = Throws s "Cell data not valid!").
Proof.
  intros Hvalid Htext (Hop & Hwl & Hwr) Hcops.
  unfold generateTree. rewrite Hvalid. simpl negb. cbv iota.
  rewrite (rev_list_ascii_postfix _ _ Htext). simpl prefix_rev. cbv beta iota zeta.
  set (st1 := push_operator (SNode_op op) (mkStore cs [])).
  assert (Hwf1 : wf_parents st1).
  { intros k n Hk Hk0. destruct k; [done|]. simpl in Hk. rewrite lookup_nil in Hk. done. }
  assert (H10 : operators st1 !! 0%nat = Some (SNode_op op)) by reflexivity.
  destruct (subtree_built r Hwr st1 0 _ (prefix_rev l ++ []) Hcops Hwf1 H10 eq_refl)
    as [HsuccR HfailR].
  rewrite app_nil_r in HsuccR, HfailR.
  assert (Hafter : forall st2 pR, built set_right st1 0 pR r st2 ->
    (all_found (find_cell cs) l ->
       exists st3 pL, generateTree_loop (prefix_rev l) st2 (OpPtr 0) = Returns st3 tt /\
         built set_left st2 0 pL l st3) /\
    (resolved (find_cell cs) l -> some_missing (find_cell cs) l ->
       exists s, generateTree_loop (prefix_rev l) st2 (OpPtr 0) =
                   Throws s "Cell data not valid!")).
  { intros st2 pR HbR.
    pose proof (built_lookup _ _ _ _ _ _ _ HbR H10) as H20.
    assert (Hc2 : cells st2 = cs) by (destruct HbR as (-> & _); reflexivity).
    assert (Hwf2 : wf_parents st2) by (destruct HbR as (_ & _ & _ & H); exact H).
    assert (Hcops2 : cells_are_operands (cells st2)) by (rewrite Hc2; exact Hcops).
    destruct (subtree_built l Hwl st2 0 _ [] Hcops2 Hwf2 H20 eq_refl) as [HsuccL HfailL].
    rewrite app_nil_r, Hc2 in HsuccL, HfailL. split; [|exact HfailL].
    intros Hfl. destruct (HsuccL Hfl) as [_ HB].
    destruct HB as (st3 & pL & E3 & HbL); [discriminate|].
    exists st3, pL. split; [|exact HbL].
    rewrite E3. unfold after_left.
    pose proof (built_lookup _ _ _ _ _ _ _ HbL H20) as H30.
    destruct (length (operators st3)) as [|f] eqn:Ef.
    { apply lookup_lt_Some in H30. lia. }
    rewrite (climb_stop f st3 0 _ H30) by (left; reflexivity). reflexivity. }
  split.
  - intros [Hfl Hfr]. destruct (HsuccR Hfr) as [HA _].
    destruct (HA eq_refl) as (st2 & pR & E2 & HbR).
    destruct (Hafter st2 pR HbR) as [Hs _]. destruct (Hs Hfl) as (st3 & pL & E3 & HbL).
    exists st3. rewrite E2, E3. split; [reflexivity|].
    pose proof (built_lookup _ _ _ _ _ _ _ HbR H10) as H20.
    pose proof (built_lookup _ _ _ _ _ _ _ HbL H20) as H30.
    destruct HbR as (HcR & (newR & ER) & HrR & HwR).
    destruct HbL as (HcL & (newL & EL) & HrL & HwL).
    split; [rewrite HcL, HcR; reflexivity|].
    simpl. exists 0%nat, (set_left (Some pL) (set_right (Some pR) (SNode_op op))), pL, pR.
    split; [reflexivity|]. split; [lia|]. split; [exact H30|].
    do 4 (split; [reflexivity|]). split.
    + eapply rep_weaken; [|exact HrL]. lia.
    + apply (rep_weaken 1); [lia|].
      eapply rep_frame; [exact HrR|exact HcL|].
      intros j x Hj Hx. rewrite EL.
      rewrite lookup_app_l by (rewrite length_alter; eapply lookup_lt_Some; eauto).
      rewrite list_lookup_alter_ne by lia. assumption.
  - intros [Hresl Hresr] Hmiss.
    destruct (resolved_cases _ _ Hresr) as [Hfr|Hmr].
    + destruct Hmiss as [Hml|Hmr];
        [|destruct (HfailR Hresr Hmr) as [s Es]; exists s; rewrite Es; reflexivity].
      destruct (HsuccR Hfr) as [HA _].
      destruct (HA eq_refl) as (st2 & pR & E2 & HbR).
      destruct (Hafter st2 pR HbR) as [_ Hf]. destruct (Hf Hresl Hml) as [s Es].
      exists s. rewrite E2, Es. reflexivity.
    + destruct (HfailR Hresr Hmr) as [s Es]. exists s. rewrite Es. reflexivity.
Qed.

Lemma valid_with_operator_is_node lookup s t :
  build_stack false lookup s [] = Some [t] -> postfix t = s -> wf_tree t ->
  (0 < count_operators s)%nat -> exists op l r, t = Node op l r.
Proof.
  intros _ Htext Hwf Hcount. destruct t as [c q|op l r]; [|eauto].
  simpl in *. subst s. unfold count_operators in Hcount. simpl in Hcount.
  rewrite Hwf in Hcount. simpl in Hcount. lia.
Qed.

Lemma name_complete_found cells npe :
  name_complete cells npe ->
  forall c, c ∈ list_ascii_of_string npe -> is_operator_char c = false ->
    find_cell cells c <> None.
Proof.
  intros Hnc c Hc Hop Hnone.
  apply find_cell_None in Hnone. apply Hnone, Hnc; assumption.
Qed.

Lemma all_found_or_any cells t :
  all_found (find_cell_or_any cells) t -> resolved (find_cell cells) t.
Proof.
  induction t as [c q|op l IHl r IHr]; simpl; [|tauto].
  unfold find_cell_or_any. destruct (find_cell cells c); simpl; intros [= <-]; auto.
Qed.

Lemma all_found_name_complete cells npe t :
  postfix t = list_ascii_of_string npe -> wf_tree t ->
  all_found (find_cell cells) t -> name_complete cells npe.
Proof.
  intros Htext Hwf Hall c Hc Hop. rewrite <- Htext in Hc.
  pose proof (all_found_operands _ _ _ Hwf Hall Hc Hop) as Hf.
  destruct (find_cell cells c) as [p|] eqn:E; [|done].
  apply find_cell_Some in E as (i & n & _ & Hi & Hn).
  exists n. split; [eapply list_elem_of_lookup_2; eauto|assumption].
Qed.

(** What generateTree does on an expression that holds an operator. *)
Lemma generateTree_outcome (npe : string) (cells operators0 : list SNode) :
  (Z.of_nat (String.length npe) < 2 ^ 31)%Z ->
  cells_are_operands cells ->
  (isValidNPE npe = false ->
     generateTree npe cells operators0 = Throws (mkStore cells []) "Invalid NPE!") /\
  (isValidNPE npe = true -> (0 < count_operators (list_ascii_of_string npe))%nat ->
     (name_complete cells npe ->
        exists st, generateTree npe cells operators0 = Returns st (OpPtr 0)) /\
     (~ name_complete cells npe ->
        exists s, generateTree npe cells operators0 = Throws s "Cell data not valid!")).
Proof.
  intros Hlen Hcops. split; [apply generateTree_invalid|].
  intros Hvalid Hcount.
  pose proof (proj1 (isValidNPE_iff npe Hlen) Hvalid) as Hv.
  destruct (valid_NPE_tree (find_cell_or_any cells) _ Hv) as (t & Eb & Htext & Hwf & Hall).
  { intros c _ _. discriminate. }
  destruct (valid_with_operator_is_node _ _ _ Eb Htext Hwf Hcount) as (op & l & r & ->).
  apply all_found_or_any in Hall.
  destruct (generateTree_node npe cells operators0 op l r Hvalid (eq_sym Htext) Hwf Hcops)
    as [Hsucc Hfail].
  destruct (resolved_cases _ _ Hall) as [Hf|Hm].
  - split.
    + intros _. destruct (Hsucc Hf) as (st & E & _). eauto.
    + intros Hn. exfalso. apply Hn. eapply all_found_name_complete; eauto.
  - split.
    + intros Hn. exfalso.
      assert (Hex : exists c, c ∈ postfix (Node op l r) /\ is_operator_char c = false /\
                              find_cell cells c = None).
      { clear -Hm Hwf. revert Hm Hwf. generalize (Node op l r) as t.
        induction t as [c q|o tl IHl tr IHr]; simpl.
        - intros Hm Hc. exists c. split; [left|auto].
        - intros [Hm|Hm] (_ & Hwl & Hwr).
          + destruct (IHl Hm Hwl) as (c & Hc & H). exists c. split; [|exact H].
            apply elem_of_app. left. exact Hc.
          + destruct (IHr Hm Hwr) as (c & Hc & H). exists c. split; [|exact H].
            apply elem_of_app. right. apply elem_of_app. left. exact Hc. }
      destruct Hex as (c & Hc & Hop & Hnone). rewrite Htext in Hc.
      apply (name_complete_found _ _ Hn c Hc Hop Hnone).
    + intros _. apply Hfail; assumption.
Qed.

(** C3, as the code has it.  For an expression of fewer than 2^31
    characters that [isValidNPE] accepts and that holds an operator, and
    cells that name every operand, [generateTree] returns the first
    element of [operators]; the tree found there is the one the stack-based
    construction gives when the tree pushed first becomes the left child and
    the most recently pushed one the right child (the mirror image of the
    tree of the specification), and [operator<<] writes the expression back,
    character for character.  The cells are operands, as the constructors
    make them. *)
Theorem generateTree_builds_postfix_tree (npe : string) (cs operators0 : list SNode) :
  (Z.of_nat (String.length npe) < 2 ^ 31)%Z ->
  isValidNPE npe = true ->
  (0 < count_operators (list_ascii_of_string npe))%nat ->
  name_complete cs npe ->
  cells_are_operands cs ->
  exists st t,
    generateTree npe cs operators0 = Returns st (OpPtr 0) /\
    cells st = cs /\
    build_earlier_left npe cs = Some t /\
    build_spec npe cs = Some (mirror t) /\
    postfix t = list_ascii_of_string npe /\
    (forall fuel, (tree_height t <= fuel)%nat -> to_tree fuel st (OpPtr 0) = Some t) /\
    (forall fuel, (tree_height t <= fuel)%nat ->
       print fuel st (OpPtr 0) [] = Returns (list_ascii_of_string npe) tt).
Proof.
  intros Hlen Hvalid Hcount Hnc Hcops.
  pose proof (proj1 (isValidNPE_iff npe Hlen) Hvalid) as Hv.
  destruct (valid_NPE_tree (find_cell cs) _ Hv (name_complete_found _ _ Hnc))
    as (t & Eb & Htext & Hwf & Hall).
  destruct (valid_with_operator_is_node _ _ _ Eb Htext Hwf Hcount) as (op & l & r & ->).
  destruct (generateTree_node npe cs operators0 op l r Hvalid (eq_sym Htext) Hwf Hcops)
    as [Hsucc _].
  destruct (Hsucc Hall) as (st & E & Hc & Hrep).
  exists st, (Node op l r).
  split; [exact E|]. split; [exact Hc|].
  assert (Ebuild : build_earlier_left npe cs = Some (Node op l r)).
  { unfold build_earlier_left, build_postfix. rewrite Hvalid, Eb. reflexivity. }
  split; [exact Ebuild|].
  split; [rewrite build_spec_mirror, Ebuild; reflexivity|].
  split; [exact Htext|]. split.
  - intros fuel Hf. eapply rep_to_tree; eauto.
  - intros fuel Hf. rewrite (rep_print _ _ _ _ _ [] Hrep Hf), Htext. reflexivity.
Qed.

(* ================================================================== *)
(** ** calcMinArea on a tree in the store *)

Section Evaluation.
Context {ops : FloatOps}.

Lemma same_shape_refl st : same_shape st st.
Proof. split; [reflexivity|]. intros k n Hk. exists n. auto. Qed.

Lemma same_shape_trans st1 st2 st3 :
  same_shape st1 st2 -> same_shape st2 st3 -> same_shape st1 st3.
Proof.
  intros [Hc1 H1] [Hc2 H2]. split; [congruence|].
  intros k n Hk. destruct (H1 k n Hk) as (n' & Hk' & E1 & E2 & E3 & E4).
  destruct (H2 k n' Hk') as (n'' & Hk'' & F1 & F2 & F3 & F4).
  exists n''. repeat split; congruence.
Qed.

Lemma same_shape_update (f : SNode -> SNode) k st :
  (forall x, isOperator (f x) = isOperator x /\ name (f x) = name x /\
             left (f x) = left x /\ right (f x) = right x) ->
  same_shape st (update f (OpPtr k) st).
Proof.
  intros Hf. split; [reflexivity|]. intros j n Hj. simpl.
  destruct (decide (k = j)) as [->|Hne].
  - exists (f n). rewrite list_lookup_alter_eq, Hj. split; [reflexivity|apply Hf].
  - exists n. rewrite list_lookup_alter_ne by assumption. auto.
Qed.

Lemma deref_same_shape st st' q n :
  same_shape st st' -> deref st q = Some n ->
  exists n', deref st' q = Some n' /\ isOperator n' = isOperator n /\ name n' = name n /\
    left n' = left n /\ right n' = right n.
Proof.
  intros [Hc H] Hq. destruct q as [i|i]; simpl in *.
  - exists n. rewrite Hc. auto.
  - apply H, Hq.
Qed.

Lemma rep_same_shape lo st st' t : forall p,
  same_shape st st' -> rep lo st p t -> rep lo st' p t.
Proof.
  intros p Hs. revert p.
  induction t as [c q|op l IHl r IHr]; intros p H; simpl in *.
  - destruct Hs as [-> _]. exact H.
  - destruct H as (k & n & pl & pr & -> & Hlo & Hk & Hop & Hname & Hl & Hr & Hrl & Hrr).
    destruct (proj2 Hs k n Hk) as (n' & Hk' & E1 & E2 & E3 & E4).
    exists k, n', pl, pr. repeat (split; [solve [auto|congruence]|]). auto.
Qed.

Lemma rep_functional lo st p t1 t2 : rep lo st p t1 -> rep lo st p t2 -> t1 = t2.
Proof.
  intros H1 H2.
  pose proof (rep_to_tree lo st t1 p (Nat.max (tree_height t1) (tree_height t2)) H1
                ltac:(lia)) as E1.
  pose proof (rep_to_tree lo st t2 p (Nat.max (tree_height t1) (tree_height t2)) H2
                ltac:(lia)) as E2.
  congruence.
Qed.

Lemma min_area_spec l :
  l <> [] ->
  exists k best, l !! k = Some best /\ min_area l = fmul (height best) (width best) /\
    (forall q, q ∈ l -> min_area l <= fmul (height q) (width q)).
Proof.
  intros Hne. destruct l as [|b0 l]; [done|]. unfold min_area.
  destruct (scan_best 0 (b0 :: l) 0 b0 (fmul (height b0) (width b0))) as [[bp b] a] eqn:Es.
  destruct (scan_best_spec (b0 :: l) (b0 :: l) 0 0 b0 (fmul (height b0) (width b0)))
    with (bp := bp) (b := b) (a := a) as (H1 & H2 & H3 & H4); auto; try (intros; lia).
  simpl. exists bp, b. auto.
Qed.

(** The node that the body of [calcMinArea] leaves. *)
Lemma calcMinArea_node_min_area this rsizes lsizes :
  merged_sizes (name this) rsizes lsizes <> [] ->
  exists this', calcMinArea_node this rsizes lsizes =
                  Some (this', min_area (merged_sizes (name this) rsizes lsizes)) /\
    sizes this' = merged_sizes (name this) rsizes lsizes /\
    isOperator this' = isOperator this /\ name this' = name this /\
    left this' = left this /\ right this' = right this.
Proof.
  intros Hne. unfold calcMinArea_node, select_best, min_area. simpl sizes.
  destruct (merged_sizes (name this) rsizes lsizes) as [|b0 l]; [done|].
  destruct (scan_best 0 (b0 :: l) 0 b0 (fmul (height b0) (width b0))) as [[bp b] a].
  eexists. split; [reflexivity|]. simpl. auto.
Qed.

Lemma curve_of_tree_nonempty lo st t : forall p,
  rep lo st p t -> cells_have_sizes (cells st) -> curve_of_tree (cells st) t <> [].
Proof.
  induction t as [c q|op l IHl r IHr]; intros p H Hsz; simpl in *.
  - destruct H as (-> & i & n & -> & Hi & _). rewrite Hi.
    unfold cells_have_sizes in Hsz. rewrite Forall_lookup in Hsz. eauto.
  - destruct H as (k & n & pl & pr & _ & _ & _ & _ & _ & _ & _ & Hrl & Hrr).
    apply merged_nonempty; eauto.
Qed.

Lemma keeps_curve_refl cs lo st : keeps_curve cs lo st st.
Proof. intros q n n' t Hq _ Hs Hq'. congruence. Qed.

Lemma keeps_curve_trans cs lo st1 st2 st3 :
  same_shape st1 st2 -> keeps_curve cs lo st1 st2 -> keeps_curve cs lo st2 st3 ->
  keeps_curve cs lo st1 st3.
Proof.
  intros Hs H12 H23 q n n3 t Hq Hrep Hsz Hq3.
  destruct (deref_same_shape _ _ _ _ Hs Hq) as (n2 & Hq2 & _).
  eapply (H23 q n2 n3 t); eauto.
  eapply rep_same_shape; eauto.
Qed.

Lemma stored_root cs st p t :
  stored cs st p t -> exists n, deref st p = Some n /\ sizes n = curve_of_tree cs t.
Proof. destruct t; intros (n & H1 & H2 & _); eauto. Qed.

Lemma stored_keeps cs lo st st' t : forall p,
  same_shape st st' -> keeps_curve cs lo st st' ->
  rep lo st p t -> stored cs st p t -> stored cs st' p t.
Proof.
  intros p Hs Hk. revert p.
  induction t as [c q|op l IHl r IHr]; intros p Hrep (n & Hd & Hsz & Hch).
  - destruct (deref_same_shape _ _ _ _ Hs Hd) as (n' & Hd' & _).
    exists n'. split; [exact Hd'|]. split; [|exact I]. eapply Hk; eauto.
  - destruct (deref_same_shape _ _ _ _ Hs Hd) as (n' & Hd' & _ & _ & El & Er).
    exists n'. split; [exact Hd'|]. split; [eapply Hk; eauto|].
    destruct Hch as (pl & pr & Hl & Hr & Sl & Sr).
    simpl in Hrep.
    destruct Hrep as (k & n0 & pl0 & pr0 & -> & _ & Hk0 & _ & _ & Hl0 & Hr0 & Rl & Rr).
    simpl in Hd. rewrite Hk0 in Hd. injection Hd as ->.
    rewrite Hl in Hl0. injection Hl0 as <-. rewrite Hr in Hr0. injection Hr0 as <-.
    exists pl, pr. split; [congruence|]. split; [congruence|]. split; auto.
Qed.

(** Storing the curve of the tree at a node keeps the curves held. *)
Lemma keeps_curve_store cs lo st k n3 t :
  rep lo st (OpPtr k) t -> sizes n3 = curve_of_tree cs t ->
  keeps_curve cs lo st (update (fun _ => n3) (OpPtr k) st).
Proof.
  intros Hrep Hsz q x x3 tq Hq Hrq Hsq Hq3. destruct q as [i|j].
  - simpl in Hq, Hq3. congruence.
  - simpl in Hq, Hq3. destruct (decide (k = j)) as [->|Hne].
    + rewrite list_lookup_alter_eq, Hq in Hq3. injection Hq3 as <-.
      rewrite (rep_functional _ _ _ _ _ Hrq Hrep). exact Hsz.
    + rewrite list_lookup_alter_ne in Hq3 by assumption. congruence.
Qed.

(** [calcMinArea] on a tree: the statement proved by induction. *)
Lemma calcMinArea_eval cs t : forall lo st p fuel,
  cells st = cs -> rep lo st p t -> (tree_height t <= fuel)%nat -> cells_have_sizes cs ->
  exists st' n',
    calcMinArea fuel st p = Returns st' (tree_cost cs t) /\
    same_shape st st' /\ keeps_curve cs lo st st' /\
    deref st' p = Some n' /\ sizes n' = curve_of_tree cs t /\ stored cs st' p t /\
    match t with
    | Leaf _ _ => st' = st /\ isOperator n' = false
    | Node op tl tr =>
        isOperator n' = true /\
        exists n2 pl pr, name n2 = op /\ left n' = Some pl /\ right n' = Some pr /\
          calcMinArea_node n2 (curve_of_tree cs tr) (curve_of_tree cs tl) =
            Some (n', tree_cost cs t)
    end.
Proof.
  induction t as [c q|op l IHl r IHr]; intros lo st p fuel Hcs Hrep Hfuel Hsz.
  - destruct fuel as [|f]; [simpl in Hfuel; lia|].
    destruct Hrep as (-> & i & n & -> & Hi & Hop & Hn).
    exists st, n. simpl. rewrite Hi, Hop. rewrite <- Hcs, Hi.
    split; [reflexivity|]. split; [apply same_shape_refl|].
    split; [apply keeps_curve_refl|]. split; [reflexivity|]. split; [reflexivity|].
    split; [|auto]. exists n. auto.
  - destruct fuel as [|f]; [simpl in Hfuel; lia|]. simpl in Hfuel.
    pose proof Hrep as Hrep0.
    destruct Hrep as (k & n & pl & pr & -> & Hlo & Hk & Hop & Hname & Hl & Hr & Hrl & Hrr).
    (* one child *)
    assert (Hchild : forall tc, (tree_height tc <= f)%nat ->
      (forall lo st p fuel, cells st = cs -> rep lo st p tc -> (tree_height tc <= fuel)%nat ->
         cells_have_sizes cs ->
         exists st' n',
           calcMinArea fuel st p = Returns st' (tree_cost cs tc) /\
           same_shape st st' /\ keeps_curve cs lo st st' /\
           deref st' p = Some n' /\ sizes n' = curve_of_tree cs tc /\ stored cs st' p tc /\
           match tc with
           | Leaf _ _ => st' = st /\ isOperator n' = false
           | Node op tl tr =>
               isOperator n' = true /\
               exists n2 pl pr, name n2 = op /\ left n' = Some pl /\ right n' = Some pr /\
                 calcMinArea_node n2 (curve_of_tree cs tr) (curve_of_tree cs tl) =
                   Some (n', tree_cost cs tc)
           end) ->
      forall sta pc, cells sta = cs -> rep lo sta pc tc ->
      exists stb cn,
        (forall cont, eval_child (calcMinArea f) sta (Some pc) cont = cont stb) /\
        same_shape sta stb /\ keeps_curve cs lo sta stb /\
        deref stb pc = Some cn /\ sizes cn = curve_of_tree cs tc /\ stored cs stb pc tc).
    { intros tc Hh IH sta pc Hca Hrc.
      destruct (IH lo sta pc f Hca Hrc Hh Hsz)
        as (stb & cn & E & Hs & Hkc & Hd & Hcurve & Hst & Hcase).
      destruct tc as [cc qc|opc lc rc].
      - destruct Hcase as [-> Hnop]. exists sta, cn.
        split; [|auto using same_shape_refl, keeps_curve_refl].
        intros cont. unfold eval_child. rewrite Hd, Hnop. reflexivity.
      - exists stb, cn. split; [|auto].
        intros cont. unfold eval_child.
        destruct Hrc as (kc & nc & plc & prc & -> & _ & Hkc' & Hopc & _).
        simpl deref. rewrite Hkc', Hopc, E. reflexivity. }
    cbn [calcMinArea]. simpl deref. rewrite Hk, Hop.
    set (st0 := update (set_sizes []) (OpPtr k) st).
    assert (Hs0 : same_shape st st0).
    { apply same_shape_update. intros x. auto. }
    assert (Hc0 : cells st0 = cs) by exact Hcs.
    (* the right child *)
    destruct (Hchild r ltac:(lia) IHr st0 pr Hc0 (rep_same_shape _ _ _ _ _ Hs0 Hrr))
      as (st1 & rn1 & E1 & Hs1 & Hkc1 & Hdr1 & Hcr1 & Hstr1).
    rewrite Hr, E1.
    pose proof (same_shape_trans _ _ _ Hs0 Hs1) as Hs01.
    destruct (proj2 Hs01 k n Hk) as (n1 & Hk1 & Eo1 & En1 & El1 & Er1).
    simpl deref. rewrite Hk1, El1, Hl.
    assert (Hc1 : cells st1 = cs) by (rewrite (proj1 Hs01); exact Hcs).
    (* the left child *)
    destruct (Hchild l ltac:(lia) IHl st1 pl Hc1 (rep_same_shape _ _ _ _ _ Hs01 Hrl))
      as (st2 & ln2 & E2 & Hs2 & Hkc2 & Hdl2 & Hcl2 & Hstl2).
    rewrite E2.
    pose proof (same_shape_trans _ _ _ Hs01 Hs2) as Hs02.
    destruct (proj2 Hs02 k n Hk) as (n2 & Hk2 & Eo2 & En2 & El2 & Er2).
    rewrite Hk2, Er2, El2, Hr, Hl.
    destruct (deref_same_shape _ _ _ _ Hs2 Hdr1) as (rn2 & Hdr2 & _).
    assert (Hrr1 : rep lo st1 pr r) by (eapply rep_same_shape; eauto).
    assert (Hcr2 : sizes rn2 = curve_of_tree cs r) by (eapply (Hkc2 pr rn1 rn2 r); eauto).
    assert (Hstr2 : stored cs st2 pr r)
      by exact (stored_keeps cs lo st1 st2 r pr Hs2 Hkc2 Hrr1 Hstr1).
    rewrite Hdr2, Hdl2.
    (* the merge and the scan *)
    assert (Hcurve : curve_of_tree cs (Node op l r) =
                     merged_sizes (name n2) (sizes rn2) (sizes ln2)).
    { simpl. rewrite En2, Hname, Hcr2, Hcl2. reflexivity. }
    assert (Hm : merged_sizes (name n2) (sizes rn2) (sizes ln2) <> []).
    { rewrite <- Hcurve, <- Hcs. eapply curve_of_tree_nonempty; eauto.
      rewrite Hcs. exact Hsz. }
    destruct (calcMinArea_node_min_area n2 (sizes rn2) (sizes ln2) Hm)
      as (n3 & E3 & Hsz3 & Eo3 & En3 & El3 & Er3).
    rewrite E3.
    set (st3 := update (fun _ => n3) (OpPtr k) st2).
    assert (Hrep2 : rep lo st2 (OpPtr k) (Node op l r)) by (eapply rep_same_shape; eauto).
    assert (Hs23 : same_shape st2 st3).
    { split; [reflexivity|]. intros j x Hj. simpl.
      destruct (decide (k = j)) as [->|Hne].
      - exists n3. rewrite list_lookup_alter_eq, Hj. split; [reflexivity|].
        rewrite Hk2 in Hj. injection Hj as <-. auto.
      - exists x. rewrite list_lookup_alter_ne by assumption. auto. }
    assert (Hk23 : keeps_curve cs lo st2 st3).
    { apply (keeps_curve_store cs lo st2 k n3 (Node op l r)); [exact Hrep2|congruence]. }
    exists st3, n3.
    split; [unfold tree_cost; rewrite Hcurve; reflexivity|].
    split; [eapply same_shape_trans; eauto|].
    split; [|split; [|split; [|split]]].
    + intros q x x3 tq Hq Hrq Hsq Hq3.
      destruct q as [i|j].
      * simpl in Hq, Hq3. rewrite (proj1 Hs02) in Hq3. congruence.
      * simpl in Hq3. destruct (decide (k = j)) as [->|Hne].
        -- rewrite list_lookup_alter_eq, Hk2 in Hq3. injection Hq3 as <-.
           rewrite (rep_functional _ _ _ _ _ Hrq Hrep0). congruence.
        -- rewrite list_lookup_alter_ne in Hq3 by assumption.
           assert (Hq0 : deref st0 (OpPtr j) = Some x).
           { simpl. rewrite list_lookup_alter_ne by assumption. exact Hq. }
           refine (keeps_curve_trans cs lo st0 st1 st2 Hs1 Hkc1 Hkc2 (OpPtr j) x x3 tq
                     Hq0 _ Hsq Hq3).
           eapply rep_same_shape; eauto.
    + simpl. rewrite list_lookup_alter_eq, Hk2. reflexivity.
    + congruence.
    + exists n3. split; [simpl; rewrite list_lookup_alter_eq, Hk2; reflexivity|].
      split; [congruence|].
      exists pl, pr. split; [congruence|]. split; [congruence|]. split.
      * apply (stored_keeps cs lo st2 st3 l pl Hs23 Hk23); [|exact Hstl2].
        eapply rep_same_shape; eauto.
      * apply (stored_keeps cs lo st2 st3 r pr Hs23 Hk23); [|exact Hstr2].
        eapply rep_same_shape; eauto.
    + split; [congruence|].
      exists n2, pl, pr. split; [congruence|]. split; [congruence|]. split; [congruence|].
      rewrite <- Hcr2, <- Hcl2, E3. unfold tree_cost. rewrite Hcurve. reflexivity.
Qed.

(** What [cost] has in hand between its two calls. *)
Lemma cost_built npe cs :
  (Z.of_nat (String.length npe) < 2 ^ 31)%Z ->
  isValidNPE npe = true ->
  (0 < count_operators (list_ascii_of_string npe))%nat ->
  name_complete cs npe -> cells_are_operands cs ->
  exists t st,
    generateTree npe cs [] = Returns st (OpPtr 0) /\ cells st = cs /\
    rep 0 st (OpPtr 0) t /\ build_earlier_left npe cs = Some t /\
    postfix t = list_ascii_of_string npe.
Proof.
  intros Hlen Hvalid Hcount Hnc Hcops.
  pose proof (proj1 (isValidNPE_iff npe Hlen) Hvalid) as Hv.
  destruct (valid_NPE_tree (find_cell cs) _ Hv (name_complete_found _ _ Hnc))
    as (t & Eb & Htext & Hwf & Hall).
  destruct (valid_with_operator_is_node _ _ _ Eb Htext Hwf Hcount) as (op & l & r & ->).
  destruct (generateTree_node npe cs [] op l r Hvalid (eq_sym Htext) Hwf Hcops)
    as [Hsucc _].
  destruct (Hsucc Hall) as (st & E & Hc & Hrep).
  exists (Node op l r), st. split; [exact E|]. split; [exact Hc|]. split; [exact Hrep|].
  split; [|exact Htext].
  unfold build_earlier_left, build_postfix. rewrite Hvalid, Eb. reflexivity.
Qed.


(** What [calcMinArea] leaves at an operator node. *)
Lemma calcMinArea_operator cs lo st p op tl tr fuel :
  cells st = cs -> rep lo st p (Node op tl tr) ->
  (tree_height (Node op tl tr) <= fuel)%nat -> cells_have_sizes cs ->
  exists st' n' kb best,
    calcMinArea fuel st p = Returns st' (area n') /\
    same_shape st st' /\ deref st' p = Some n' /\ stored cs st' p (Node op tl tr) /\
    isOperator n' = true /\ name n' = op /\
    sizes n' = merged_sizes op (curve_of_tree cs tr) (curve_of_tree cs tl) /\
    sizes n' <> [] /\
    area n' = tree_cost cs (Node op tl tr) /\
    best_position (sizes n') = Some kb /\
    sizes n' !! kb = Some best /\
    selected n' = Some best /\
    area n' = fmul (height best) (width best) /\
    aspectRatio n' = fdiv (height best) (width best) /\
    (forall q, q ∈ sizes n' -> fmul (height best) (width best) <= fmul (height q) (width q)) /\
    (forall k' q, (k' < kb)%nat -> sizes n' !! k' = Some q ->
       fmul (height best) (width best) < fmul (height q) (width q)).
Proof.
  intros Hcs Hrep Hf Hsz.
  destruct (calcMinArea_eval cs (Node op tl tr) lo st p fuel Hcs Hrep Hf Hsz)
    as (st' & n' & E & Hs & _ & Hd & Hcurve & Hst & Hop & n2 & pl & pr & Hn2 & _ & _ & En).
  assert (Hne : merged_sizes (name n2) (curve_of_tree cs tr) (curve_of_tree cs tl) <> []).
  { rewrite Hn2. change (curve_of_tree cs (Node op tl tr) <> []).
    rewrite <- Hcs. eapply curve_of_tree_nonempty; eauto. rewrite Hcs. exact Hsz. }
  destruct (calcMinArea_node_selects n2 _ _ Hne)
    as (kb & best & n3 & E3 & Hkb & Hbest & Hmin & Hfirst & Hsz3 & Hsel & Harea & Har).
  rewrite En in E3. injection E3 as <- Ea.
  rewrite Hn2 in *.
  exists st', n', kb, best.
  split; [rewrite <- Ea; exact E|]. split; [exact Hs|]. split; [exact Hd|].
  split; [exact Hst|]. split; [exact Hop|]. split.
  { destruct Hrep as (k & n & pl0 & pr0 & -> & _ & Hk & _ & Hname & _).
    destruct (proj2 Hs k n Hk) as (n'' & Hk'' & _ & En'' & _).
    simpl in Hd. congruence. }
  split; [exact Hsz3|]. split; [rewrite Hsz3; exact Hne|]. split; [symmetry; exact Ea|].
  rewrite Hsz3. auto 10.
Qed.

(** C2. When [calcMinArea] evaluates an operator node, it first evaluates
    the children, so that every node below holds the curve of its subtree;
    then the candidate loops, run on the list of the right child and the
    list of the left child, make one call of [addToDimensions] per pair of a
    position [i] in the right list and a position [j] in the left list, the
    pair [(i, j)] at rank [i * |left| + j], no pair twice, and the list of
    the node is what these calls leave, starting from the empty list.  The
    candidate of a pair holds the float sum of the widths and the larger
    height when the node is named V, the larger width and the float sum of
    the heights otherwise (so for H), and the two positions as [rSelected]
    and [lSelected]. *)
Theorem calcMinArea_candidates (lo : nat) (st : store) (p : ptr) (op : ascii)
    (tl tr : tree) (fuel : nat) :
  rep lo st p (Node op tl tr) ->
  (tree_height (Node op tl tr) <= fuel)%nat ->
  cells_have_sizes (cells st) ->
  exists st' a n' pr pl rn ln offered,
    calcMinArea fuel st p = Returns st' a /\
    deref st' p = Some n' /\ isOperator n' = true /\ name n' = op /\
    right n' = Some pr /\ left n' = Some pl /\
    deref st' pr = Some rn /\ deref st' pl = Some ln /\
    stored (cells st) st' pr tr /\ stored (cells st) st' pl tl /\
    merge_loops op (sizes rn) (sizes ln) = mkMergeState (sizes n') offered /\
    sizes n' = offer_all offered [] /\
    length offered = (length (sizes rn) * length (sizes ln))%nat /\
    (forall i j r l, sizes rn !! i = Some r -> sizes ln !! j = Some l ->
       exists c, offered !! (i * length (sizes ln) + j)%nat = Some c /\
         rSelected c = Some i /\ lSelected c = Some j /\
         (op = "V"%char ->
            width c = fadd (width r) (width l) /\ height c = Rmax (height r) (height l)) /\
         (op <> "V"%char ->
            width c = Rmax (width r) (width l) /\ height c = fadd (height r) (height l))) /\
    (forall k c, offered !! k = Some c ->
       exists i j r l, k = (i * length (sizes ln) + j)%nat /\
         sizes rn !! i = Some r /\ sizes ln !! j = Some l /\
         rSelected c = Some i /\ lSelected c = Some j) /\
    NoDup (map (fun c => (rSelected c, lSelected c)) offered).
Proof.
  intros Hrep Hf Hsz.
  destruct (calcMinArea_operator (cells st) lo st p op tl tr fuel eq_refl Hrep Hf Hsz)
    as (st' & n' & kb & best & E & Hs & Hd & Hst & Hop & Hname & Hsizes & _).
  destruct Hst as (n0 & Hd0 & _ & pl & pr & Hl & Hr & Hstl & Hstr).
  rewrite Hd in Hd0. injection Hd0 as <-.
  destruct (stored_root _ _ _ _ Hstl) as (ln & Hdl & Hcl).
  destruct (stored_root _ _ _ _ Hstr) as (rn & Hdr & Hcr).
  rewrite <- Hcr, <- Hcl in Hsizes.
  pose proof (merge_loops_candidates op (sizes rn) (sizes ln)) as Hc. cbv zeta in Hc.
  destruct Hc as (Hlen & Hpair & Hinv & Hnd & Hoff).
  exists st', (area n'), n', pr, pl, rn, ln, (ms_offered (merge_loops op (sizes rn) (sizes ln))).
  do 10 (split; [assumption|]).
  split; [|split; [congruence|auto]].
  rewrite Hsizes. unfold merged_sizes.
  destruct (merge_loops op (sizes rn) (sizes ln)); reflexivity.
Qed.




End Evaluation.


(* ================================================================== *)
(** ** addToDimensions on any list *)

Lemma addToDimensions_loop_any rest : forall kept n,
  (snd (addToDimensions_loop n kept rest) = false <-> exists p, p ∈ rest /\ dominates p n) /\
  (forall p, p ∈ fst (addToDimensions_loop n kept rest) ->
     p ∈ kept \/ p ∈ rest \/ p = n) /\
  (forall p, p ∈ kept \/ p ∈ rest \/ p = n ->
     exists q, q ∈ fst (addToDimensions_loop n kept rest) /\ dominates q p) /\
  (length (fst (addToDimensions_loop n kept rest)) <= length kept + length rest + 1)%nat.
Proof.
  induction rest as [|item rest IH]; intros kept n.
  - simpl. split; [|split; [|split]].
    + split; [discriminate|]. intros (p & Hp & _). inversion Hp.
    + intros p Hp. apply elem_of_app in Hp as [Hp|Hp]; [auto|].
      apply list_elem_of_singleton in Hp. auto.
    + intros p [Hp|[Hp| ->]].
      * exists p. split; [apply elem_of_app; auto|apply dominates_refl].
      * inversion Hp.
      * exists n. split; [apply elem_of_app; right; left|apply dominates_refl].
    + rewrite length_app. simpl. lia.
  - rewrite addToDimensions_loop_eq.
    assert (Hstop : dominates item n ->
      (false = false <-> exists p, p ∈ item :: rest /\ dominates p n) /\
      (forall p, p ∈ kept ++ item :: rest -> p ∈ kept \/ p ∈ item :: rest \/ p = n) /\
      (forall p, p ∈ kept \/ p ∈ item :: rest \/ p = n ->
         exists q, q ∈ kept ++ item :: rest /\ dominates q p) /\
      (length (kept ++ item :: rest) <= length kept + length (item :: rest) + 1)%nat).
    { intros Hd. split; [|split; [|split]].
      - split; [|reflexivity]. intros _. exists item. split; [left|exact Hd].
      - intros p Hp. apply elem_of_app in Hp as [Hp|Hp]; auto.
      - intros p [Hp|[Hp| ->]].
        + exists p. split; [apply elem_of_app; auto|apply dominates_refl].
        + exists p. split; [apply elem_of_app; auto|apply dominates_refl].
        + exists item. split; [apply elem_of_app; right; left|exact Hd].
      - rewrite length_app. lia. }
    destruct (Dimensions_eqb n item) eqn:E1.
    { apply Hstop. apply same_point_dominates, same_point_sym, Dimensions_eqb_true, E1. }
    destruct (dominatesb item n) eqn:E2.
    { apply Hstop, dominatesb_true, E2. }
    apply dominatesb_false in E2.
    destruct (dominatesb n item) eqn:E3.
    + apply dominatesb_true in E3.
      destruct (IH kept n) as (H1 & H2 & H3 & H4). split; [|split; [|split]].
      * rewrite H1. split; intros (p & Hp & Hd).
        -- exists p. split; [right; exact Hp|exact Hd].
        -- apply elem_of_cons in Hp as [->|Hp]; [contradiction|eauto].
      * intros p Hp. destruct (H2 p Hp) as [Hk|[Hr|Hn]]; [auto| |auto].
        right. left. right. exact Hr.
      * intros p [Hp|[Hp| ->]]; [apply H3; auto| |apply H3; auto].
        apply elem_of_cons in Hp as [->|Hp]; [|apply H3; auto].
        destruct (H3 n) as (q & Hq & Hqn); [auto|].
        exists q. split; [exact Hq|eapply dominates_trans; eauto].
      * simpl. lia.
    + destruct (IH (kept ++ [item]) n) as (H1 & H2 & H3 & H4). split; [|split; [|split]].
      * rewrite H1. split; intros (p & Hp & Hd).
        -- exists p. split; [right; exact Hp|exact Hd].
        -- apply elem_of_cons in Hp as [->|Hp]; [contradiction|eauto].
      * intros p Hp. destruct (H2 p Hp) as [Hk|[Hr|Hn]];
          [|right; left; right; exact Hr|auto].
        apply elem_of_app in Hk as [Hk|Hk]; [auto|].
        apply list_elem_of_singleton in Hk as ->. right. left. left.
      * intros p [Hp|[Hp| ->]]; [apply H3; left; apply elem_of_app; auto| |apply H3; auto].
        apply elem_of_cons in Hp as [->|Hp]; [|apply H3; auto].
        apply H3. left. apply elem_of_app. right. left.
      * rewrite length_app in H4. simpl in *. lia.
Qed.

Lemma addToDimensions_covers sizes n p :
  p ∈ sizes \/ p = n -> exists q, q ∈ fst (addToDimensions sizes n) /\ dominates q p.
Proof.
  intros Hp. destruct (addToDimensions_loop_any sizes [] n) as (_ & _ & H & _).
  apply H. tauto.
Qed.

Lemma addToDimensions_length sizes n :
  (length (fst (addToDimensions sizes n)) <= S (length sizes))%nat.
Proof.
  destruct (addToDimensions_loop_any sizes [] n) as (_ & _ & _ & H).
  unfold addToDimensions. simpl in H. lia.
Qed.

Lemma addToDimensions_elements sizes n p :
  p ∈ fst (addToDimensions sizes n) -> p ∈ sizes \/ p = n.
Proof.
  intros Hp. destruct (addToDimensions_loop_any sizes [] n) as (_ & H & _).
  destruct (H p Hp) as [Hk|?]; [inversion Hk|assumption].
Qed.

(** X1. Whatever the list, [addToDimensions] returns false exactly when an
    element of the list equals or weakly dominates the candidate; the
    elements of the new list are elements of the old one or the candidate,
    at most one more than before; and every element of the old list, and the
    candidate, is weakly dominated by an element of the new list: no shape
    is lost without a shape at least as good being kept. *)
Theorem addToDimensions_any_list (sizes : list Dimensions) (n : Dimensions) :
  (snd (addToDimensions sizes n) = false <-> refused sizes n) /\
  (forall p, p ∈ fst (addToDimensions sizes n) -> p ∈ sizes \/ p = n) /\
  (length (fst (addToDimensions sizes n)) <= S (length sizes))%nat /\
  (forall p, p ∈ sizes \/ p = n ->
     exists q, q ∈ fst (addToDimensions sizes n) /\ dominates q p).
Proof.
  split; [|split; [|split]].
  - rewrite refused_iff.
    destruct (addToDimensions_loop_any sizes [] n) as (H & _). exact H.
  - apply addToDimensions_elements.
  - apply addToDimensions_length.
  - intros p. apply addToDimensions_covers.
Qed.

(** X2. On a curve without domination, once a point was offered, offering
    it again, or offering any point it weakly dominates, is refused and
    leaves the list as it is. *)
Theorem addToDimensions_idempotent (sizes : list Dimensions) (n m : Dimensions) :
  no_domination sizes -> dominates n m ->
  addToDimensions (fst (addToDimensions sizes n)) m =
    (fst (addToDimensions sizes n), false).
Proof.
  intros Hinv Hnm.
  apply addToDimensions_refused; [apply addToDimensions_invariant, Hinv|].
  apply refused_iff.
  destruct (addToDimensions_covers sizes n n) as (q & Hq & Hqn); [auto|].
  exists q. split; [exact Hq|]. eapply dominates_trans; eauto.
Qed.

(** X3. Without the invariant a refusal can follow an erasure: when the
    candidate weakly dominates the first element, is not dominated by it,
    and is weakly dominated by the second, the call returns false and the
    first element is gone. *)
Theorem addToDimensions_erases_before_refusing (a b n : Dimensions)
    (rest : list Dimensions) :
  dominates n a -> ~ dominates a n -> dominates b n ->
  addToDimensions (a :: b :: rest) n = (b :: rest, false).
Proof.
  intros Hna Han Hbn. unfold addToDimensions.
  rewrite addToDimensions_loop_eq.
  destruct (Dimensions_eqb n a) eqn:E1.
  { exfalso. apply Han.
    apply same_point_dominates, same_point_sym, Dimensions_eqb_true, E1. }
  rewrite (proj2 (dominatesb_false a n) Han), (proj2 (dominatesb_true n a) Hna).
  rewrite addToDimensions_loop_eq.
  destruct (Dimensions_eqb n b); [reflexivity|].
  rewrite (proj2 (dominatesb_true b n) Hbn). reflexivity.
Qed.


(* ================================================================== *)
(** ** The merged curve of a node *)

Section Merged.
Context {ops : FloatOps}.

Lemma candidate_combine name i r j l :
  let c := (if Ascii.eqb name "V" then candidateV else candidateH) i r j l in
  (width c, height c) = combine name r l /\
  rSelected c = Some i /\ lSelected c = Some j.
Proof.
  unfold combine. destruct (Ascii.eqb name "V"); simpl; rewrite fgeb_max; auto.
Qed.

Lemma offered_elem name rsizes lsizes c :
  c ∈ ms_offered (merge_loops name rsizes lsizes) <->
  exists i j r l, rsizes !! i = Some r /\ lsizes !! j = Some l /\
    c = (if Ascii.eqb name "V" then candidateV else candidateH) i r j l.
Proof.
  split.
  - intros Hc. apply list_elem_of_lookup in Hc as [k Hk].
    apply offered_inv in Hk as (i & j & r & l & _ & Hr & Hl & ->). eauto 8.
  - intros (i & j & r & l & Hr & Hl & ->).
    eapply list_elem_of_lookup_2. apply offered_lookup; eassumption.
Qed.

Lemma offered_point name rsizes lsizes w h :
  (exists c, c ∈ ms_offered (merge_loops name rsizes lsizes) /\ width c = w /\ height c = h) <->
  exists r l, r ∈ rsizes /\ l ∈ lsizes /\ combine name r l = (w, h).
Proof.
  split.
  - intros (c & Hc & Hw & Hh). apply offered_elem in Hc as (i & j & r & l & Hr & Hl & ->).
    destruct (candidate_combine name i r j l) as (E & _). cbv zeta in E.
    exists r, l. split; [eapply list_elem_of_lookup_2; eauto|].
    split; [eapply list_elem_of_lookup_2; eauto|]. rewrite <- E, Hw, Hh. reflexivity.
  - intros (r & l & Hr & Hl & E).
    apply list_elem_of_lookup in Hr as [i Hi]. apply list_elem_of_lookup in Hl as [j Hj].
    exists ((if Ascii.eqb name "V" then candidateV else candidateH) i r j l).
    split; [apply offered_elem; eauto 8|].
    destruct (candidate_combine name i r j l) as (E' & _). cbv zeta in E'.
    rewrite E in E'. injection E' as -> ->. auto.
Qed.

Lemma offer_all_length cands : forall s,
  (length (offer_all cands s) <= length s + length cands)%nat.
Proof.
  induction cands as [|c cands IH]; intros s; simpl; [lia|].
  fold (offer_all cands (fst (addToDimensions s c))).
  specialize (IH (fst (addToDimensions s c))).
  pose proof (addToDimensions_length s c). lia.
Qed.

(** The pairs of the merged curve, read off the children's lists. *)
Lemma merged_points name rsizes lsizes w h :
  has_point (merged_sizes name rsizes lsizes) w h <->
  (exists r l, r ∈ rsizes /\ l ∈ lsizes /\ combine name r l = (w, h)) /\
  (forall r l, r ∈ rsizes -> l ∈ lsizes ->
     fst (combine name r l) <= w -> snd (combine name r l) <= h ->
     combine name r l = (w, h)).
Proof.
  rewrite merged_sizes_offer_all, offer_all_minimal. split.
  - intros (c & Hc & Hw & Hh & Hmin). split.
    + apply offered_point. eauto.
    + intros r l Hr Hl H1 H2.
      destruct (proj2 (offered_point name rsizes lsizes
                         (fst (combine name r l)) (snd (combine name r l))))
        as (c' & Hc' & Hw' & Hh').
      { exists r, l. destruct (combine name r l); auto. }
      destruct (Hmin c' Hc') as [E1 E2].
      { unfold dominates. rewrite Hw', Hh', Hw, Hh. auto. }
      destruct (combine name r l) as [x y]; simpl in *. congruence.
  - intros [Hex Hmin]. apply offered_point in Hex as (c & Hc & Hw & Hh).
    exists c. do 3 (split; [assumption|]).
    intros c' Hc' [Hd1 Hd2].
    destruct (proj1 (offered_point name rsizes lsizes (width c') (height c')))
      as (r & l & Hr & Hl & E); [eauto|].
    specialize (Hmin r l Hr Hl). rewrite E in Hmin. simpl in Hmin.
    assert (E' : (width c', height c') = (w, h)) by (apply Hmin; lra).
    injection E' as E1 E2. split; congruence.
Qed.

(** X4. Every point of the curve merged for a node carries the position of
    a point [r] of the right child's list and of a point [l] of the left
    child's list, and its width and height are those the node's cut makes of
    [r] and [l] (the float sum of the widths and the larger height for V,
    the larger width and the float sum of the heights otherwise); the curve
    has at most one point per pair, and no point of it weakly dominates
    another, whatever the children's lists. *)
Theorem merged_sizes_sources (name : ascii) (rsizes lsizes : list Dimensions) :
  (forall p, p ∈ merged_sizes name rsizes lsizes ->
     exists i j r l,
       rSelected p = Some i /\ lSelected p = Some j /\
       rsizes !! i = Some r /\ lsizes !! j = Some l /\
       (width p, height p) = combine name r l) /\
  (length (merged_sizes name rsizes lsizes) <= length rsizes * length lsizes)%nat /\
  no_domination (merged_sizes name rsizes lsizes).
Proof.
  split; [|split].
  - intros p Hp. rewrite merged_sizes_offer_all in Hp.
    destruct (offer_all_props (ms_offered (merge_loops name rsizes lsizes)) []
                no_domination_nil) as (_ & Hsub & _).
    destruct (Hsub p Hp) as [H0|Hc]; [inversion H0|].
    apply offered_elem in Hc as (i & j & r & l & Hr & Hl & ->).
    destruct (candidate_combine name i r j l) as (E & Hi & Hj).
    exists i, j, r, l. auto.
  - rewrite merged_sizes_offer_all.
    pose proof (offer_all_length (ms_offered (merge_loops name rsizes lsizes)) []) as H.
    rewrite offered_length in H. simpl in H. exact H.
  - apply merged_sizes_no_domination.
Qed.

(** X5. The (width, height) pairs of the merged curve are exactly the
    Pareto-minimal combinations, the sums being float sums: a pair is on
    the curve when some point of the right child and some point of the left
    child combine to it and no two points combine to a pair that is at most
    as wide and at most as high and different. *)
Theorem merged_sizes_pareto (name : ascii) (rsizes lsizes : list Dimensions)
    (w h : float) :
  has_point (merged_sizes name rsizes lsizes) w h <->
  (exists r l, r ∈ rsizes /\ l ∈ lsizes /\ combine name r l = (w, h)) /\
  (forall r l, r ∈ rsizes -> l ∈ lsizes ->
     fst (combine name r l) <= w -> snd (combine name r l) <= h ->
     fst (combine name r l) = w /\ snd (combine name r l) = h).
Proof.
  rewrite merged_points. split; intros [Hex Hmin]; (split; [exact Hex|]);
    intros r l Hr Hl H1 H2.
  - rewrite (Hmin r l Hr Hl H1 H2). auto.
  - destruct (Hmin r l Hr Hl H1 H2) as [E1 E2].
    destruct (combine name r l); simpl in *; congruence.
Qed.

Lemma combine_comm name r l : combine name r l = combine name l r.
Proof.
  unfold combine. destruct (Ascii.eqb name "V");
    rewrite fadd_comm, Rmax_comm; reflexivity.
Qed.

(** X6. Exchanging the two children of a node leaves the same set of
    (width, height) pairs on its curve. *)
Theorem merged_sizes_children_exchanged (name : ascii) (rsizes lsizes : list Dimensions)
    (w h : float) :
  has_point (merged_sizes name rsizes lsizes) w h <->
  has_point (merged_sizes name lsizes rsizes) w h.
Proof.
  rewrite !merged_points. split; intros [(r & l & Hr & Hl & E) Hmin]; split.
  - exists l, r. rewrite combine_comm. auto.
  - intros r' l' Hr' Hl'. rewrite combine_comm. apply Hmin; assumption.
  - exists l, r. rewrite combine_comm. auto.
  - intros r' l' Hr' Hl'. rewrite combine_comm. apply Hmin; assumption.
Qed.

End Merged.

(* ================================================================== *)
(** ** The curve of a cell *)

Section Leaves.
Context {ops : FloatOps}.

Lemma sizes_fixed_cell nm a ar :
  sizes (SNode_cell nm a ar true) =
    [mkDimensions (fsqrt (fmul ar a)) (fdiv a (fsqrt (fmul ar a))) None None].
Proof. reflexivity. Qed.

Lemma sizes_free_cell nm a ar :
  sizes (SNode_free nm a ar) =
    [mkDimensions (fsqrt (fmul ar a)) (fdiv a (fsqrt (fmul ar a))) None None;
     mkDimensions (fdiv a (fsqrt (fmul ar a))) (fsqrt (fmul ar a)) None None].
Proof. reflexivity. Qed.

Lemma no_domination_singleton p : no_domination [p].
Proof. apply no_domination_cons. split; [constructor|apply no_domination_nil]. Qed.

(** The curve of a fixed cell has one point. *)
Lemma fixed_cell_no_domination nm a ar :
  no_domination (sizes (SNode_cell nm a ar true)).
Proof. rewrite sizes_fixed_cell. apply no_domination_singleton. Qed.

(** The list of a free cell is without domination, position by position,
    exactly when the width computed differs from the height computed. *)
Lemma free_cell_no_domination nm a ar :
  no_domination (sizes (SNode_free nm a ar)) <->
  fdiv a (fsqrt (fmul ar a)) <> fsqrt (fmul ar a).
Proof.
  rewrite sizes_free_cell.
  set (h := fsqrt (fmul ar a)). set (w := fdiv a h).
  rewrite no_domination_cons, Forall_singleton. unfold incomparable, dominates. simpl.
  split.
  - intros [[H _] _] E. apply H. lra.
  - intros Hne. split; [|apply no_domination_singleton]. split; intros [H1 H2]; lra.
Qed.

(** A list without domination between its positions has no domination
    between distinct points. *)
Lemma no_domination_antichain l : no_domination l -> antichain l.
Proof.
  intros H p q Hp Hq Hd.
  apply list_elem_of_lookup in Hp as [i Hi]. apply list_elem_of_lookup in Hq as [j Hj].
  destruct (decide (i = j)) as [->|Hne].
  - rewrite Hi in Hj. injection Hj as ->. split; reflexivity.
  - destruct (H i j p q Hne Hi Hj Hd).
Qed.

(** A point and its rotation. *)
Lemma rotated_antichain (h w : float) :
  antichain [mkDimensions h w None None; mkDimensions w h None None].
Proof.
  intros p q Hp Hq [H1 H2].
  apply elem_of_cons in Hp as [->|Hp]; [|apply list_elem_of_singleton in Hp as ->];
    (apply elem_of_cons in Hq as [->|Hq]; [|apply list_elem_of_singleton in Hq as ->]);
    simpl in *; split; simpl; lra.
Qed.

Lemma antichain_nil : antichain [].
Proof. intros p q Hp. inversion Hp. Qed.

Lemma cell_antichain nm a ar fx : antichain (sizes (SNode_cell nm a ar fx)).
Proof.
  destruct fx.
  - apply no_domination_antichain, fixed_cell_no_domination.
  - change (SNode_cell nm a ar false) with (SNode_free nm a ar).
    rewrite sizes_free_cell. apply rotated_antichain.
Qed.

(** C7. Every curve of the program is without a point that weakly
    dominates another, distinct point.  The list of a free cell is the
    point computed by [calcWandH] followed by its rotation; whatever the
    area and the aspect ratio, no one of the two weakly dominates the other
    unless they are the same point, and when the width computed equals the
    height computed (the square cell) the two elements of the list are one
    point.  The list of a fixed cell has a single point, and the list
    merged for an operator node has no domination at all, whatever the
    lists of the children; so the curve of every tree over cells made by
    the constructors, which [calcMinArea] stores node by node, is without
    domination between distinct points. *)
Theorem calcWandH_no_domination (nm : ascii) (a ar : float) (fx : bool) :
  let h := fsqrt (fmul ar a) in
  let w := fdiv a h in
  sizes (SNode_free nm a ar) =
    [mkDimensions h w None None; mkDimensions w h None None] /\
  antichain (sizes (SNode_free nm a ar)) /\
  (w = h -> forall p, p ∈ sizes (SNode_free nm a ar) -> width p = h /\ height p = h) /\
  (w <> h -> no_domination (sizes (SNode_free nm a ar))) /\
  antichain (sizes (SNode_cell nm a ar fx)) /\
  (forall name rsizes lsizes, antichain (merged_sizes name rsizes lsizes)) /\
  (forall cs t,
     Forall (fun n => exists nm' a' ar' fx', n = SNode_cell nm' a' ar' fx') cs ->
     antichain (curve_of_tree cs t)).
Proof.
  intros h w.
  split; [apply sizes_free_cell|].
  split; [rewrite sizes_free_cell; apply rotated_antichain|].
  split.
  { intros E p Hp. rewrite sizes_free_cell in Hp. fold h w in Hp.
    apply elem_of_cons in Hp as [->|Hp]; [|apply list_elem_of_singleton in Hp as ->];
      simpl; auto. }
  split; [intros Hne; apply free_cell_no_domination; exact Hne|].
  split.
  - apply cell_antichain.
  - split.
    + intros name rsizes lsizes.
      apply no_domination_antichain, merged_sizes_no_domination.
    + intros cs t Hcs. destruct t as [c [i|i]|op tl tr]; simpl.
      * destruct (cs !! i) as [n|] eqn:Ei; [|apply antichain_nil].
        rewrite Forall_lookup in Hcs.
        destruct (Hcs i n Ei) as (nm' & a' & ar' & fx' & ->).
        apply cell_antichain.
      * apply antichain_nil.
      * apply no_domination_antichain, merged_sizes_no_domination.
Qed.

(** X8. What the constructors of a cell leave: the fields as given, no
    links, one point when the cell is fixed and two when it is free, the
    second being the first with width and height exchanged; the height is
    the float square root of the float product of aspect ratio and area,
    the width the float quotient of the area by that height.  The list is
    without domination between its positions exactly when the cell is
    fixed or the width computed differs from the height computed. *)
Theorem calcWandH_points (nm : ascii) (a ar : float) (fx : bool) :
  let h := fsqrt (fmul ar a) in
  let w := fdiv a h in
  let c := SNode_cell nm a ar fx in
  isOperator c = false /\ fixed c = fx /\ name c = nm /\ area c = a /\
  aspectRatio c = ar /\ right c = None /\ left c = None /\ parent c = None /\
  sizes c = mkDimensions h w None None ::
            (if fx then [] else [mkDimensions w h None None]) /\
  SNode_free nm a ar = SNode_cell nm a ar false /\
  (no_domination (sizes c) <-> fx = true \/ w <> h).
Proof.
  intros h w c. unfold c.
  do 9 (split; [destruct fx; reflexivity|]).
  split; [reflexivity|].
  destruct fx.
  - split; [auto|]. intros _. apply fixed_cell_no_domination.
  - change (SNode_cell nm a ar false) with (SNode_free nm a ar).
    rewrite free_cell_no_domination. fold h w.
    split; [auto|]. intros [H|H]; [discriminate|exact H].
Qed.

End Leaves.

(* ================================================================== *)
(** ** The search for a cell, with names that repeat *)

Lemma find_cell_loop_snoc l : forall x i c child,
  find_cell_loop (l ++ [x]) i c child =
    if Ascii.eqb (name x) c then Some (CellPtr (i + length l))
    else find_cell_loop l i c child.
Proof.
  induction l as [|y l IH]; intros x i c child; simpl.
  - rewrite Nat.add_0_r. reflexivity.
  - rewrite IH. replace (S i + length l)%nat with (i + S (length l))%nat by lia.
    reflexivity.
Qed.

(** X9. The search returns the last cell of the list that has the name,
    and nothing when no cell has it: of two cells with one name the later
    one is used, and the pointer is always one into the list of cells. *)
Theorem find_cell_last_match (cs : list SNode) (c : ascii) :
  (forall i, find_cell cs c = Some (CellPtr i) <->
     (exists n, cs !! i = Some n /\ name n = c) /\
     (forall j m, (i < j)%nat -> cs !! j = Some m -> name m <> c)) /\
  (find_cell cs c = None <-> forall n, n ∈ cs -> name n <> c) /\
  (forall k, find_cell cs c <> Some (OpPtr k)).
Proof.
  unfold find_cell. induction cs as [|x cs IH] using rev_ind.
  - simpl. split; [|split].
    + intros i. split; [discriminate|]. intros [(n & Hn & _) _].
      rewrite lookup_nil in Hn. discriminate.
    + split; [|reflexivity]. intros _ n Hn. inversion Hn.
    + discriminate.
  - destruct IH as (IH1 & IH2 & IH3). rewrite find_cell_loop_snoc. simpl.
    destruct (Ascii.eqb_spec (name x) c) as [Hx|Hx].
    + split; [|split].
      * intros i. split.
        -- intros [= <-]. split.
           ++ exists x. rewrite lookup_app_r by lia.
              rewrite Nat.sub_diag. auto.
           ++ intros j m Hj Hm. apply lookup_lt_Some in Hm.
              rewrite length_app in Hm. simpl in Hm. lia.
        -- intros [(n & Hn & Hname) Hlast].
           destruct (decide (i = length cs)) as [->|Hne]; [reflexivity|].
           exfalso. pose proof (lookup_lt_Some _ _ _ Hn) as Hlt.
           rewrite length_app in Hlt. simpl in Hlt.
           apply (Hlast (length cs) x); [lia| |exact Hx].
           rewrite lookup_app_r by lia. rewrite Nat.sub_diag. reflexivity.
      * split; [discriminate|]. intros H. exfalso.
        apply (H x); [apply elem_of_app; right; left|exact Hx].
      * discriminate.
    + split; [|split].
      * intros i. rewrite IH1. split; intros [(n & Hn & Hname) Hlast].
        -- split.
           ++ exists n. rewrite lookup_app_l by (eapply lookup_lt_Some; eauto). auto.
           ++ intros j m Hj Hm.
              destruct (decide (j < length cs)%nat) as [Hlt|Hge].
              ** rewrite lookup_app_l in Hm by assumption. eapply Hlast; eauto.
              ** rewrite lookup_app_r in Hm by lia.
                 destruct (j - length cs)%nat; simpl in Hm; [|done].
                 injection Hm as <-. exact Hx.
        -- assert (Hi : (i < length cs)%nat).
           { destruct (decide (i < length cs)%nat) as [|Hge]; [assumption|].
             exfalso. rewrite lookup_app_r in Hn by lia.
             destruct (i - length cs)%nat; simpl in Hn; [|done].
             injection Hn as <-. contradiction. }
           rewrite lookup_app_l in Hn by assumption. split; [eauto|].
           intros j m Hj Hm. apply (Hlast j m Hj).
           rewrite lookup_app_l by (eapply lookup_lt_Some; eauto). exact Hm.
      * rewrite IH2. split; intros H n Hn.
        -- apply elem_of_app in Hn as [Hn|Hn]; [auto|].
           apply list_elem_of_singleton in Hn as ->. exact Hx.
        -- apply H. apply elem_of_app. auto.
      * exact IH3.
Qed.


(* ================================================================== *)
(** ** The shape of a valid expression *)

Lemma valid_NPE_length s :
  valid_NPE s -> (length s = 2 * count_operands s - 1)%nat /\ (1 <= count_operands s)%nat.
Proof.
  intros (_ & _ & _ & Hc). unfold operators_one_less, count_from in Hc.
  pose proof (count_operands_operators s). lia.
Qed.

Lemma count_single c :
  count_operators [c] = (if is_operator_char c then 1 else 0)%nat /\
  count_operands [c] = (if is_operator_char c then 0 else 1)%nat.
Proof.
  unfold count_operators, count_operands. simpl. destruct (is_operator_char c); auto.
Qed.

(** X10. An expression that [isValidNPE] accepts is not empty, has an odd
    number of characters, twice its number of operands less one, and begins
    with an operand; when it has more than one character it has at least
    three, its second character is an operand and its last character an
    operator. *)
Theorem isValidNPE_shape (npe : string) :
  (Z.of_nat (String.length npe) < 2 ^ 31)%Z ->
  isValidNPE npe = true ->
  (String.length npe = 2 * count_operands (list_ascii_of_string npe) - 1)%nat /\
  (1 <= count_operands (list_ascii_of_string npe))%nat /\
  (exists c, head (list_ascii_of_string npe) = Some c /\ is_operator_char c = false) /\
  ((1 < String.length npe)%nat ->
     (3 <= String.length npe)%nat /\
     (exists c, list_ascii_of_string npe !! 1%nat = Some c /\ is_operator_char c = false) /\
     (exists c, last (list_ascii_of_string npe) = Some c /\ is_operator_char c = true)).
Proof.
  intros Hlen Hvalid.
  pose proof (proj1 (isValidNPE_iff npe Hlen) Hvalid) as Hv.
  rewrite <- (length_list_ascii_of_string npe).
  remember (list_ascii_of_string npe) as s eqn:Es. clear Es Hvalid Hlen.
  destruct (valid_NPE_length s Hv) as [Hl Hn].
  destruct Hv as (_ & _ & Hbal & Hcount).
  unfold balloting, balloting_from in Hbal. unfold operators_one_less, count_from in Hcount.
  split; [exact Hl|]. split; [exact Hn|].
  assert (Hhead : exists c, head s = Some c /\ is_operator_char c = false).
  { destruct s as [|c s']; [unfold count_operands in Hn; simpl in Hn; lia|].
    exists c. split; [reflexivity|].
    assert (Hk : (0 < 1 <= length (c :: s'))%nat) by (simpl; lia).
    specialize (Hbal 1%nat Hk). simpl in Hbal. rewrite take_0 in Hbal.
    destruct (count_single c) as [E1 E2]. rewrite E1, E2 in Hbal.
    destruct (is_operator_char c); [lia|reflexivity]. }
  split; [exact Hhead|].
  intros Hlong. split; [lia|]. split.
  - destruct s as [|c [|d s']]; simpl in Hlong; try lia.
    exists d. split; [reflexivity|].
    destruct Hhead as (c0 & [= <-] & Hc).
    assert (Hk : (0 < 2 <= length (c :: d :: s'))%nat) by (simpl; lia).
    specialize (Hbal 2%nat Hk). simpl in Hbal. rewrite take_0 in Hbal.
    rewrite count_operators_cons, count_operands_cons, Hc in Hbal.
    destruct (count_single d) as [E1 E2]. rewrite E1, E2 in Hbal.
    destruct (is_operator_char d); [lia|reflexivity].
  - assert (Hne : s <> []) by (intros E; rewrite E in Hlong; simpl in Hlong; lia).
    destruct (exists_last Hne) as (s' & c & E).
    exists c. rewrite E. split; [apply last_snoc|].
    rewrite E, length_app in Hlong. simpl in Hlong.
    assert (Hk : (0 < length s' <= length s)%nat).
    { rewrite E, length_app. simpl. lia. }
    specialize (Hbal (length s') Hk).
    rewrite E, take_app_length in Hbal.
    rewrite E, count_operators_app, count_operands_app in Hcount.
    destruct (count_single c) as [E1 E2]. rewrite E1, E2 in Hcount.
    destruct (is_operator_char c); [reflexivity|lia].
Qed.

(* ================================================================== *)
(** ** The text of a tree, validated *)

Lemma balloting_from_nil a b : balloting_from a b [].
Proof. intros k Hk. simpl in Hk. lia. Qed.

Lemma balloting_from_app s1 : forall a b s2,
  balloting_from a b (s1 ++ s2) <->
  balloting_from a b s1 /\
  balloting_from (a + count_operands s1) (b + count_operators s1) s2.
Proof.
  induction s1 as [|c s1 IH]; intros a b s2.
  - simpl. change (count_operands []) with 0%nat. change (count_operators []) with 0%nat.
    rewrite !Nat.add_0_r. split; [intros H; split; [apply balloting_from_nil|exact H]|tauto].
  - simpl app. rewrite !balloting_from_cons. cbv zeta. rewrite IH.
    rewrite count_operands_cons, count_operators_cons.
    replace ((if is_operator_char c then 0 else 1) + a + count_operands s1)%nat
      with (a + ((if is_operator_char c then 0 else 1) + count_operands s1))%nat by lia.
    replace ((if is_operator_char c then 1 else 0) + b + count_operators s1)%nat
      with (b + ((if is_operator_char c then 1 else 0) + count_operators s1))%nat by lia.
    tauto.
Qed.

Lemma postfix_counts t :
  wf_tree t ->
  count_operands (postfix t) = S (count_operators (postfix t)) /\
  List.filter (fun c => negb (is_operator_char c)) (postfix t) = leaf_names t.
Proof.
  induction t as [c q|op l IHl r IHr]; simpl.
  - intros Hc. destruct (count_single c) as [E1 E2]. rewrite E1, E2, Hc. auto.
  - intros (Hop & Hwl & Hwr).
    destruct (IHl Hwl) as [El Fl]. destruct (IHr Hwr) as [Er Fr].
    rewrite !count_operands_app, !count_operators_app, !List.filter_app, Fl, Fr.
    destruct (count_single op) as [E1 E2]. rewrite E1, E2, Hop. simpl.
    rewrite Hop. simpl. rewrite app_nil_r. split; [lia|reflexivity].
Qed.

Lemma postfix_balloting t : wf_tree t -> forall a b,
  (b <= a)%nat -> balloting_from a b (postfix t).
Proof.
  induction t as [c q|op l IHl r IHr]; simpl.
  - intros Hc a b Hab. apply balloting_from_cons. cbv zeta. rewrite Hc.
    split; [lia|apply balloting_from_nil].
  - intros (Hop & Hwl & Hwr) a b Hab.
    destruct (postfix_counts l Hwl) as [El _]. destruct (postfix_counts r Hwr) as [Er _].
    apply balloting_from_app. split; [apply IHl; assumption|].
    apply balloting_from_app. split; [apply IHr; [assumption|lia]|].
    apply balloting_from_cons. cbv zeta. rewrite Hop.
    split; [lia|apply balloting_from_nil].
Qed.

Lemma operands_unique_NoDup s :
  operands_unique s <-> NoDup (List.filter (fun c => negb (is_operator_char c)) s).
Proof.
  induction s as [|c s IH].
  - simpl. split; [constructor|]. intros _ d _ Hd. inversion Hd.
  - rewrite operands_unique_cons, IH. simpl.
    destruct (is_operator_char c) eqn:Ec; simpl.
    + split; [tauto|]. intros H. split; [discriminate|exact H].
    + rewrite NoDup_cons.
      assert (E : c ∈ List.filter (fun c0 => negb (is_operator_char c0)) s <-> c ∈ s).
      { rewrite !list_elem_of_In, filter_In, Ec. simpl. tauto. }
      rewrite E. split; [intros [H1 H2]; auto|intros [H1 H2]; auto].
Qed.

Lemma no_repeated_operator_nil : no_repeated_operator [].
Proof. intros i c _ H. rewrite lookup_nil in H. discriminate. Qed.

Lemma no_repeated_operator_app s1 : forall s2,
  no_repeated_operator (s1 ++ s2) <->
  no_repeated_operator s1 /\ no_repeated_operator s2 /\
  (forall c, last s1 = Some c -> is_operator_char c = true -> head s2 <> Some c).
Proof.
  induction s1 as [|c s1 IH]; intros s2.
  - simpl. split.
    + intros H. split; [apply no_repeated_operator_nil|]. split; [exact H|discriminate].
    + tauto.
  - simpl app. rewrite !no_repeated_operator_cons, IH.
    destruct s1 as [|d s1].
    + simpl. split.
      * intros (H1 & _ & H2 & _).
        split; [split; [discriminate|apply no_repeated_operator_nil]|].
        split; [exact H2|]. intros c' [= <-]. exact H1.
      * intros (_ & H2 & H3).
        split; [apply H3; reflexivity|].
        split; [apply no_repeated_operator_nil|]. split; [exact H2|discriminate].
    + change (last (c :: d :: s1)) with (last (d :: s1)). simpl head. tauto.
Qed.

Lemma postfix_ends t :
  wf_tree t ->
  (exists c, head (postfix t) = Some c /\ is_operator_char c = false) /\
  last (postfix t) = Some (match t with Leaf c _ => c | Node op _ _ => op end).
Proof.
  induction t as [c q|op l IHl r IHr]; simpl.
  - intros Hc. split; [eauto|reflexivity].
  - intros (Hop & Hwl & Hwr). destruct (IHl Hwl) as [(c & Hc & Hnop) _]. split.
    + exists c. destruct (postfix l); [discriminate|]. simpl in *. auto.
    + rewrite app_assoc. apply last_snoc.
Qed.

Lemma postfix_no_repeated t :
  wf_tree t -> (no_repeated_operator (postfix t) <-> normalized t).
Proof.
  induction t as [c q|op l IHl r IHr]; simpl.
  - intros _. split; [auto|]. intros _.
    apply no_repeated_operator_cons. split; [discriminate|apply no_repeated_operator_nil].
  - intros (Hop & Hwl & Hwr).
    destruct (postfix_ends l Hwl) as [_ Hlastl].
    destruct (postfix_ends r Hwr) as [(d & Hd & Hdop) Hlastr].
    rewrite !no_repeated_operator_app, (IHl Hwl), (IHr Hwr).
    assert (Hhead : head (postfix r ++ [op]) = Some d).
    { destruct (postfix r); [discriminate|exact Hd]. }
    rewrite Hhead, Hlastr. simpl head.
    assert (Hone : no_repeated_operator [op]).
    { apply no_repeated_operator_cons. split; [discriminate|apply no_repeated_operator_nil]. }
    split.
    + intros (Hnl & (Hnr & _ & Hb) & _). split; [exact Hnl|]. split; [exact Hnr|].
      destruct r as [cr qr|opr lr rr]; [exact I|].
      intros E. apply (Hb opr); [reflexivity|simpl in Hwr; tauto|simpl; congruence].
    + intros (Hnl & Hnr & Hb). split; [exact Hnl|]. split.
      * split; [exact Hnr|]. split; [exact Hone|].
        intros c [= <-] Hc. destruct r as [cr qr|opr lr rr].
        -- simpl in Hwr. congruence.
        -- simpl. intros [= E]. apply Hb. congruence.
      * intros c _ Hc [= <-]. congruence.
Qed.

Lemma postfix_valid_iff t :
  wf_tree t -> (valid_NPE (postfix t) <-> NoDup (leaf_names t) /\ normalized t).
Proof.
  intros Hwf. unfold valid_NPE.
  destruct (postfix_counts t Hwf) as [Ec Ef].
  rewrite operands_unique_NoDup, Ef, (postfix_no_repeated t Hwf).
  assert (Hb : balloting (postfix t)) by (apply postfix_balloting; [assumption|lia]).
  assert (Hc : operators_one_less (postfix t)).
  { unfold operators_one_less, count_from. lia. }
  tauto.
Qed.

(** X11. The text that [operator<<] writes for a tree with operators at
    its nodes and operands at its leaves is accepted by [isValidNPE] exactly
    when the operands of the leaves are all different and no node has a
    right child with the node's own operator. *)
Theorem isValidNPE_postfix (t : tree) :
  wf_tree t ->
  (Z.of_nat (length (postfix t)) < 2 ^ 31)%Z ->
  (isValidNPE (string_of_list_ascii (postfix t)) = true <->
     NoDup (leaf_names t) /\ normalized t).
Proof.
  intros Hwf Hlen.
  rewrite isValidNPE_iff.
  - rewrite list_ascii_of_string_of_list_ascii. apply postfix_valid_iff, Hwf.
  - rewrite <- length_list_ascii_of_string, list_ascii_of_string_of_list_ascii.
    exact Hlen.
Qed.

(* ================================================================== *)
(** ** generateTree after operator<<, and the list of operators *)

Lemma tree_height_postfix t : (tree_height t <= length (postfix t))%nat.
Proof.
  induction t as [c q|op l IHl r IHr]; simpl; [lia|].
  rewrite !length_app. simpl. lia.
Qed.

(** X12. Reading back what [operator<<] wrote.  For a tree with an operator
    at the root, operators at the nodes and operands at the leaves, whose
    operands are all different, where no node has a right child with the
    node's own operator and every leaf is the cell the search finds for its
    operand, [generateTree] on the text of the tree returns a store that
    holds this very tree at the first element of [operators], and the cells
    as they were. *)
Theorem generateTree_round_trip (cs operators0 : list SNode) (op : ascii) (l r : tree) :
  wf_tree (Node op l r) ->
  NoDup (leaf_names (Node op l r)) -> normalized (Node op l r) ->
  all_found (find_cell cs) (Node op l r) ->
  cells_are_operands cs ->
  (Z.of_nat (length (postfix (Node op l r))) < 2 ^ 31)%Z ->
  exists st,
    generateTree (string_of_list_ascii (postfix (Node op l r))) cs operators0 =
      Returns st (OpPtr 0) /\
    cells st = cs /\
    forall fuel, (tree_height (Node op l r) <= fuel)%nat ->
      to_tree fuel st (OpPtr 0) = Some (Node op l r) /\
      print fuel st (OpPtr 0) [] = Returns (postfix (Node op l r)) tt.
Proof.
  intros Hwf Hnd Hnorm Hall Hcops Hlen.
  set (t := Node op l r) in *.
  set (npe := string_of_list_ascii (postfix t)).
  assert (Htext : list_ascii_of_string npe = postfix t)
    by apply list_ascii_of_string_of_list_ascii.
  assert (Hvalid : isValidNPE npe = true).
  { apply isValidNPE_iff.
    - rewrite <- length_list_ascii_of_string, Htext. exact Hlen.
    - rewrite Htext. apply postfix_valid_iff; auto. }
  destruct (generateTree_node npe cs operators0 op l r Hvalid Htext Hwf Hcops)
    as [Hsucc _].
  destruct (Hsucc Hall) as (st & E & Hc & Hrep).
  exists st. split; [exact E|]. split; [exact Hc|].
  intros fuel Hf. split.
  - eapply rep_to_tree; eauto.
  - rewrite (rep_print _ _ _ _ _ [] Hrep Hf). reflexivity.
Qed.

(** *** The nodes that generateTree makes *)

Lemma fresh_operator_SNode_op c : fresh_operator (SNode_op c).
Proof. repeat split. Qed.

Lemma map_name_alter (f : SNode -> SNode) k (l : list SNode) :
  (forall x, name (f x) = name x) -> map name (alter f k l) = map name l.
Proof.
  intros Hf. revert k. induction l as [|x l IH]; intros [|k]; simpl; auto.
  - rewrite Hf. reflexivity.
  - f_equal. apply IH.
Qed.

Lemma fresh_alter (f : SNode -> SNode) k (l : list SNode) :
  (forall x, fresh_operator x -> fresh_operator (f x)) ->
  Forall fresh_operator l -> Forall fresh_operator (alter f k l).
Proof.
  intros Hf Hl. apply Forall_alter; [exact Hl|]. intros x _. apply Hf.
Qed.

Lemma parents_alter (f : SNode -> SNode) k st :
  (forall x q, parent (f x) = Some q -> parent x = Some q \/ exists j, q = OpPtr j) ->
  parents_are_operators st ->
  parents_are_operators (update f (OpPtr k) st).
Proof.
  intros Hf Hp j n q Hj Hq. simpl in Hj.
  destruct (decide (k = j)) as [->|Hne].
  - rewrite list_lookup_alter_eq in Hj.
    destruct (operators st !! j) as [x|] eqn:Ex; simpl in Hj; [|discriminate].
    injection Hj as <-. destruct (Hf x q Hq) as [Hx|Hx]; [|exact Hx].
    eapply Hp; eauto.
  - rewrite list_lookup_alter_ne in Hj by assumption. eapply Hp; eauto.
Qed.

Lemma parents_push c st :
  parents_are_operators st -> parents_are_operators (push_operator (SNode_op c) st).
Proof.
  intros Hp j n q Hj Hq. simpl in Hj.
  apply lookup_app_Some in Hj as [Hj|[_ Hj]]; [eapply Hp; eauto|].
  apply list_lookup_singleton_Some in Hj as [_ <-]. discriminate.
Qed.

Lemma climb_operator fuel : forall st k s p,
  parents_are_operators st ->
  climb fuel st (OpPtr k) = Returns s p -> s = st /\ exists j, p = OpPtr j.
Proof.
  induction fuel as [|fuel IH]; intros st k s p Hp E; [discriminate|].
  cbn [climb deref] in E.
  destruct (operators st !! k) as [n|] eqn:Ek; [|discriminate].
  destruct (negb (ptr_eqb (OpPtr k) (OpPtr 0)) && bool_decide (left n <> None)).
  - destruct (parent n) as [q|] eqn:Eq; [|discriminate].
    destruct (Hp k n q Ek Eq) as [j ->]. eapply IH; eauto.
  - injection E as <- <-. eauto.
Qed.

Lemma climb_no_throw fuel : forall st p s m, climb fuel st p <> Throws s m.
Proof.
  induction fuel as [|fuel IH]; intros st p s m; [discriminate|].
  cbn [climb].
  destruct (deref st p) as [n|]; [|discriminate].
  destruct (negb (ptr_eqb p (OpPtr 0)) && bool_decide (left n <> None)); [|discriminate].
  destruct (parent n); [apply IH|discriminate].
Qed.

(** The loop, whatever the characters: the cells are not written, every
    operator read adds one fresh node with its name, and the exception is
    thrown at the first operand without a cell. *)
Lemma generateTree_loop_operators chars : forall st k,
  parents_are_operators st -> Forall fresh_operator (operators st) ->
  match generateTree_loop chars st (OpPtr k) with
  | Returns st' _ =>
      cells st' = cells st /\ Forall fresh_operator (operators st') /\
      parents_are_operators st' /\
      map name (operators st') =
        map name (operators st) ++ List.filter is_operator_char chars /\
      (forall c, c ∈ chars -> is_operator_char c = false ->
         find_cell (cells st) c <> None)
  | Throws st' m =>
      m = "Cell data not valid!"%string /\
      cells st' = cells st /\ Forall fresh_operator (operators st') /\
      exists pre c suf, chars = pre ++ c :: suf /\
        is_operator_char c = false /\ find_cell (cells st) c = None /\
        (forall d, d ∈ pre -> is_operator_char d = false ->
           find_cell (cells st) d <> None) /\
        map name (operators st') =
          map name (operators st) ++ List.filter is_operator_char pre
  | Undefined => True
  | OutOfFuel => True
  end.
Proof.
  induction chars as [|c chars IH]; intros st k Hp Hf.
  - simpl. rewrite app_nil_r. repeat split; auto. intros c Hc. inversion Hc.
  - cbn [generateTree_loop]. destruct (is_operator_char c) eqn:Ec.
    + (* an operator *)
      set (st1 := push_operator (SNode_op c) st).
      destruct (deref st1 (OpPtr k)) as [cur|] eqn:Ecur; [|exact I].
      set (back := length (operators st)).
      assert (Hstep : forall setter : option ptr -> SNode -> SNode,
                (forall v x, name (setter v x) = name x) ->
                (forall v x, fresh_operator x -> fresh_operator (setter v x)) ->
                (forall v x, parent (setter v x) = parent x) ->
                let st2 := update (set_parent (Some (OpPtr k))) (OpPtr back)
                             (update (setter (Some (OpPtr back))) (OpPtr k) st1) in
                cells st2 = cells st /\ Forall fresh_operator (operators st2) /\
                parents_are_operators st2 /\
                map name (operators st2) = map name (operators st) ++ [c]).
      { intros setter Hn Hfr Hpa st2.
        split; [reflexivity|]. split; [|split].
        - simpl.
          apply fresh_alter; [intros x (H1 & H2 & H3 & H4); repeat split; assumption|].
          apply fresh_alter; [apply Hfr|].
          apply Forall_app. split; [exact Hf|].
          constructor; [apply fresh_operator_SNode_op|constructor].
        - apply parents_alter.
          + intros x q [= <-]. right. eauto.
          + apply parents_alter.
            * intros x q Hq. left. rewrite Hpa in Hq. exact Hq.
            * apply parents_push, Hp.
        - simpl. rewrite !map_name_alter by (intros; auto).
          rewrite map_app. reflexivity. }
      assert (Hgo : forall st2,
                cells st2 = cells st /\ Forall fresh_operator (operators st2) /\
                parents_are_operators st2 /\
                map name (operators st2) = map name (operators st) ++ [c] ->
                match generateTree_loop chars st2 (OpPtr back) with
                | Returns st' _ =>
                    cells st' = cells st /\ Forall fresh_operator (operators st') /\
                    parents_are_operators st' /\
                    map name (operators st') =
                      map name (operators st) ++ List.filter is_operator_char (c :: chars) /\
                    (forall d, d ∈ c :: chars -> is_operator_char d = false ->
                       find_cell (cells st) d <> None)
                | Throws st' m =>
                    m = "Cell data not valid!"%string /\
                    cells st' = cells st /\ Forall fresh_operator (operators st') /\
                    exists pre d suf, c :: chars = pre ++ d :: suf /\
                      is_operator_char d = false /\ find_cell (cells st) d = None /\
                      (forall e, e ∈ pre -> is_operator_char e = false ->
                         find_cell (cells st) e <> None) /\
                      map name (operators st') =
                        map name (operators st) ++ List.filter is_operator_char pre
                | Undefined => True
                | OutOfFuel => True
                end).
      { intros st2 (Hc2 & Hf2 & Hp2 & Hn2).
        specialize (IH st2 back Hp2 Hf2).
        destruct (generateTree_loop chars st2 (OpPtr back)) as [st' u|st' m| |]; auto.
        - destruct IH as (H1 & H2 & H3 & H4 & H5).
          split; [congruence|]. split; [exact H2|]. split; [exact H3|]. split.
          + rewrite H4, Hn2. simpl. rewrite Ec, <- app_assoc. reflexivity.
          + intros d Hd Hdo. apply elem_of_cons in Hd as [->|Hd]; [congruence|].
            rewrite <- Hc2. apply H5; assumption.
        - destruct IH as (H1 & H2 & H3 & pre & d & suf & H4 & H5 & H6 & H7 & H8).
          split; [exact H1|]. split; [congruence|]. split; [exact H3|].
          exists (c :: pre), d, suf. split; [rewrite H4; reflexivity|].
          split; [exact H5|]. split; [congruence|]. split.
          + intros e He Heo. apply elem_of_cons in He as [->|He]; [congruence|].
            rewrite <- Hc2. apply H7; assumption.
          + rewrite H8, Hn2. simpl. rewrite Ec, <- app_assoc. reflexivity. }
      destruct (bool_decide (right cur <> None)).
      * apply Hgo. apply (Hstep set_left); intros; auto.
      * apply Hgo. apply (Hstep set_right); intros; auto.
    + (* an operand *)
      destruct (find_cell (cells st) c) as [child|] eqn:Efind.
      * destruct (deref st (OpPtr k)) as [cur|] eqn:Ecur; [|exact I].
        assert (Hstep : forall setter : option ptr -> SNode -> SNode,
                  (forall v x, name (setter v x) = name x) ->
                  (forall v x, fresh_operator x -> fresh_operator (setter v x)) ->
                  (forall v x, parent (setter v x) = parent x) ->
                  let st1 := update (setter (Some child)) (OpPtr k) st in
                  cells st1 = cells st /\ Forall fresh_operator (operators st1) /\
                  parents_are_operators st1 /\
                  map name (operators st1) = map name (operators st)).
        { intros setter Hn Hfr Hpa st1.
          split; [reflexivity|]. split; [|split].
          - simpl. apply fresh_alter; [apply Hfr|exact Hf].
          - apply parents_alter; [|exact Hp].
            intros x q Hq. left. rewrite Hpa in Hq. exact Hq.
          - simpl. apply map_name_alter. intros; auto. }
        assert (Hgo : forall st1 j,
                  cells st1 = cells st /\ Forall fresh_operator (operators st1) /\
                  parents_are_operators st1 /\
                  map name (operators st1) = map name (operators st) ->
                  match generateTree_loop chars st1 (OpPtr j) with
                  | Returns st' _ =>
                      cells st' = cells st /\ Forall fresh_operator (operators st') /\
                      parents_are_operators st' /\
                      map name (operators st') =
                        map name (operators st) ++ List.filter is_operator_char (c :: chars) /\
                      (forall d, d ∈ c :: chars -> is_operator_char d = false ->
                         find_cell (cells st) d <> None)
                  | Throws st' m =>
                      m = "Cell data not valid!"%string /\
                      cells st' = cells st /\ Forall fresh_operator (operators st') /\
                      exists pre d suf, c :: chars = pre ++ d :: suf /\
                        is_operator_char d = false /\ find_cell (cells st) d = None /\
                        (forall e, e ∈ pre -> is_operator_char e = false ->
                           find_cell (cells st) e <> None) /\
                        map name (operators st') =
                          map name (operators st) ++ List.filter is_operator_char pre
                  | Undefined => True
                  | OutOfFuel => True
                  end).
        { intros st1 j (Hc1 & Hf1 & Hp1 & Hn1).
          specialize (IH st1 j Hp1 Hf1).
          destruct (generateTree_loop chars st1 (OpPtr j)) as [st' u|st' m| |]; auto.
          - destruct IH as (H1 & H2 & H3 & H4 & H5).
            split; [congruence|]. split; [exact H2|]. split; [exact H3|]. split.
            + rewrite H4, Hn1. simpl. rewrite Ec. reflexivity.
            + intros d Hd Hdo. apply elem_of_cons in Hd as [->|Hd]; [congruence|].
              rewrite <- Hc1. apply H5; assumption.
          - destruct IH as (H1 & H2 & H3 & pre & d & suf & H4 & H5 & H6 & H7 & H8).
            split; [exact H1|]. split; [congruence|]. split; [exact H3|].
            exists (c :: pre), d, suf. split; [rewrite H4; reflexivity|].
            split; [exact H5|]. split; [congruence|]. split.
            + intros e He Heo. apply elem_of_cons in He as [->|He]; [congruence|].
              rewrite <- Hc1. apply H7; assumption.
            + rewrite H8, Hn1. simpl. rewrite Ec. reflexivity. }
        destruct (bool_decide (right cur <> None)).
        -- assert (H1 := Hstep set_left ltac:(intros; reflexivity)
                     ltac:(intros v x (H1 & H2 & H3 & H4); repeat split; assumption)
                     ltac:(intros; reflexivity)).
           simpl in H1.
           destruct (climb (length (operators (update (set_left (Some child)) (OpPtr k) st)))
                       (update (set_left (Some child)) (OpPtr k) st) (OpPtr k))
             as [s p|s m| |] eqn:Eclimb; auto.
           ++ apply climb_operator in Eclimb as [_ [j ->]]; [|apply H1].
              apply Hgo. exact H1.
           ++ exfalso. eapply climb_no_throw; eauto.
        -- apply Hgo. apply (Hstep set_right); intros; auto.
      * split; [reflexivity|]. split; [reflexivity|]. split; [exact Hf|].
        exists [], c, chars. split; [reflexivity|]. split; [exact Ec|].
        split; [exact Efind|]. split; [intros d Hd; inversion Hd|].
        simpl. rewrite app_nil_r. reflexivity.
Qed.

Lemma generateTree_inv npe cs operators0 :
  match generateTree npe cs operators0 with
  | Returns st root =>
      root = OpPtr 0 /\ isValidNPE npe = true /\
      cells st = cs /\ Forall fresh_operator (operators st) /\
      parents_are_operators st /\
      map name (operators st) = operator_names (rev (list_ascii_of_string npe)) /\
      (forall c, c ∈ tail (rev (list_ascii_of_string npe)) ->
         is_operator_char c = false -> find_cell cs c <> None)
  | Throws st m =>
      cells st = cs /\ Forall fresh_operator (operators st) /\
      ((m = "Invalid NPE!"%string /\ isValidNPE npe = false /\ operators st = []) \/
       (m = "Cell data not valid!"%string /\ isValidNPE npe = true /\
        exists pre c suf, tail (rev (list_ascii_of_string npe)) = pre ++ c :: suf /\
          is_operator_char c = false /\ find_cell cs c = None /\
          (forall d, d ∈ pre -> is_operator_char d = false -> find_cell cs d <> None) /\
          map name (operators st) =
            operator_names (take (S (length pre)) (rev (list_ascii_of_string npe)))))
  | Undefined => True
  | OutOfFuel => True
  end.
Proof.
  unfold generateTree. destruct (isValidNPE npe) eqn:Hvalid; simpl negb; cbv iota.
  - destruct (rev (list_ascii_of_string npe)) as [|c chars]; [exact I|].
    set (st1 := push_operator (SNode_op c) (mkStore cs [])).
    assert (Hp1 : parents_are_operators st1).
    { apply parents_push. intros k n q Hk. simpl in Hk. rewrite lookup_nil in Hk. done. }
    assert (Hf1 : Forall fresh_operator (operators st1)).
    { constructor; [apply fresh_operator_SNode_op|constructor]. }
    pose proof (generateTree_loop_operators chars st1 0 Hp1 Hf1) as H.
    destruct (generateTree_loop chars st1 (OpPtr 0)) as [st' u|st' m| |];
      [|clear Hp1 Hf1|exact I|exact I].
    + destruct H as (H1 & H2 & H3 & H4 & H5).
      split; [reflexivity|]. split; [reflexivity|]. split; [exact H1|].
      split; [exact H2|]. split; [exact H3|]. split; [exact H4|exact H5].
    + destruct H as (H1 & H2 & H3 & pre & d & suf & H4 & H5 & H6 & H7 & H8).
      split; [exact H2|]. split; [exact H3|]. right.
      split; [exact H1|]. split; [reflexivity|].
      exists pre, d, suf. split; [exact H4|]. split; [exact H5|]. split; [exact H6|].
      split; [exact H7|]. rewrite H8, H4. simpl.
      rewrite take_app_length. reflexivity.
  - split; [reflexivity|]. split; [constructor|]. left. auto.
Qed.

Lemma valid_NPE_single s :
  valid_NPE s -> count_operators s = 0%nat -> exists c, s = [c].
Proof.
  intros (_ & _ & _ & Hc) H0. unfold operators_one_less, count_from in Hc.
  pose proof (count_operands_operators s) as Hl.
  assert (H1 : length s = 1%nat) by lia. clear Hc H0 Hl.
  destruct s as [|c [|c' s]]; simpl in H1; [lia|eauto|lia].
Qed.

Lemma generateTree_single npe cs operators0 c :
  isValidNPE npe = true -> list_ascii_of_string npe = [c] ->
  generateTree npe cs operators0 =
    Returns (push_operator (SNode_op c) (mkStore cs [])) (OpPtr 0).
Proof.
  intros Hvalid E. unfold generateTree. rewrite Hvalid, E. reflexivity.
Qed.

Lemma missing_not_name_complete cs npe c :
  c ∈ list_ascii_of_string npe -> is_operator_char c = false ->
  find_cell cs c = None -> ~ name_complete cs npe.
Proof.
  intros Hc Hop Hnone Hnc. eapply name_complete_found; eauto.
Qed.

(** X13. What [generateTree] leaves behind.  For an expression of fewer
    than 2^31 characters and cells that are operands, the call either
    returns the first element of [operators] or throws one of its two
    messages; it never reads a null pointer.  It returns exactly for a
    valid expression whose operands all name a cell, or that is a single
    operand.  In every case the cells are as they were and what
    [operators] held before is gone; the list holds only new operator
    nodes, with no curve and no area yet, one for the last character of
    the expression and one for every operator read after it, in the order
    read; when the exception for a missing cell is thrown it holds the
    nodes for the characters read up to the first operand without a
    cell. *)
Theorem generateTree_operators (npe : string) (cs operators0 : list SNode) :
  (Z.of_nat (String.length npe) < 2 ^ 31)%Z ->
  cells_are_operands cs ->
  (exists st,
     generateTree npe cs operators0 = Returns st (OpPtr 0) /\
     isValidNPE npe = true /\
     (name_complete cs npe \/ count_operators (list_ascii_of_string npe) = 0%nat) /\
     cells st = cs /\ Forall fresh_operator (operators st) /\
     parents_are_operators st /\
     map name (operators st) = operator_names (rev (list_ascii_of_string npe))) \/
  (exists st m,
     generateTree npe cs operators0 = Throws st m /\
     cells st = cs /\ Forall fresh_operator (operators st) /\
     ((m = "Invalid NPE!"%string /\ isValidNPE npe = false /\ operators st = []) \/
      (m = "Cell data not valid!"%string /\ isValidNPE npe = true /\
       ~ name_complete cs npe /\
       (0 < count_operators (list_ascii_of_string npe))%nat /\
       exists pre c suf, tail (rev (list_ascii_of_string npe)) = pre ++ c :: suf /\
         is_operator_char c = false /\ find_cell cs c = None /\
         (forall d, d ∈ pre -> is_operator_char d = false -> find_cell cs d <> None) /\
         map name (operators st) =
           operator_names (take (S (length pre)) (rev (list_ascii_of_string npe)))))).
Proof.
  intros Hlen Hcops.
  pose proof (generateTree_inv npe cs operators0) as Hinv.
  pose proof (generateTree_outcome npe cs operators0 Hlen Hcops) as [Hbad Hgood].
  assert (Htail : forall c, c ∈ tail (rev (list_ascii_of_string npe)) ->
                    c ∈ list_ascii_of_string npe).
  { intros c Hc. apply list_elem_of_In, in_rev.
    destruct (rev (list_ascii_of_string npe)); simpl in Hc; [inversion Hc|].
    right. apply list_elem_of_In. exact Hc. }
  destruct (isValidNPE npe) eqn:Hvalid.
  - specialize (Hgood eq_refl).
    destruct (Nat.eq_dec (count_operators (list_ascii_of_string npe)) 0%nat) as [H0|H0].
    + (* a single operand *)
      pose proof (proj1 (isValidNPE_iff npe Hlen) Hvalid) as Hv.
      destruct (valid_NPE_single _ Hv H0) as [c Ec].
      rewrite (generateTree_single npe cs operators0 c Hvalid Ec) in Hinv |- *.
      destruct Hinv as (_ & _ & H1 & H2 & H3 & H4 & _).
      left. eexists. split; [reflexivity|]. split; [reflexivity|].
      split; [right; exact H0|]. auto.
    + destruct (Hgood ltac:(lia)) as [Hret Hthrow].
      destruct (generateTree npe cs operators0) as [st root|st m| |] eqn:E.
      * destruct Hinv as (-> & _ & H1 & H2 & H3 & H4 & H5).
        left. exists st. split; [reflexivity|]. split; [reflexivity|].
        split; [|auto]. left.
        intros c Hc Hop. destruct (find_cell cs c) as [p|] eqn:Ef.
        -- apply find_cell_Some in Ef as (i & n & _ & Hi & Hn).
           exists n. split; [eapply list_elem_of_lookup_2; eauto|exact Hn].
        -- destruct (Hthrow (missing_not_name_complete _ _ _ Hc Hop Ef)) as [s Es].
           discriminate.
      * destruct Hinv as (H1 & H2 & [(_ & Hf & _)|(-> & _ & pre & c & suf & H3 & H4 & H5 & H6 & H7)]);
          [discriminate|].
        right. exists st, "Cell data not valid!"%string.
        split; [reflexivity|]. split; [exact H1|]. split; [exact H2|]. right.
        split; [reflexivity|]. split; [reflexivity|]. split.
        -- apply (missing_not_name_complete cs npe c); [|assumption..].
           apply Htail. rewrite H3. apply elem_of_app. right. left.
        -- split; [lia|]. exists pre, c, suf. auto.
      * exfalso.
        assert (Hnn : ~ ~ (name_complete cs npe \/ ~ name_complete cs npe)) by tauto.
        apply Hnn. intros [Hn|Hn].
        -- destruct (Hret Hn) as [s Es]. discriminate.
        -- destruct (Hthrow Hn) as [s Es]. discriminate.
      * exfalso.
        assert (Hnn : ~ ~ (name_complete cs npe \/ ~ name_complete cs npe)) by tauto.
        apply Hnn. intros [Hn|Hn].
        -- destruct (Hret Hn) as [s Es]. discriminate.
        -- destruct (Hthrow Hn) as [s Es]. discriminate.
  - right. rewrite (Hbad eq_refl). eexists. eexists.
    split; [reflexivity|]. split; [reflexivity|]. split; [constructor|]. left. auto.
Qed.

(* ================================================================== *)
(** ** operator<< on any store *)

Lemma to_tree_more fuel : forall st p t more,
  to_tree fuel st p = Some t -> to_tree (fuel + more) st p = Some t.
Proof.
  induction fuel as [|fuel IH]; intros st p t more E; [discriminate|].
  simpl in E |- *. destruct (deref st p) as [n|]; [|discriminate].
  destruct (isOperator n); [|exact E].
  destruct (left n) as [l|]; [|discriminate].
  destruct (right n) as [r|]; [|discriminate].
  destruct (to_tree fuel st l) as [tl|] eqn:El; [|discriminate].
  destruct (to_tree fuel st r) as [tr|] eqn:Er; [|discriminate].
  rewrite (IH _ _ _ more El), (IH _ _ _ more Er). exact E.
Qed.

Lemma print_tree fuel : forall st p out,
  match to_tree fuel st p with
  | Some t => print fuel st p out = Returns (out ++ postfix t) tt
  | None => print fuel st p out = Undefined \/ print fuel st p out = OutOfFuel
  end.
Proof.
  induction fuel as [|fuel IH]; intros st p out; [right; reflexivity|].
  simpl. destruct (deref st p) as [n|]; [|left; reflexivity].
  destruct (isOperator n); [|reflexivity].
  destruct (left n) as [l|]; [|left; reflexivity].
  destruct (right n) as [r|]; [|left; reflexivity].
  pose proof (IH st l out) as Hl.
  destruct (to_tree fuel st l) as [tl|].
  - rewrite Hl. pose proof (IH st r (out ++ postfix tl)) as Hr.
    destruct (to_tree fuel st r) as [tr|].
    + rewrite Hr. simpl. rewrite <- !app_assoc. reflexivity.
    + destruct Hr as [-> | ->]; auto.
  - destruct Hl as [-> | ->]; auto.
Qed.

(** X14. [operator<<] on any store and any pointer.  When the nodes reached
    from the pointer form a tree (every operator node has both children,
    down to nodes that are not operators) the call appends to the stream the
    text of that tree, left subtree, right subtree, then the node's name,
    whatever was written before; otherwise it reads a null pointer or does
    not come back.  It throws nothing, and a deeper stack changes nothing
    of what is written. *)
Theorem print_writes_tree (fuel : nat) (st : store) (p : ptr) (out : list ascii) :
  match to_tree fuel st p with
  | Some t =>
      print fuel st p out = Returns (out ++ postfix t) tt /\
      forall more out', print (fuel + more) st p out' = Returns (out' ++ postfix t) tt
  | None => print fuel st p out = Undefined \/ print fuel st p out = OutOfFuel
  end.
Proof.
  pose proof (print_tree fuel st p out) as H.
  destruct (to_tree fuel st p) as [t|] eqn:E; [|exact H].
  split; [exact H|]. intros more out'.
  pose proof (print_tree (fuel + more) st p out') as H'.
  rewrite (to_tree_more _ _ _ _ more E) in H'. exact H'.
Qed.

(* ================================================================== *)
(** ** The mirror image of a tree *)

Section Mirror.
Context {ops : FloatOps}.

Lemma combine_ext name r l r' l' :
  width r = width r' -> height r = height r' ->
  width l = width l' -> height l = height l' ->
  combine name r l = combine name r' l'.
Proof. unfold combine. intros -> -> -> ->. reflexivity. Qed.

Lemma merged_points_exchanged name rs ls rs' ls' :
  (forall w h, has_point rs w h -> has_point rs' w h) ->
  (forall w h, has_point ls w h -> has_point ls' w h) ->
  (forall w h, has_point rs' w h -> has_point rs w h) ->
  (forall w h, has_point ls' w h -> has_point ls w h) ->
  forall w h, has_point (merged_sizes name rs ls) w h ->
    has_point (merged_sizes name ls' rs') w h.
Proof.
  intros HR HL HR' HL' w h. rewrite !merged_points.
  intros [(r & l & Hr & Hl & E) Hmin]. split.
  - destruct (HR (width r) (height r)) as (r' & Hr' & Er1 & Er2); [exists r; auto|].
    destruct (HL (width l) (height l)) as (l' & Hl' & El1 & El2); [exists l; auto|].
    exists l', r'. split; [exact Hl'|]. split; [exact Hr'|].
    rewrite <- E, combine_comm. apply combine_ext; assumption.
  - intros l' r' Hl' Hr'.
    destruct (HR' (width r') (height r')) as (r0 & Hr0 & Er1 & Er2); [exists r'; auto|].
    destruct (HL' (width l') (height l')) as (l0 & Hl0 & El1 & El2); [exists l'; auto|].
    rewrite combine_comm, <- (combine_ext name r0 l0 r' l') by assumption.
    apply Hmin; assumption.
Qed.

Lemma curve_mirror cs t : forall w h,
  has_point (curve_of_tree cs (mirror t)) w h <-> has_point (curve_of_tree cs t) w h.
Proof.
  induction t as [c q|op l IHl r IHr]; intros w h; [reflexivity|].
  simpl. split; apply merged_points_exchanged; intros w' h'; try apply IHl; try apply IHr.
Qed.

Lemma min_area_le l l' :
  (forall w h, has_point l w h -> has_point l' w h) ->
  l <> [] -> min_area l' <= min_area l.
Proof.
  intros H Hne.
  destruct (min_area_spec l Hne) as (k & best & Hk & Hm & _).
  destruct (H (width best) (height best)) as (q & Hq & E1 & E2).
  { exists best. split; [eapply list_elem_of_lookup_2; eauto|auto]. }
  assert (Hne' : l' <> []) by (intros ->; inversion Hq).
  destruct (min_area_spec l' Hne') as (_ & _ & _ & _ & Hmin).
  specialize (Hmin q Hq). rewrite Hm, <- E1, <- E2. exact Hmin.
Qed.

Lemma min_area_points l l' :
  (forall w h, has_point l w h <-> has_point l' w h) -> min_area l = min_area l'.
Proof.
  intros H. destruct l as [|b l].
  - destruct l' as [|b' l']; [reflexivity|].
    destruct (proj2 (H (width b') (height b'))) as (q & Hq & _); [|inversion Hq].
    exists b'. split; [left|auto].
  - assert (Hne' : l' <> []).
    { destruct (proj1 (H (width b) (height b))) as (q & Hq & _).
      - exists b. split; [left|auto].
      - intros ->. inversion Hq. }
    apply Rle_antisym.
    + apply min_area_le; [intros w h; apply H|exact Hne'].
    + apply min_area_le; [intros w h; apply H|discriminate].
Qed.

(** X17. A tree and its mirror image, the tree with the two children of
    every node exchanged, have the same (width, height) pairs on their
    curves and the same cost: the order in which [generateTree] attaches
    the children of a node does not change the value of [cost]. *)
Theorem mirror_same_cost (cs : list SNode) (t : tree) :
  (forall w h,
     has_point (curve_of_tree cs (mirror t)) w h <-> has_point (curve_of_tree cs t) w h) /\
  tree_cost cs (mirror t) = tree_cost cs t.
Proof.
  split; [apply curve_mirror|].
  destruct t as [c q|op l r]; [reflexivity|].
  unfold tree_cost. change (mirror (Node op l r)) with (Node op (mirror r) (mirror l)).
  apply min_area_points.
  apply (curve_mirror cs (Node op l r)).
Qed.

End Mirror.

(* ================================================================== *)
(** ** The three costs of main *)

Section Main.
Context {ops : FloatOps}.

Lemma cost_value npe cs fuel :
  (Z.of_nat (String.length npe) < 2 ^ 31)%Z ->
  isValidNPE npe = true ->
  (0 < count_operators (list_ascii_of_string npe))%nat ->
  name_complete cs npe -> cells_are_operands cs -> cells_have_sizes cs ->
  (String.length npe <= fuel)%nat ->
  exists t st, build_earlier_left npe cs = Some t /\
    cost fuel npe cs = Returns st (tree_cost cs t) /\ cells st = cs.
Proof.
  intros Hlen Hvalid Hcount Hnc Hcops Hsz Hfuel.
  destruct (cost_built npe cs Hlen Hvalid Hcount Hnc Hcops)
    as (t & st & E & Hc & Hrep & Eb & Htext).
  assert (Hf : (tree_height t <= fuel)%nat).
  { pose proof (tree_height_postfix t) as H. rewrite Htext in H.
    rewrite length_list_ascii_of_string in H. lia. }
  destruct (calcMinArea_eval cs t 0 st (OpPtr 0) fuel Hc Hrep Hf Hsz)
    as (st' & n' & E' & Hs & _).
  exists t, st'. split; [exact Eb|]. unfold cost. rewrite E.
  split; [exact E'|]. rewrite (proj1 Hs). exact Hc.
Qed.

Lemma cost_throws npe cs fuel :
  (Z.of_nat (String.length npe) < 2 ^ 31)%Z ->
  isValidNPE npe = true ->
  (0 < count_operators (list_ascii_of_string npe))%nat ->
  ~ name_complete cs npe -> cells_are_operands cs ->
  exists s, cost fuel npe cs = Throws s "Cell data not valid!".
Proof.
  intros Hlen Hvalid Hcount Hnc Hcops.
  destruct (generateTree_outcome npe cs [] Hlen Hcops) as [_ H].
  destruct (H Hvalid Hcount) as [_ Hthrow].
  destruct (Hthrow Hnc) as [s E]. exists s. unfold cost. rewrite E. reflexivity.
Qed.

Lemma read_cells_operands cs : read_cells cs -> cells_are_operands cs.
Proof.
  intros H. eapply Forall_impl; [exact H|]. intros n (nm & a & ar & ->). reflexivity.
Qed.

Lemma read_cells_sizes cs : read_cells cs -> cells_have_sizes cs.
Proof.
  intros H. eapply Forall_impl; [exact H|]. intros n (nm & a & ar & ->).
  unfold SNode_free, calcWandH. simpl. discriminate.
Qed.

(** The operands of an expression are those of a list with the same
    characters. *)
Lemma name_complete_operands cs npe operands :
  (forall c, In c operands <->
     In c (List.filter (fun c => negb (is_operator_char c)) (list_ascii_of_string npe))) ->
  name_complete cs npe <-> names_all cs operands.
Proof.
  intros H. unfold name_complete, names_all. split.
  - intros Hnc c Hc. apply list_elem_of_In, H, filter_In in Hc as [Hin Hop].
    apply Hnc; [apply list_elem_of_In, Hin|]. destruct (is_operator_char c); done.
  - intros Hn c Hc Hop. apply Hn, list_elem_of_In, H, filter_In.
    split; [apply list_elem_of_In, Hc|]. rewrite Hop. reflexivity.
Qed.

Lemma main_operands_vertical c :
  In c main_operands <->
  In c (List.filter (fun c => negb (is_operator_char c))
          (list_ascii_of_string initialVerticalNPE)).
Proof. reflexivity. Qed.

Lemma main_operands_horizontal c :
  In c main_operands <->
  In c (List.filter (fun c => negb (is_operator_char c))
          (list_ascii_of_string initialHorizontalNPE)).
Proof. reflexivity. Qed.

Lemma main_operands_other c :
  In c main_operands <->
  In c (List.filter (fun c => negb (is_operator_char c))
          (list_ascii_of_string initialOtherNPE)).
Proof.
  change (List.filter (fun c => negb (is_operator_char c))
            (list_ascii_of_string initialOtherNPE))
    with (list_ascii_of_string "2135467a89cgibdkfelj").
  unfold main_operands. simpl. tauto.
Qed.

Lemma operands_of_filter (operands l : list ascii) :
  (forall c, In c operands <->
     In c (List.filter (fun c => negb (is_operator_char c)) l)) ->
  forall c, c ∈ operands <-> c ∈ l /\ is_operator_char c = false.
Proof.
  intros H c. rewrite !list_elem_of_In, H, filter_In.
  destruct (is_operator_char c); simpl; intuition congruence.
Qed.

(** X18. The three costs of [main].  Each of the three expressions of
    [main] is accepted by [isValidNPE], so [main] never throws the message
    for an invalid expression; the three have the same twenty operands, the
    digits 1 to 9 and the letters a to l without h, each once.  With cells
    as [getCells] pushes them, when every one of the twenty names a cell
    the three calls of [cost] return, each the cost of the tree of its
    expression, and the cells are as they were; when one of the twenty
    names no cell the first call throws the message for a missing cell, and
    nothing is computed. *)
Theorem main_costs_outcome (cs : list SNode) (fuel : nat) :
  read_cells cs -> (39 <= fuel)%nat ->
  isValidNPE initialVerticalNPE = true /\
  isValidNPE initialHorizontalNPE = true /\
  isValidNPE initialOtherNPE = true /\
  length main_operands = 20%nat /\ NoDup main_operands /\
  (forall c, c ∈ main_operands <->
     c ∈ list_ascii_of_string initialVerticalNPE /\ is_operator_char c = false) /\
  (forall c, c ∈ main_operands <->
     c ∈ list_ascii_of_string initialHorizontalNPE /\ is_operator_char c = false) /\
  (forall c, c ∈ main_operands <->
     c ∈ list_ascii_of_string initialOtherNPE /\ is_operator_char c = false) /\
  (names_all cs main_operands ->
     exists st tV tH tO,
       build_earlier_left initialVerticalNPE cs = Some tV /\
       build_earlier_left initialHorizontalNPE cs = Some tH /\
       build_earlier_left initialOtherNPE cs = Some tO /\
       main_costs fuel cs =
         Returns st (tree_cost cs tV, tree_cost cs tH, tree_cost cs tO) /\
       cells st = cs) /\
  (~ names_all cs main_operands ->
     exists s, main_costs fuel cs = Throws s "Cell data not valid!").
Proof.
  intros Hread Hfuel.
  pose proof (read_cells_operands cs Hread) as Hcops.
  pose proof (read_cells_sizes cs Hread) as Hsz.
  assert (HvV : isValidNPE initialVerticalNPE = true) by (vm_compute; reflexivity).
  assert (HvH : isValidNPE initialHorizontalNPE = true) by (vm_compute; reflexivity).
  assert (HvO : isValidNPE initialOtherNPE = true) by (vm_compute; reflexivity).
  assert (HlV : (Z.of_nat (String.length initialVerticalNPE) < 2 ^ 31)%Z)
    by (vm_compute; reflexivity).
  assert (HlH : (Z.of_nat (String.length initialHorizontalNPE) < 2 ^ 31)%Z)
    by (vm_compute; reflexivity).
  assert (HlO : (Z.of_nat (String.length initialOtherNPE) < 2 ^ 31)%Z)
    by (vm_compute; reflexivity).
  assert (HcV : (0 < count_operators (list_ascii_of_string initialVerticalNPE))%nat)
    by (vm_compute; lia).
  assert (HcH : (0 < count_operators (list_ascii_of_string initialHorizontalNPE))%nat)
    by (vm_compute; lia).
  assert (HcO : (0 < count_operators (list_ascii_of_string initialOtherNPE))%nat)
    by (vm_compute; lia).
  split; [exact HvV|]. split; [exact HvH|]. split; [exact HvO|].
  split; [reflexivity|].
  split.
  { apply NoDup_ListNoDup, (NoDup_count_occ' ascii_dec). intros c Hc.
    simpl in Hc. decompose [or] Hc; subst; try reflexivity; contradiction. }
  split; [apply operands_of_filter, main_operands_vertical|].
  split; [apply operands_of_filter, main_operands_horizontal|].
  split; [apply operands_of_filter, main_operands_other|].
  split.
  - intros Hn.
    pose proof (proj2 (name_complete_operands cs _ _ main_operands_vertical) Hn) as HnV.
    pose proof (proj2 (name_complete_operands cs _ _ main_operands_horizontal) Hn) as HnH.
    pose proof (proj2 (name_complete_operands cs _ _ main_operands_other) Hn) as HnO.
    destruct (cost_value _ cs fuel HlV HvV HcV HnV Hcops Hsz Hfuel)
      as (tV & st1 & EbV & EV & Hc1).
    destruct (cost_value _ cs fuel HlH HvH HcH HnH Hcops Hsz Hfuel)
      as (tH & st2 & EbH & EH & Hc2).
    destruct (cost_value _ cs fuel HlO HvO HcO HnO Hcops Hsz Hfuel)
      as (tO & st3 & EbO & EO & Hc3).
    exists st3, tV, tH, tO. do 3 (split; [assumption|]). split; [|exact Hc3].
    unfold main_costs. rewrite EV, Hc1, EH, Hc2, EO. reflexivity.
  - intros Hn.
    assert (HnV : ~ name_complete cs initialVerticalNPE).
    { intros H. apply Hn. apply (name_complete_operands cs _ _ main_operands_vertical), H. }
    destruct (cost_throws _ cs fuel HlV HvV HcV HnV Hcops) as [s E].
    exists s. unfold main_costs. rewrite E. reflexivity.
Qed.

End Main.

(* ================================================================== *)
(** ** The arithmetic of binary32 *)

#[export] Existing Instance binary32.

Lemma ln_2_pos : 0 < ln 2.
Proof. rewrite <- ln_1. apply ln_increasing; lra. Qed.

Lemma ln_powerRZ_2 (e : Z) : ln (powerRZ 2 e) = IZR e * ln 2.
Proof. rewrite powerRZ_Rpower by lra. unfold Rpower. apply ln_exp. Qed.

Lemma powerRZ_2_nonneg (k : Z) : (0 <= k)%Z -> powerRZ 2 k = IZR (2 ^ k).
Proof.
  intros Hk. destruct k as [|p|p]; [reflexivity| |lia].
  change (2 ^ Z.pos p)%Z with (Z.pow_pos 2 p). rewrite Zpower_pos_powerRZ. reflexivity.
Qed.

(** The magnitude of a number between two consecutive powers of two. *)
Lemma magnitude_unique (x : R) (e : Z) :
  powerRZ 2 (e - 1) <= Rabs x < powerRZ 2 e -> magnitude x = e.
Proof.
  intros [Hlo Hhi]. unfold magnitude. symmetry. apply tech_up.
  - assert (H0 : 0 < Rabs x).
    { eapply Rlt_le_trans; [|exact Hlo]. apply powerRZ_lt. lra. }
    pose proof (ln_increasing _ _ H0 Hhi) as H. rewrite ln_powerRZ_2 in H.
    pose proof ln_2_pos. apply Rmult_lt_reg_r with (ln 2); [assumption|].
    unfold Rdiv. rewrite Rmult_assoc, Rinv_l by lra. lra.
  - assert (H0 : 0 < powerRZ 2 (e - 1)) by (apply powerRZ_lt; lra).
    assert (H : ln (powerRZ 2 (e - 1)) <= ln (Rabs x)).
    { destruct Hlo as [Hlo|Hlo]; [left; apply ln_increasing; assumption|rewrite Hlo; lra]. }
    rewrite ln_powerRZ_2, minus_IZR in H.
    pose proof ln_2_pos. apply Rmult_le_reg_r with (ln 2); [assumption|].
    unfold Rdiv. rewrite Rmult_plus_distr_r, Rmult_assoc, Rinv_l by lra. lra.
Qed.

Lemma magnitude_le (x : R) (e : Z) :
  x <> 0 -> Rabs x < powerRZ 2 e -> (magnitude x <= e)%Z.
Proof.
  intros Hx Hhi. unfold magnitude.
  assert (H0 : 0 < Rabs x) by (apply Rabs_pos_lt; assumption).
  pose proof (ln_increasing _ _ H0 Hhi) as H. rewrite ln_powerRZ_2 in H.
  pose proof ln_2_pos as H2.
  assert (HL : ln (Rabs x) / ln 2 < IZR e).
  { apply Rmult_lt_reg_r with (ln 2); [assumption|].
    unfold Rdiv. rewrite Rmult_assoc, Rinv_l by lra. lra. }
  destruct (archimed (ln (Rabs x) / ln 2)) as [_ Hup].
  apply Z.lt_succ_r, lt_IZR. rewrite succ_IZR. lra.
Qed.

Lemma round_even_IZR (n : Z) : round_even (IZR n) = n.
Proof.
  unfold round_even.
  assert (E : Int_part (IZR n) = n) by (symmetry; apply Int_part_spec; lra).
  rewrite E. destruct (Rlt_dec (IZR n - IZR n) (1 / 2)); [reflexivity|lra].
Qed.

(** An integer of less than 24 bits is a binary32 number: rounding leaves
    it as it is. *)
Lemma round32_int (m : Z) : (Z.abs m < 2 ^ 24)%Z -> round32 (IZR m) = IZR m.
Proof.
  intros Hm. unfold round32.
  destruct (Req_dec_T (IZR m) 0) as [E|Hne]; [symmetry; exact E|].
  assert (Hmag : (magnitude (IZR m) <= 24)%Z).
  { apply magnitude_le; [assumption|].
    rewrite <- abs_IZR, (powerRZ_2_nonneg 24) by lia. apply IZR_lt, Hm. }
  set (e := Z.max (magnitude (IZR m) - 24) (-149)).
  assert (He : (e <= 0)%Z) by lia.
  rewrite (powerRZ_2_nonneg (- e)) by lia.
  rewrite <- mult_IZR, round_even_IZR, mult_IZR.
  rewrite <- (powerRZ_2_nonneg (- e)) by lia.
  rewrite Rmult_assoc, <- powerRZ_add by lra.
  replace (- e + e)%Z with 0%Z by lia. simpl. lra.
Qed.

(** A sum that is rounded: 2^25 + 2 lies half way between the binary32
    numbers 2^25 and 2^25 + 4, and the tie goes to the even one. *)
Lemma binary32_sum_tie : fadd 33554432 2 = 33554432.
Proof.
  change (fadd 33554432 2) with (round32 (33554432 + 2)). unfold round32.
  destruct (Req_dec_T (33554432 + 2) 0) as [E|_]; [lra|].
  rewrite (magnitude_unique _ 26).
  2:{ rewrite Rabs_pos_eq by lra. simpl. lra. }
  change (Z.max (26 - 24) (-149)) with 2%Z.
  replace ((33554432 + 2) * powerRZ 2 (- (2))) with (IZR 8388608 + 1 / 2) by (simpl; lra).
  unfold round_even.
  assert (E : Int_part (IZR 8388608 + 1 / 2) = 8388608%Z).
  { symmetry. apply Int_part_spec. lra. }
  rewrite E.
  destruct (Rlt_dec _ _) as [H|_]; [lra|].
  destruct (Rlt_dec _ _) as [H|_]; [lra|].
  simpl. lra.
Qed.

(** The sums, products and quotients of small integers that are integers
    are exact. *)
Lemma binary32_add_int (m n : Z) :
  (Z.abs (m + n) < 2 ^ 24)%Z -> fadd (IZR m) (IZR n) = IZR (m + n).
Proof.
  intros H. change (fadd (IZR m) (IZR n)) with (round32 (IZR m + IZR n)).
  rewrite <- plus_IZR. apply round32_int, H.
Qed.

Lemma binary32_mul_int (m n : Z) :
  (Z.abs (m * n) < 2 ^ 24)%Z -> fmul (IZR m) (IZR n) = IZR (m * n).
Proof.
  intros H. change (fmul (IZR m) (IZR n)) with (round32 (IZR m * IZR n)).
  rewrite <- mult_IZR. apply round32_int, H.
Qed.

(** The cell of area 4 and aspect ratio 1: height 2, width 2. *)
Lemma binary32_cell_4_1 : fsqrt (fmul 1 4) = 2 /\ fdiv 4 2 = 2.
Proof.
  assert (E4 : fmul 1 4 = 4) by (apply (binary32_mul_int 1 4); vm_compute; reflexivity).
  assert (E2 : round32 2 = 2) by (apply (round32_int 2); vm_compute; reflexivity).
  split.
  - rewrite E4. change (fsqrt 4) with (round32 (sqrt 4)).
    replace (sqrt 4) with 2; [exact E2|].
    symmetry. replace 4 with (2 * 2) by lra. apply sqrt_square. lra.
  - change (fdiv 4 2) with (round32 (4 / 2)). replace (4 / 2) with 2 by lra. exact E2.
Qed.

Lemma square_cell_sizes :
  sizes (SNode_free "A" 4 1) = [mkDimensions 2 2 None None; mkDimensions 2 2 None None].
Proof.
  rewrite sizes_free_cell. destruct binary32_cell_4_1 as [-> E].
  rewrite E. reflexivity.
Qed.

(* ================================================================== *)
(** ** A single operand *)

(** C8, at the expression A with no cell at all.  The validator accepts
    the expression; [generateTree] makes an operator node of its last
    character without searching a cell for it, and returns it. *)
Theorem generateTree_single_operand_no_cell :
  isValidNPE "A" = true /\
  ~ name_complete [] "A" /\
  generateTree "A" [] [] = Returns (mkStore [] [SNode_op "A"]) (OpPtr 0).
Proof.
  split; [reflexivity|]. split; [|reflexivity].
  intros H. destruct (H "A"%char) as (n & Hn & _); [left|reflexivity|].
  inversion Hn.
Qed.

(** C6, at the fixed cell A of area 4 and aspect ratio 1.  Its curve is
    the single point (2,2), [calcMinArea] on the cell itself returns 4 and
    the validator accepts the expression A, but [cost] does not return 4:
    the root made by [generateTree] is an operator node without children, and
    [calcMinArea] reads [right->isOperator] through the null pointer. *)
Theorem cost_single_cell_undefined :
  sizes (SNode_cell "A" 4 1 true) = [mkDimensions 2 2 None None] /\
  (forall fuel st, cells st = [SNode_cell "A" 4 1 true] ->
     calcMinArea (S fuel) st (CellPtr 0) = Returns st 4) /\
  isValidNPE "A" = true /\
  forall fuel, cost (S fuel) "A" [SNode_cell "A" 4 1 true] = Undefined.
Proof.
  split; [|split; [|split; [reflexivity|]]].
  - rewrite sizes_fixed_cell. destruct binary32_cell_4_1 as [-> E].
    rewrite E. reflexivity.
  - intros fuel st Hc. simpl. rewrite Hc. reflexivity.
  - intros fuel. reflexivity.
Qed.

Lemma name_complete_12V :
  name_complete [SNode_free "1" 1 1; SNode_free "2" 1 1] "12V".
Proof.
  intros c Hc Hop. simpl in Hc.
  apply elem_of_cons in Hc as [->|Hc]; [exists (SNode_free "1" 1 1); split; [left|reflexivity]|].
  apply elem_of_cons in Hc as [->|Hc];
    [exists (SNode_free "2" 1 1); split; [right; left|reflexivity]|].
  apply elem_of_cons in Hc as [->|Hc]; [discriminate|inversion Hc].
Qed.

(** On the expression A the root is an operator node without children:
    [operator<<] reads its [left] through the null pointer. *)
Lemma print_single_operand_undefined (cs : list SNode) :
  exists st, generateTree "A" cs [] = Returns st (OpPtr 0) /\
    forall fuel out, print (S fuel) st (OpPtr 0) out = Undefined.
Proof. eexists. split; reflexivity. Qed.

(** C3, at the expression 12V.  The tree of [generateTree] has the cell
    of 1 as left child and the cell of 2 as right child; the construction of
    the specification makes the most recently pushed cell, 2, the left
    child. *)
Lemma generateTree_not_spec_order :
  let cs := [SNode_free "1" 1 1; SNode_free "2" 1 1] in
  isValidNPE "12V" = true /\
  name_complete cs "12V" /\
  exists st,
    generateTree "12V" cs [] = Returns st (OpPtr 0) /\
    to_tree 2 st (OpPtr 0) =
      Some (Node "V" (Leaf "1" (CellPtr 0)) (Leaf "2" (CellPtr 1))) /\
    build_spec "12V" cs =
      Some (Node "V" (Leaf "2" (CellPtr 1)) (Leaf "1" (CellPtr 0))) /\
    build_spec "12V" cs <> to_tree 2 st (OpPtr 0).
Proof.
  intros cs. split; [reflexivity|]. split; [exact name_complete_12V|].
  eexists. split; [reflexivity|]. split; [reflexivity|]. split; [reflexivity|].
  discriminate.
Qed.

(* ================================================================== *)
(** ** Two free cells under binary32 *)

Lemma Dimensions_eqb_false p q : ~ same_point p q -> Dimensions_eqb p q = false.
Proof.
  intros H. destruct (Dimensions_eqb p q) eqn:E; [|reflexivity].
  apply Dimensions_eqb_true in E. contradiction.
Qed.

Lemma round32_small (x : R) (m : Z) :
  x = IZR m -> (Z.abs m < 2 ^ 24)%Z -> round32 x = IZR m.
Proof. intros ->. apply round32_int. Qed.

Lemma sqrt_9 : sqrt 9 = 3.
Proof. replace 9 with (3 * 3) by lra. apply sqrt_square. lra. Qed.

Ltac real_fact :=
  unfold same_point, dominates; cbn [height width];
  first [lra | split; lra | intros [? ?]; lra].

(** One element of the list passed by the loop of [addToDimensions]. *)
Ltac add_step :=
  rewrite addToDimensions_loop_eq;
  first
    [ rewrite (proj2 (Dimensions_eqb_true _ _)) by real_fact
    | rewrite Dimensions_eqb_false by real_fact;
      first
        [ rewrite (proj2 (dominatesb_true _ _)) by real_fact
        | rewrite (proj2 (dominatesb_false _ _)) by real_fact;
          first [ rewrite (proj2 (dominatesb_true _ _)) by real_fact
                | rewrite (proj2 (dominatesb_false _ _)) by real_fact ] ] ];
  cbv iota.

(** The cell of area 3 and aspect ratio 3 is 1 wide and 3 high; the cell
    of area 12 and aspect ratio 3/4 is 4 wide and 3 high. *)
Lemma two_cells_sizes :
  sizes (SNode_free "1" 3 3) =
    [mkDimensions 3 1 None None; mkDimensions 1 3 None None] /\
  sizes (SNode_free "2" 12 (3 / 4)) =
    [mkDimensions 3 4 None None; mkDimensions 4 3 None None].
Proof.
  assert (E3 : round32 3 = 3) by (apply (round32_int 3); vm_compute; reflexivity).
  assert (Es : fsqrt 9 = 3).
  { change (fsqrt 9) with (round32 (sqrt 9)). rewrite sqrt_9. exact E3. }
  assert (E1 : fmul 3 3 = 9).
  { apply (round32_small (3 * 3) 9); [lra|vm_compute; reflexivity]. }
  assert (E2 : fmul (3 / 4) 12 = 9).
  { apply (round32_small (3 / 4 * 12) 9); [lra|vm_compute; reflexivity]. }
  assert (E4 : fdiv 3 3 = 1).
  { apply (round32_small (3 / 3) 1); [lra|vm_compute; reflexivity]. }
  assert (E5 : fdiv 12 3 = 4).
  { apply (round32_small (12 / 3) 4); [lra|vm_compute; reflexivity]. }
  rewrite !sizes_free_cell, E1, E2, Es, E4, E5. split; reflexivity.
Qed.

(** The node V over them: of the candidates (5,3), (7,3), (4,4), (6,4),
    width first, the second and the fourth are refused. *)
Lemma two_cells_merged :
  merged_sizes "V"
    [mkDimensions 3 4 None None; mkDimensions 4 3 None None]
    [mkDimensions 3 1 None None; mkDimensions 1 3 None None] =
  [mkDimensions 3 5 (Some 0%nat) (Some 0%nat);
   mkDimensions 4 4 (Some 1%nat) (Some 0%nat)].
Proof.
  assert (E5 : fadd 4 1 = 5) by (apply (binary32_add_int 4 1); vm_compute; reflexivity).
  assert (E7 : fadd 4 3 = 7) by (apply (binary32_add_int 4 3); vm_compute; reflexivity).
  assert (E4 : fadd 3 1 = 4) by (apply (binary32_add_int 3 1); vm_compute; reflexivity).
  assert (E6 : fadd 3 3 = 6) by (apply (binary32_add_int 3 3); vm_compute; reflexivity).
  unfold merged_sizes, merge_loops. simpl Ascii.eqb. cbv iota.
  cbn [outer_loop inner_loop offer ms_sizes ms_offered].
  unfold candidateV. cbn [height width]. rewrite E5, E7, E4, E6.
  rewrite (proj2 (fgeb_true 3 3)) by lra.
  rewrite (proj2 (fgeb_true 3 1)) by lra.
  rewrite (proj2 (fgeb_true 4 3)) by lra.
  rewrite (proj2 (fgeb_true 4 1)) by lra.
  unfold addToDimensions at 4. cbn [addToDimensions_loop fst app].
  unfold addToDimensions at 3. add_step. cbn [fst app].
  unfold addToDimensions at 2. add_step. cbn [addToDimensions_loop fst app].
  unfold addToDimensions. add_step. reflexivity.
Qed.

(** The products are 15 and 16: the scan keeps the first point. *)
Lemma two_cells_select (this : SNode) :
  select_best
    (set_sizes [mkDimensions 3 5 (Some 0%nat) (Some 0%nat);
                mkDimensions 4 4 (Some 1%nat) (Some 0%nat)] this) =
  Some (set_best 15 (mkDimensions 3 5 (Some 0%nat) (Some 0%nat)) (fdiv 3 5)
          (set_sizes [mkDimensions 3 5 (Some 0%nat) (Some 0%nat);
                      mkDimensions 4 4 (Some 1%nat) (Some 0%nat)] this)).
Proof.
  assert (E15 : fmul 3 5 = 15) by (apply (binary32_mul_int 3 5); vm_compute; reflexivity).
  assert (E16 : fmul 4 4 = 16) by (apply (binary32_mul_int 4 4); vm_compute; reflexivity).
  unfold select_best. cbn [sizes set_sizes scan_best height width].
  rewrite E15, E16.
  rewrite (proj2 (fltb_false 15 15)) by lra.
  rewrite (proj2 (fltb_false 16 15)) by lra.
  reflexivity.
Qed.

(** The expression 12V over the two cells: [cost] returns 15, the curve of
    the root is (5,3), (4,4), width first, and the point selected is the
    first of the two. *)
Lemma cost_two_cells :
  exists st root,
    cost 2 "12V" [SNode_free "1" 3 3; SNode_free "2" 12 (3 / 4)] = Returns st 15 /\
    deref st (OpPtr 0) = Some root /\
    sizes root = [mkDimensions 3 5 (Some 0%nat) (Some 0%nat);
                  mkDimensions 4 4 (Some 1%nat) (Some 0%nat)] /\
    selected root = Some (mkDimensions 3 5 (Some 0%nat) (Some 0%nat)) /\
    area root = 15 /\ aspectRatio root = fdiv 3 5.
Proof.
  destruct two_cells_sizes as [E1 E2].
  unfold cost.
  change (generateTree "12V" [SNode_free "1" 3 3; SNode_free "2" 12 (3 / 4)] [])
    with (Returns
            (mkStore [SNode_free "1" 3 3; SNode_free "2" 12 (3 / 4)]
               [set_left (Some (CellPtr 0)) (set_right (Some (CellPtr 1)) (SNode_op "V"))])
            (OpPtr 0)).
  cbv iota beta.
  change (calcMinArea 2 _ (OpPtr 0)) with
    (match calcMinArea_node
             (set_sizes [] (set_left (Some (CellPtr 0))
                              (set_right (Some (CellPtr 1)) (SNode_op "V"))))
             (sizes (SNode_free "2" 12 (3 / 4))) (sizes (SNode_free "1" 3 3)) with
     | Some (n3, a) =>
         Returns (mkStore [SNode_free "1" 3 3; SNode_free "2" 12 (3 / 4)] [n3]) a
     | None => Undefined
     end).
  rewrite E1, E2. unfold calcMinArea_node.
  cbn [name set_sizes set_left set_right SNode_op].
  rewrite two_cells_merged, two_cells_select.
  eexists. eexists. split; [reflexivity|]. split; [reflexivity|].
  cbn [sizes set_best set_sizes area selected aspectRatio]. auto.
Qed.


(* ================================================================== *)
(** ** The theorems at concrete inputs *)

(** The curve (3,1) offered the point (1,3): nothing refuses it, nothing is
    erased. *)
Lemma addToDimensions_spec_witness :
  no_domination [mkDimensions 1 3 None None] /\
  ((refused [mkDimensions 1 3 None None] (mkDimensions 3 1 None None) ->
      addToDimensions [mkDimensions 1 3 None None] (mkDimensions 3 1 None None) =
        ([mkDimensions 1 3 None None], false)) /\
   (~ refused [mkDimensions 1 3 None None] (mkDimensions 3 1 None None) ->
      addToDimensions [mkDimensions 1 3 None None] (mkDimensions 3 1 None None) =
        (List.filter (fun p => negb (dominatesb (mkDimensions 3 1 None None) p))
           [mkDimensions 1 3 None None] ++ [mkDimensions 3 1 None None], true)) /\
   no_domination
     (fst (addToDimensions [mkDimensions 1 3 None None] (mkDimensions 3 1 None None)))).
Proof.
  split.
  - apply no_domination_singleton.
  - apply (addToDimensions_spec [mkDimensions 1 3 None None] (mkDimensions 3 1 None None)).
    apply no_domination_singleton.
Defined.

Lemma isValidNPE_spec_witness :
  (Z.of_nat (String.length "12V3V") < 2 ^ 31)%Z /\
  ((isValidNPE "12V3V" = true <->
      operands_unique (list_ascii_of_string "12V3V") /\
      no_repeated_operator (list_ascii_of_string "12V3V") /\
      balloting (list_ascii_of_string "12V3V") /\
      operators_one_less (list_ascii_of_string "12V3V")) /\
   isValidNPE "12V3V" = true /\
   isValidNPE "1V2V" = false).
Proof.
  split.
  - vm_compute. reflexivity.
  - apply (isValidNPE_spec "12V3V"). vm_compute. reflexivity.
Defined.

(** The store that [generateTree] makes of 12V and two free cells, of area
    3 and aspect ratio 3, and of area 12 and aspect ratio 3/4: each cell has
    two points, and the node V gets two of the four candidates. *)
Lemma two_cells_rep :
  rep 0 (mkStore [SNode_free "1" 3 3; SNode_free "2" 12 (3 / 4)]
       [mkSNode true true "V" 0 0 [] None (Some (CellPtr 1)) (Some (CellPtr 0)) None])
    (OpPtr 0) (Node "V" (Leaf "1" (CellPtr 0)) (Leaf "2" (CellPtr 1))) /\
  (tree_height (Node "V" (Leaf "1" (CellPtr 0)) (Leaf "2" (CellPtr 1))) <= 2)%nat /\
  cells_have_sizes [SNode_free "1" 3 3; SNode_free "2" 12 (3 / 4)].
Proof.
  split; [|split; [simpl; lia|repeat constructor; discriminate]].
  exists 0%nat, (mkSNode true true "V" 0 0 [] None
                   (Some (CellPtr 1)) (Some (CellPtr 0)) None), (CellPtr 0), (CellPtr 1).
  split; [reflexivity|]. split; [lia|]. do 5 (split; [reflexivity|]). split.
  - split; [reflexivity|]. exists 0%nat, (SNode_free "1" 3 3). repeat split.
  - split; [reflexivity|]. exists 1%nat, (SNode_free "2" 12 (3 / 4)). repeat split.
Qed.

Lemma calcMinArea_candidates_witness :
  rep 0 (mkStore [SNode_free "1" 3 3; SNode_free "2" 12 (3 / 4)]
       [mkSNode true true "V" 0 0 [] None (Some (CellPtr 1)) (Some (CellPtr 0)) None])
    (OpPtr 0) (Node "V" (Leaf "1" (CellPtr 0)) (Leaf "2" (CellPtr 1))) /\
  (tree_height (Node "V" (Leaf "1" (CellPtr 0)) (Leaf "2" (CellPtr 1))) <= 2)%nat /\
  cells_have_sizes [SNode_free "1" 3 3; SNode_free "2" 12 (3 / 4)] /\
  exists st' a n' pr pl rn ln offered,
    calcMinArea 2 (mkStore [SNode_free "1" 3 3; SNode_free "2" 12 (3 / 4)]
       [mkSNode true true "V" 0 0 [] None (Some (CellPtr 1)) (Some (CellPtr 0)) None])
      (OpPtr 0) = Returns st' a /\
    deref st' (OpPtr 0) = Some n' /\ isOperator n' = true /\ name n' = "V"%char /\
    right n' = Some pr /\ left n' = Some pl /\
    deref st' pr = Some rn /\ deref st' pl = Some ln /\
    stored [SNode_free "1" 3 3; SNode_free "2" 12 (3 / 4)] st' pr (Leaf "2" (CellPtr 1)) /\
    stored [SNode_free "1" 3 3; SNode_free "2" 12 (3 / 4)] st' pl (Leaf "1" (CellPtr 0)) /\
    merge_loops "V" (sizes rn) (sizes ln) = mkMergeState (sizes n') offered /\
    sizes n' = offer_all offered [] /\
    length offered = (length (sizes rn) * length (sizes ln))%nat /\
    (forall i j r l, sizes rn !! i = Some r -> sizes ln !! j = Some l ->
       exists c, offered !! (i * length (sizes ln) + j)%nat = Some c /\
         rSelected c = Some i /\ lSelected c = Some j /\
         ("V"%char = "V"%char ->
            width c = fadd (width r) (width l) /\ height c = Rmax (height r) (height l)) /\
         ("V"%char <> "V"%char ->
            width c = Rmax (width r) (width l) /\ height c = fadd (height r) (height l))) /\
    (forall k c, offered !! k = Some c ->
       exists i j r l, k = (i * length (sizes ln) + j)%nat /\
         sizes rn !! i = Some r /\ sizes ln !! j = Some l /\
         rSelected c = Some i /\ lSelected c = Some j) /\
    NoDup (map (fun c => (rSelected c, lSelected c)) offered).
Proof.
  destruct two_cells_rep as (H1 & H2 & H3).
  split; [exact H1|]. split; [exact H2|]. split; [exact H3|].
  apply (calcMinArea_candidates 0
           (mkStore [SNode_free "1" 3 3; SNode_free "2" 12 (3 / 4)]
       [mkSNode true true "V" 0 0 [] None (Some (CellPtr 1)) (Some (CellPtr 0)) None])
           (OpPtr 0) "V" (Leaf "1" (CellPtr 0)) (Leaf "2" (CellPtr 1)) 2 H1 H2 H3).
Defined.


(** The two candidates of a node H, offered in the opposite order. *)
Lemma merged_sizes_order_independent_witness :
  Permutation
    (ms_offered (merge_loops "H" [mkDimensions 1 4 None None]
                   [mkDimensions 1 1 None None; mkDimensions 2 2 None None]))
    (rev (ms_offered (merge_loops "H" [mkDimensions 1 4 None None]
                        [mkDimensions 1 1 None None; mkDimensions 2 2 None None]))) /\
  forall w h,
    has_point
      (offer_all
         (rev (ms_offered (merge_loops "H" [mkDimensions 1 4 None None]
                             [mkDimensions 1 1 None None; mkDimensions 2 2 None None])))
         []) w h <->
    has_point
      (merged_sizes "H" [mkDimensions 1 4 None None]
         [mkDimensions 1 1 None None; mkDimensions 2 2 None None]) w h.
Proof.
  split.
  - apply Permutation_rev.
  - apply (merged_sizes_order_independent "H" [mkDimensions 1 4 None None]
             [mkDimensions 1 1 None None; mkDimensions 2 2 None None]).
    apply Permutation_rev.
Defined.


Lemma generateTree_builds_postfix_tree_witness :
  (Z.of_nat (String.length "12V") < 2 ^ 31)%Z /\
  isValidNPE "12V" = true /\
  (0 < count_operators (list_ascii_of_string "12V"))%nat /\
  name_complete [SNode_free "1" 1 1; SNode_free "2" 1 1] "12V" /\
  cells_are_operands [SNode_free "1" 1 1; SNode_free "2" 1 1] /\
  exists st t,
    generateTree "12V" [SNode_free "1" 1 1; SNode_free "2" 1 1] [] =
      Returns st (OpPtr 0) /\
    cells st = [SNode_free "1" 1 1; SNode_free "2" 1 1] /\
    build_earlier_left "12V" [SNode_free "1" 1 1; SNode_free "2" 1 1] = Some t /\
    build_spec "12V" [SNode_free "1" 1 1; SNode_free "2" 1 1] = Some (mirror t) /\
    postfix t = list_ascii_of_string "12V" /\
    (forall fuel, (tree_height t <= fuel)%nat -> to_tree fuel st (OpPtr 0) = Some t) /\
    (forall fuel, (tree_height t <= fuel)%nat ->
       print fuel st (OpPtr 0) [] = Returns (list_ascii_of_string "12V") tt).
Proof.
  assert (H1 : (Z.of_nat (String.length "12V") < 2 ^ 31)%Z) by (vm_compute; reflexivity).
  assert (H2 : isValidNPE "12V" = true) by reflexivity.
  assert (H3 : (0 < count_operators (list_ascii_of_string "12V"))%nat) by (unfold count_operators; simpl; lia).
  assert (H4 : name_complete [SNode_free "1" 1 1; SNode_free "2" 1 1] "12V")
    by exact name_complete_12V.
  assert (H5 : cells_are_operands [SNode_free "1" 1 1; SNode_free "2" 1 1])
    by (repeat constructor).
  split; [exact H1|]. split; [exact H2|]. split; [exact H3|]. split; [exact H4|].
  split; [exact H5|].
  apply (generateTree_builds_postfix_tree "12V"
           [SNode_free "1" 1 1; SNode_free "2" 1 1] [] H1 H2 H3 H4 H5).
Defined.

(* ================================================================== *)
(** ** The further properties at concrete inputs *)

(** The curve (3,1) after the point (1,3) was offered; the point (2,4),
    which (1,3) dominates, is offered next. *)
Lemma addToDimensions_idempotent_witness :
  no_domination [mkDimensions 1 3 None None] /\
  dominates (mkDimensions 3 1 None None) (mkDimensions 4 2 None None) /\
  addToDimensions
    (fst (addToDimensions [mkDimensions 1 3 None None] (mkDimensions 3 1 None None)))
    (mkDimensions 4 2 None None) =
    (fst (addToDimensions [mkDimensions 1 3 None None] (mkDimensions 3 1 None None)),
     false).
Proof.
  assert (H1 : no_domination [mkDimensions 1 3 None None])
    by apply no_domination_singleton.
  assert (H2 : dominates (mkDimensions 3 1 None None) (mkDimensions 4 2 None None))
    by (split; simpl; lra).
  split; [exact H1|]. split; [exact H2|].
  apply (addToDimensions_idempotent [mkDimensions 1 3 None None]
           (mkDimensions 3 1 None None) (mkDimensions 4 2 None None) H1 H2).
Defined.

(** The list (3,3), (1,1), which has a domination, offered the point
    (2,2). *)
Lemma addToDimensions_erases_before_refusing_witness :
  dominates (mkDimensions 2 2 None None) (mkDimensions 3 3 None None) /\
  ~ dominates (mkDimensions 3 3 None None) (mkDimensions 2 2 None None) /\
  dominates (mkDimensions 1 1 None None) (mkDimensions 2 2 None None) /\
  addToDimensions [mkDimensions 3 3 None None; mkDimensions 1 1 None None]
    (mkDimensions 2 2 None None) = ([mkDimensions 1 1 None None], false).
Proof.
  assert (H1 : dominates (mkDimensions 2 2 None None) (mkDimensions 3 3 None None))
    by (split; simpl; lra).
  assert (H2 : ~ dominates (mkDimensions 3 3 None None) (mkDimensions 2 2 None None))
    by (intros [H _]; simpl in H; lra).
  assert (H3 : dominates (mkDimensions 1 1 None None) (mkDimensions 2 2 None None))
    by (split; simpl; lra).
  split; [exact H1|]. split; [exact H2|]. split; [exact H3|].
  apply (addToDimensions_erases_before_refusing (mkDimensions 3 3 None None)
           (mkDimensions 1 1 None None) (mkDimensions 2 2 None None) [] H1 H2 H3).
Defined.

Lemma isValidNPE_shape_witness :
  (Z.of_nat (String.length "12V3H") < 2 ^ 31)%Z /\
  isValidNPE "12V3H" = true /\
  (String.length "12V3H" = 2 * count_operands (list_ascii_of_string "12V3H") - 1)%nat /\
  (1 <= count_operands (list_ascii_of_string "12V3H"))%nat /\
  (exists c, head (list_ascii_of_string "12V3H") = Some c /\ is_operator_char c = false) /\
  ((1 < String.length "12V3H")%nat ->
     (3 <= String.length "12V3H")%nat /\
     (exists c, list_ascii_of_string "12V3H" !! 1%nat = Some c /\
        is_operator_char c = false) /\
     (exists c, last (list_ascii_of_string "12V3H") = Some c /\
        is_operator_char c = true)).
Proof.
  assert (H1 : (Z.of_nat (String.length "12V3H") < 2 ^ 31)%Z) by (vm_compute; reflexivity).
  assert (H2 : isValidNPE "12V3H" = true) by reflexivity.
  split; [exact H1|]. split; [exact H2|].
  apply (isValidNPE_shape "12V3H" H1 H2).
Defined.

(** The tree V over the cells 1 and 2, and the tree V whose right child is
    a V again. *)
Lemma isValidNPE_postfix_witness :
  wf_tree (Node "V" (Leaf "1" (CellPtr 0)) (Leaf "2" (CellPtr 1))) /\
  (Z.of_nat (length (postfix (Node "V" (Leaf "1" (CellPtr 0)) (Leaf "2" (CellPtr 1)))))
     < 2 ^ 31)%Z /\
  (isValidNPE
     (string_of_list_ascii
        (postfix (Node "V" (Leaf "1" (CellPtr 0)) (Leaf "2" (CellPtr 1))))) = true <->
   NoDup (leaf_names (Node "V" (Leaf "1" (CellPtr 0)) (Leaf "2" (CellPtr 1)))) /\
   normalized (Node "V" (Leaf "1" (CellPtr 0)) (Leaf "2" (CellPtr 1)))).
Proof.
  assert (H1 : wf_tree (Node "V" (Leaf "1" (CellPtr 0)) (Leaf "2" (CellPtr 1))))
    by (simpl; auto).
  assert (H2 : (Z.of_nat (length (postfix (Node "V" (Leaf "1" (CellPtr 0))
                                             (Leaf "2" (CellPtr 1))))) < 2 ^ 31)%Z)
    by (vm_compute; reflexivity).
  split; [exact H1|]. split; [exact H2|].
  apply (isValidNPE_postfix (Node "V" (Leaf "1" (CellPtr 0)) (Leaf "2" (CellPtr 1))) H1 H2).
Defined.

(** The tree V over the cells 1 and 2, written and read back. *)
Lemma generateTree_round_trip_witness :
  wf_tree (Node "V" (Leaf "1" (CellPtr 0)) (Leaf "2" (CellPtr 1))) /\
  NoDup (leaf_names (Node "V" (Leaf "1" (CellPtr 0)) (Leaf "2" (CellPtr 1)))) /\
  normalized (Node "V" (Leaf "1" (CellPtr 0)) (Leaf "2" (CellPtr 1))) /\
  all_found (find_cell [SNode_free "1" 1 1; SNode_free "2" 1 1])
    (Node "V" (Leaf "1" (CellPtr 0)) (Leaf "2" (CellPtr 1))) /\
  cells_are_operands [SNode_free "1" 1 1; SNode_free "2" 1 1] /\
  (Z.of_nat (length (postfix (Node "V" (Leaf "1" (CellPtr 0)) (Leaf "2" (CellPtr 1)))))
     < 2 ^ 31)%Z /\
  exists st,
    generateTree
      (string_of_list_ascii
         (postfix (Node "V" (Leaf "1" (CellPtr 0)) (Leaf "2" (CellPtr 1)))))
      [SNode_free "1" 1 1; SNode_free "2" 1 1] [] = Returns st (OpPtr 0) /\
    cells st = [SNode_free "1" 1 1; SNode_free "2" 1 1] /\
    forall fuel,
      (tree_height (Node "V" (Leaf "1" (CellPtr 0)) (Leaf "2" (CellPtr 1))) <= fuel)%nat ->
      to_tree fuel st (OpPtr 0) =
        Some (Node "V" (Leaf "1" (CellPtr 0)) (Leaf "2" (CellPtr 1))) /\
      print fuel st (OpPtr 0) [] =
        Returns (postfix (Node "V" (Leaf "1" (CellPtr 0)) (Leaf "2" (CellPtr 1)))) tt.
Proof.
  assert (H1 : wf_tree (Node "V" (Leaf "1" (CellPtr 0)) (Leaf "2" (CellPtr 1))))
    by (simpl; auto).
  assert (H2 : NoDup (leaf_names (Node "V" (Leaf "1" (CellPtr 0)) (Leaf "2" (CellPtr 1))))).
  { simpl. constructor; [|constructor; [|constructor]].
    - intros H. apply list_elem_of_singleton in H. discriminate.
    - intros H. inversion H. }
  assert (H3 : normalized (Node "V" (Leaf "1" (CellPtr 0)) (Leaf "2" (CellPtr 1))))
    by (simpl; auto).
  assert (H4 : all_found (find_cell [SNode_free "1" 1 1; SNode_free "2" 1 1])
                 (Node "V" (Leaf "1" (CellPtr 0)) (Leaf "2" (CellPtr 1))))
    by (split; reflexivity).
  assert (H5 : cells_are_operands [SNode_free "1" 1 1; SNode_free "2" 1 1])
    by (repeat constructor).
  assert (H6 : (Z.of_nat (length (postfix (Node "V" (Leaf "1" (CellPtr 0))
                                             (Leaf "2" (CellPtr 1))))) < 2 ^ 31)%Z)
    by (vm_compute; reflexivity).
  split; [exact H1|]. split; [exact H2|]. split; [exact H3|]. split; [exact H4|].
  split; [exact H5|]. split; [exact H6|].
  apply (generateTree_round_trip [SNode_free "1" 1 1; SNode_free "2" 1 1] [] "V"
           (Leaf "1" (CellPtr 0)) (Leaf "2" (CellPtr 1)) H1 H2 H3 H4 H5 H6).
Defined.

(** The expression 12V with a cell for 1 only: the exception for the
    missing cell is thrown. *)
Lemma generateTree_operators_witness :
  (Z.of_nat (String.length "12V") < 2 ^ 31)%Z /\
  cells_are_operands [SNode_free "1" 1 1] /\
  exists st m,
    generateTree "12V" [SNode_free "1" 1 1] [] = Throws st m /\
    cells st = [SNode_free "1" 1 1] /\
    map name (operators st) = ["V"%char].
Proof.
  assert (H1 : (Z.of_nat (String.length "12V") < 2 ^ 31)%Z) by (vm_compute; reflexivity).
  assert (H2 : cells_are_operands [SNode_free "1" 1 1]) by (repeat constructor).
  split; [exact H1|]. split; [exact H2|].
  destruct (generateTree_operators "12V" [SNode_free "1" 1 1] [] H1 H2)
    as [(st & E & _)|(st & m & E & Hc & _ & _)].
  - discriminate E.
  - exists st, m. split; [exact E|]. split; [exact Hc|].
    injection E as <- _. reflexivity.
Defined.




(** Twenty cells, one for each operand of the expressions of [main]: the
    three calls of [cost] return. *)
Lemma main_costs_outcome_witness :
  read_cells (map (fun c => SNode_free c 1 1) main_operands) /\ (39 <= 39)%nat /\
  names_all (map (fun c => SNode_free c 1 1) main_operands) main_operands /\
  isValidNPE initialVerticalNPE = true /\
  isValidNPE initialHorizontalNPE = true /\
  isValidNPE initialOtherNPE = true /\
  exists st tV tH tO,
    build_earlier_left initialVerticalNPE (map (fun c => SNode_free c 1 1) main_operands) = Some tV /\
    build_earlier_left initialHorizontalNPE (map (fun c => SNode_free c 1 1) main_operands) = Some tH /\
    build_earlier_left initialOtherNPE (map (fun c => SNode_free c 1 1) main_operands) = Some tO /\
    main_costs 39 (map (fun c => SNode_free c 1 1) main_operands) =
      Returns st (tree_cost (map (fun c => SNode_free c 1 1) main_operands) tV, tree_cost (map (fun c => SNode_free c 1 1) main_operands) tH, tree_cost (map (fun c => SNode_free c 1 1) main_operands) tO) /\
    cells st = (map (fun c => SNode_free c 1 1) main_operands).
Proof.
  assert (H1 : read_cells (map (fun c => SNode_free c 1 1) main_operands)).
  { apply Forall_fmap, Forall_forall. intros c _. simpl. eauto. }
  assert (H2 : (39 <= 39)%nat) by lia.
  assert (H3 : names_all (map (fun c => SNode_free c 1 1) main_operands) main_operands).
  { intros c Hc. exists (SNode_free c 1 1). split; [|reflexivity].
    apply (list_elem_of_fmap_2 (fun c => SNode_free c 1 1)), Hc. }
  split; [exact H1|]. split; [exact H2|]. split; [exact H3|].
  destruct (main_costs_outcome (map (fun c => SNode_free c 1 1) main_operands) 39 H1 H2)
    as (HV & HH & HO & _ & _ & _ & _ & _ & Hret & _).
  split; [exact HV|]. split; [exact HH|]. split; [exact HO|].
  apply Hret, H3.
Defined.
